(** * Rotation subsystem of the SNova math library: Quat, Rotator, Transform

    A shallow embedding of [Quat.h]/[Quat.cpp], [Rotator.h]/[Rotator.cpp],
    of the vector and matrix operations of [Vector3D.cpp] and
    [Matrix3x3.cpp], of the parts of [GenMath.h]/[GenMath.cpp] they use, and
    of [Transform.cpp]: the members that keep [rotation], [rotator] and the
    matrix together, the copy constructor and the assignment, the setters
    of position and scale, the tag system and the text format of
    [Serialize] and [Deserialize].

    ** Number model

    The C++ type [float] is modelled by the real numbers [R]: every
    arithmetic operator is the exact operation, [sinf], [cosf], [asinf],
    [acosf], [atan2f], [sqrtf], [fabsf] and [fmodf] are the mathematical
    functions they approximate, and the constant [PI] is the number it
    approximates.  There is no rounding, no overflow, no signed zero and no
    NaN in this model ([ENABLE_NAN_CHECK] is 0 in [GenMath.h], so
    [DiagnosticCheckNaN] is the empty function in the source as well).
    Statements that the specification makes "within tolerance" are proved
    here as exact equalities, or with an explicit error bound where the code
    itself approximates ([Math::InvSqrt], see below).

    [Math::InvSqrt] works on the bit pattern of its argument.  It is
    embedded with the binary32 layout of a positive number (biased exponent
    in bits 30 to 23, fraction in bits 22 to 0): the shift and the
    subtraction are integer operations on that pattern, the Newton step is
    done on [R].  A real number that is no binary32 number has the pattern
    of the next one towards zero, and the exponent is not bounded, in line
    with the absence of rounding and overflow elsewhere.  The relative error
    of the function, below 0.176 percent, is proved
    ([InvSqrt_relative_error]).  The members that call it take the function
    as an argument [InvSqrt], so that what does not depend on its values is
    stated for every function; what depends on them is stated for
    [Math.InvSqrt].

    ** Object model

    [Quat] and [Rotator] carry the pointer [mp_BoundTransform]; it is an
    [option addr].  Objects that methods mutate live in a [World]: the
    [Transform]s by address, and free-standing [Quat] and [Rotator] variables.
    A method is called on a location ([QuatLoc], [RotatorLoc]), which is
    either a variable or the [rotation]/[rotator] member of a [Transform], so
    that a write through [mp_BoundTransform] and a write through [this] may
    hit the same object. *)

From Stdlib Require Import Reals Lra Psatz RNsatz.
From Stdlib Require Import Ascii String.
From stdpp Require Import gmap strings list.

Open Scope R_scope.

(** Comparisons of [float]s are decidable tests in the source. *)
#[global] Instance Rlt_decision (a b : R) : Decision (a < b) := Rlt_dec a b.
#[global] Instance Rle_decision (a b : R) : Decision (a <= b) := Rle_dec a b.
#[global] Instance Rgt_decision (a b : R) : Decision (a > b) := Rgt_dec a b.
#[global] Instance Rge_decision (a b : R) : Decision (a >= b) := Rge_dec a b.
#[global] Instance Req_decision : EqDecision R := Req_dec_T.

(** ** GenMath.h *)

Definition SMALL_NUMBER : R := 1 / 100000000.
Definition KINDA_SMALL_NUMBER : R := 1 / 10000.

Definition PIOVER180 : R := PI / 180.
Definition OVERPI : R := 180 / PI.
Definition DEG2RAD (deg : R) : R := deg * PIOVER180.
Definition RAD2DEG (rad : R) : R := rad * OVERPI.

(** [truncf]: the integer part, rounded towards zero, as [fmodf] uses it. *)
Definition Rtrunc (r : R) : Z :=
  if decide (0 <= r) then Int_part r else (- Int_part (- r))%Z.

(** [fmodf x y]: [x - n * y] where [n] is [x / y] with its fractional part
    cut off; the result has the sign of [x] and magnitude below that of
    [y]. *)
Definition fmodf (a b : R) : R := a - IZR (Rtrunc (a / b)) * b.

(** [atan2f y x], by quadrant. *)
Definition atan2f (b a : R) : R :=
  if decide (0 < a) then atan (b / a)
  else if decide (a < 0) then
         (if decide (0 <= b) then atan (b / a) + PI else atan (b / a) - PI)
  else if decide (0 < b) then PI / 2
  else if decide (b < 0) then - (PI / 2)
  else 0.

(** ** GenMath.cpp *)

Definition EPSILON : R := KINDA_SMALL_NUMBER.

Definition DegToRad (degrees : R) : R := degrees * (PI / 180).

(** [FastInverseSqrt] returns [1.0f / sqrtf(number)] (its bit-level
    versions are commented out in the source); [Sqrt] is [sqrtf]. *)
Definition FastInverseSqrt (number : R) : R := 1 / sqrt number.
Definition Sqrt (number : R) : R := sqrt number.

Definition Approximate (a b : R) : bool :=
  if decide (a - EPSILON > b) then false
  else if decide (a + EPSILON < b) then false
  else true.

Module Math.

Definition SinCos (rad : R) : R * R := (sin rad, cos rad).

Definition FloatEqual (a b tolerance : R) : bool :=
  bool_decide (Rabs (a - b) < tolerance).

Definition Max (A B : R) : R := if decide (A >= B) then A else B.
Definition Min (A B : R) : R := if decide (A <= B) then A else B.

(** The binary32 layout of a positive number [f = m * 2^e] with
    [1 <= m < 2]: sign bit 0, [e + 127] in bits 30 to 23 and the first 23
    binary places of [m - 1] in bits 22 to 0.  [float_to_bits] is the read
    of [conv.i] after the write of [conv.f], [bits_to_float] the read of
    [conv.f] after the write of [conv.i]. *)
Definition float_exponent (f : R) : Z := Int_part (ln f / ln 2).

Definition float_to_bits (f : R) : Z :=
  let e := float_exponent f in
  ((e + 127) * 2 ^ 23
   + Int_part ((f * powerRZ 2 (- e) - 1) * 8388608))%Z.

Definition bits_to_float (i : Z) : R :=
  (1 + IZR (i mod 2 ^ 23) / 8388608) * powerRZ 2 (i / 2 ^ 23 - 127).

(** [Math::InvSqrt].  For a positive binary32 number [conv.i >> 1] is below
    [2^30], so the subtraction from [0x5f3759df] does not wrap in
    [uint32_t]. *)
Definition InvSqrt (num : R) : R :=
  let threehalfs := 15 / 10 in
  let x2 := num * (5 / 10) in
  let conv_i := float_to_bits num in
  let conv_i := (0x5f3759df - Z.shiftr conv_i 1)%Z in
  let conv_f := bits_to_float conv_i in
  conv_f * (threehalfs - x2 * conv_f * conv_f).

End Math.

(** ** Vector3D.h, Vector3D.cpp *)

Module Vector3D.

Record t : Type := mk { x : R; y : R; z : R }.

(** [operator+], [operator*(float, Vec3)], [operator*(Vec3, Vec3)] (dot
    product) and [operator^] (cross product). *)
Definition add (lhs rhs : t) : t :=
  mk (x lhs + x rhs) (y lhs + y rhs) (z lhs + z rhs).

Definition scale (lhs : R) (rhs : t) : t :=
  mk (x rhs * lhs) (y rhs * lhs) (z rhs * lhs).

Definition dot (lhs rhs : t) : R :=
  x lhs * x rhs + y lhs * y rhs + z lhs * z rhs.

Definition cross (lhs rhs : t) : t :=
  mk (y lhs * z rhs - y rhs * z lhs)
     (z lhs * x rhs - z rhs * x lhs)
     (x lhs * y rhs - x rhs * y lhs).

Definition MagnitudeSq (v : t) : R := x v * x v + y v * y v + z v * z v.

(** The unary [operator-]. *)
Definition neg (v : t) : t := mk (- x v) (- y v) (- z v).

Definition Vector3DLengthSquared (pVec0 : t) : R :=
  x pVec0 * x pVec0 + y pVec0 * y pVec0 + z pVec0 * z pVec0.

Definition Vector3DLength (pVec0 : t) : R :=
  Sqrt (x pVec0 * x pVec0 + y pVec0 * y pVec0 + z pVec0 * z pVec0).

Definition Magnitude (v : t) : R := Vector3DLength v.

(** [NormalizeVector3D(pResult, pVec0)]: the new value of [pResult].  A
    vector whose squared length is within [EPSILON] of 0 is not touched. *)
Definition NormalizeVector3D (pResult pVec0 : t) : t :=
  let magnitudeSq := Vector3DLengthSquared pVec0 in
  if Approximate magnitudeSq 0 then pResult
  else
    let magnitudeSq := FastInverseSqrt magnitudeSq in
    mk (x pVec0 * magnitudeSq) (y pVec0 * magnitudeSq)
       (z pVec0 * magnitudeSq).

(** [Normalize] (in place) and [Normalized] (on a copy). *)
Definition Normalize (this : t) : t := NormalizeVector3D this this.
Definition Normalized (this : t) : t := NormalizeVector3D this this.

End Vector3D.

Abbreviation Vec3 := Vector3D.t.

(** ** Matrix3x3.h: the array [m2[3][3]] *)

Module Matrix3x3.

Record t : Type := mk {
  m00 : R; m01 : R; m02 : R;
  m10 : R; m11 : R; m12 : R;
  m20 : R; m21 : R; m22 : R
}.

(** The default constructor and [Mtx33Identity]. *)
Definition Identity : t := mk 1 0 0 0 1 0 0 0 1.

(** [operator*]: every entry starts at 0 and gets the three products added
    in turn. *)
Definition mul (lhs rhs : t) : t :=
  mk (0 + m00 lhs * m00 rhs + m01 lhs * m10 rhs + m02 lhs * m20 rhs)
     (0 + m00 lhs * m01 rhs + m01 lhs * m11 rhs + m02 lhs * m21 rhs)
     (0 + m00 lhs * m02 rhs + m01 lhs * m12 rhs + m02 lhs * m22 rhs)
     (0 + m10 lhs * m00 rhs + m11 lhs * m10 rhs + m12 lhs * m20 rhs)
     (0 + m10 lhs * m01 rhs + m11 lhs * m11 rhs + m12 lhs * m21 rhs)
     (0 + m10 lhs * m02 rhs + m11 lhs * m12 rhs + m12 lhs * m22 rhs)
     (0 + m20 lhs * m00 rhs + m21 lhs * m10 rhs + m22 lhs * m20 rhs)
     (0 + m20 lhs * m01 rhs + m21 lhs * m11 rhs + m22 lhs * m21 rhs)
     (0 + m20 lhs * m02 rhs + m21 lhs * m12 rhs + m22 lhs * m22 rhs).

(** [operator*(const Matrix3x3&, const Vec3&)]: the vector is combined with
    the columns [m2[.][j]]; the row-wise version is commented out in the
    source. *)
Definition mulVec (pMtx : t) (rhs : Vec3) : Vec3 :=
  Vector3D.mk
    (m00 pMtx * Vector3D.x rhs + m10 pMtx * Vector3D.y rhs
     + m20 pMtx * Vector3D.z rhs)
    (m01 pMtx * Vector3D.x rhs + m11 pMtx * Vector3D.y rhs
     + m21 pMtx * Vector3D.z rhs)
    (m02 pMtx * Vector3D.x rhs + m12 pMtx * Vector3D.y rhs
     + m22 pMtx * Vector3D.z rhs).

Definition Determinant (this : t) : R :=
  m00 this * (m11 this * m22 this - m12 this * m21 this)
  - m01 this * (m10 this * m22 this - m12 this * m20 this)
  + m02 this * (m10 this * m21 this - m11 this * m20 this).

(** [Mtx33Transpose(pResult, pMtx)] for distinct objects, and
    [GetTranspose]. *)
Definition Mtx33Transpose (pMtx : t) : t :=
  mk (m00 pMtx) (m10 pMtx) (m20 pMtx)
     (m01 pMtx) (m11 pMtx) (m21 pMtx)
     (m02 pMtx) (m12 pMtx) (m22 pMtx).

Definition GetTranspose (this : t) : t := Mtx33Transpose this.

(** [Mtx33Inverse]: a matrix of determinant 0 is returned as it is. *)
Definition Mtx33Inverse (pMtx : t) : t :=
  let determinant := Determinant pMtx in
  if decide (determinant = 0) then pMtx
  else
    let Adj :=
      mk (m11 pMtx * m22 pMtx - m12 pMtx * m21 pMtx)
         (- (m10 pMtx * m22 pMtx - m12 pMtx * m20 pMtx))
         (m10 pMtx * m21 pMtx - m11 pMtx * m20 pMtx)
         (- (m01 pMtx * m22 pMtx - m02 pMtx * m21 pMtx))
         (m00 pMtx * m22 pMtx - m02 pMtx * m20 pMtx)
         (- (m00 pMtx * m21 pMtx - m01 pMtx * m20 pMtx))
         (m01 pMtx * m12 pMtx - m02 pMtx * m11 pMtx)
         (- (m00 pMtx * m12 pMtx - m02 pMtx * m10 pMtx))
         (m00 pMtx * m11 pMtx - m01 pMtx * m10 pMtx) in
    let Adj := Mtx33Transpose Adj in
    let inv_det := 1 / determinant in
    mk (m00 Adj * inv_det) (m01 Adj * inv_det) (m02 Adj * inv_det)
       (m10 Adj * inv_det) (m11 Adj * inv_det) (m12 Adj * inv_det)
       (m20 Adj * inv_det) (m21 Adj * inv_det) (m22 Adj * inv_det).

(** The two-dimensional builders: each resets the result to the identity
    and then writes its entries. *)
Definition Mtx33Translate (x y : R) : t := mk 1 0 x 0 1 y 0 0 1.

Definition Mtx33Scale (x y : R) : t := mk x 0 0 0 y 0 0 0 1.

Definition Mtx33RotRad (angle : R) : t :=
  mk (cos angle) (- (sin angle)) 0 (sin angle) (cos angle) 0 0 0 1.

Definition Mtx33RotDeg (angle : R) : t :=
  let angle := angle * PI / 180 in
  mk (cos angle) (- (sin angle)) 0 (sin angle) (cos angle) 0 0 0 1.

End Matrix3x3.

(** ** The two rotation structs

    [struct Quat] ([Quat.h]) and [struct Rotator] ([Rotator.h]); each refers
    to the other, so both records come first. *)

Definition addr : Type := nat.

Record Quat : Type := mkQuat {
  w : R;
  x : R;
  y : R;
  z : R;
  (** [Transform* mp_BoundTransform = nullptr] *)
  Quat_mp_BoundTransform : option addr
}.

Record Rotator : Type := mkRotator {
  pitch : R;
  yaw : R;
  roll : R;
  (** [Transform* mp_BoundTransform = nullptr] *)
  Rotator_mp_BoundTransform : option addr
}.

(** The scalar content of a quaternion or rotator, without the pointer. *)
Definition Quat_scalars (q : Quat) : R * R * R * R := (w q, x q, y q, z q).
Definition Rotator_scalars (r : Rotator) : R * R * R :=
  (pitch r, yaw r, roll r).

(** ** Rotator.h, Rotator.cpp: the members that touch no other object *)

Module Rotator.

(** [Rotator(float inPitch, float inYaw, float inRoll)] and the default
    constructor; the pointer takes its default member initializer. *)
Definition make (inPitch inYaw inRoll : R) : Rotator :=
  mkRotator inPitch inYaw inRoll None.

Definition ZeroRotator : Rotator := make 0 0 0.

(** [Rotator] declares no copy constructor: the implicit one copies every
    member, the pointer included. *)
Definition copy (r : Rotator) : Rotator :=
  mkRotator (pitch r) (yaw r) (roll r) (Rotator_mp_BoundTransform r).

Definition MakeFromEuler (eulers : Vec3) : Rotator :=
  make (Vector3D.x eulers) (Vector3D.y eulers) (Vector3D.z eulers).

Definition ClampAxis (angle : R) : R :=
  let angle := fmodf angle 360 in
  if decide (angle < 0) then angle + 360 else angle.

Definition NormalizeAxis (angle : R) : R :=
  let angle := fmodf angle 360 in
  if decide (angle > 180) then angle - 360
  else if decide (angle < -180) then angle + 360
  else angle.

(** [Rotator::Quaternion]. *)
Definition Quaternion (this : Rotator) : Quat :=
  let DEG_TO_RAD_DIVIDED_BY_2 := (PI / 180) / 2 in
  let '(SP, CP) := Math.SinCos (pitch this * DEG_TO_RAD_DIVIDED_BY_2) in
  let '(SY, CY) := Math.SinCos (yaw this * DEG_TO_RAD_DIVIDED_BY_2) in
  let '(SR, CR) := Math.SinCos (roll this * DEG_TO_RAD_DIVIDED_BY_2) in
  mkQuat (CR * CP * CY + SR * SP * SY)
         (CR * SP * SY - SR * CP * CY)
         (- CR * SP * CY - SR * CP * SY)
         (CR * CP * SY - SR * SP * CY)
         None.

Definition Euler (this : Rotator) : Vec3 :=
  Vector3D.mk (pitch this) (yaw this) (roll this).

(** [Rotator::Matrix]. *)
Definition Matrix (this : Rotator) : Matrix3x3.t :=
  let newPitch := yaw this in
  let newYaw := - roll this in
  let newRoll := pitch this in
  let '(SP, CP) := Math.SinCos (DEG2RAD newPitch) in
  let '(SY, CY) := Math.SinCos (DEG2RAD newYaw) in
  let '(SR, CR) := Math.SinCos (DEG2RAD newRoll) in
  Matrix3x3.mk
    (CP * CY) (CP * SY) SP
    (SR * SP * CY - CR * SY) (SR * SP * SY + CR * CY) (- SR * CP)
    (- (CR * SP * CY + SR * SY)) (CY * SR - CR * SP * SY) (CR * CP).

(** [operator+], [operator-], [operator*(float)]: fresh, unbound values. *)
Definition add (this r : Rotator) : Rotator :=
  make (pitch this + pitch r) (yaw this + yaw r) (roll this + roll r).
Definition sub (this r : Rotator) : Rotator :=
  make (pitch this - pitch r) (yaw this - yaw r) (roll this - roll r).
Definition scale (this : Rotator) (s : R) : Rotator :=
  make (pitch this * s) (yaw this * s) (roll this * s).

Definition Equals (this r : Rotator) (tolerance : R) : bool :=
  bool_decide (Rabs (NormalizeAxis (pitch this - pitch r)) <= tolerance)
  && bool_decide (Rabs (NormalizeAxis (yaw this - yaw r)) <= tolerance)
  && bool_decide (Rabs (NormalizeAxis (roll this - roll r)) <= tolerance).

(** The field writes of the mutating members.  What each member does after
    them (a call of [UpdateBoundTransform], or nothing) is in
    [Section Objects]. *)
Definition assign_fields (this r : Rotator) : Rotator :=
  mkRotator (pitch r) (yaw r) (roll r) (Rotator_mp_BoundTransform this).
Definition add_assign_fields (this r : Rotator) : Rotator :=
  mkRotator (pitch this + pitch r) (yaw this + yaw r) (roll this + roll r)
            (Rotator_mp_BoundTransform this).
Definition sub_assign_fields (this r : Rotator) : Rotator :=
  mkRotator (pitch this - pitch r) (yaw this - yaw r) (roll this - roll r)
            (Rotator_mp_BoundTransform this).
Definition scale_assign_fields (this : Rotator) (s : R) : Rotator :=
  mkRotator (pitch this * s) (yaw this * s) (roll this * s)
            (Rotator_mp_BoundTransform this).
Definition Add_fields (this : Rotator) (deltaPitch deltaYaw deltaRoll : R)
  : Rotator :=
  mkRotator (pitch this + deltaPitch) (yaw this + deltaYaw)
            (roll this + deltaRoll) (Rotator_mp_BoundTransform this).
Definition Clamp_fields (this : Rotator) : Rotator :=
  mkRotator (ClampAxis (pitch this)) (ClampAxis (yaw this))
            (ClampAxis (roll this)) (Rotator_mp_BoundTransform this).
Definition Normalize_fields (this : Rotator) : Rotator :=
  mkRotator (NormalizeAxis (pitch this)) (NormalizeAxis (yaw this))
            (NormalizeAxis (roll this)) (Rotator_mp_BoundTransform this).

(** [GetNormalized], [GetClamped]: [Rotator r = *this; return r.Normalize();]
    The local [r] is an implicit copy; [Normalize] and [Clamp] call no
    update. *)
Definition GetNormalized (this : Rotator) : Rotator :=
  copy (Normalize_fields (copy this)).
Definition GetClamped (this : Rotator) : Rotator :=
  copy (Clamp_fields (copy this)).

(** [Rotator::Vector]: the direction the rotation faces. *)
Definition Vector (this : Rotator) : Vec3 :=
  let '(SP, CP) := Math.SinCos (DEG2RAD (pitch this)) in
  let '(SY, CY) := Math.SinCos (DEG2RAD (yaw this)) in
  Vector3D.mk (CP * CY) (CP * SY) SP.

(** [RotateVector] and [UnrotateVector] go through the matrix. *)
Definition RotateVector (this : Rotator) (v : Vec3) : Vec3 :=
  Matrix3x3.mulVec (Matrix this) v.

Definition UnrotateVector (this : Rotator) (v : Vec3) : Vec3 :=
  Matrix3x3.mulVec (Matrix3x3.GetTranspose (Matrix this)) v.

Definition IsNearlyZero (this : Rotator) (tolerance : R) : bool :=
  bool_decide (Rabs (NormalizeAxis (pitch this)) <= tolerance)
  && bool_decide (Rabs (NormalizeAxis (yaw this)) <= tolerance)
  && bool_decide (Rabs (NormalizeAxis (roll this)) <= tolerance).

Definition IsZero (this : Rotator) : bool :=
  bool_decide (Rabs (ClampAxis (pitch this)) = 0)
  && bool_decide (Rabs (ClampAxis (yaw this)) = 0)
  && bool_decide (Rabs (ClampAxis (roll this)) = 0).

End Rotator.

(** ** Quat.h, Quat.cpp: the members that touch no other object *)

Module Quat.

(** Allowed error for a normalized quaternion. *)
Definition THRESH_QUAT_NORMALIZED : R := 1 / 100.

(** [Quat(float InW, float InX, float InY, float InZ)]. *)
Definition make (InW InX InY InZ : R) : Quat := mkQuat InW InX InY InZ None.

(** [Quat()] and [Quat::Identity]. *)
Definition Identity : Quat := make 1 0 0 0.

(** [Quat(const Quat& q) : x(q.x), y(q.y), z(q.z), w(q.w) {}]: the pointer
    is not in the initializer list and takes its default, [nullptr]. *)
Definition copy (q : Quat) : Quat := mkQuat (w q) (x q) (y q) (z q) None.

(** [Quat(Vec3 Axis, float AngleRad)]. *)
Definition FromAxisAngle (Axis : Vec3) (AngleRad : R) : Quat :=
  let half_a := (1 / 2) * AngleRad in
  let '(s, c) := Math.SinCos half_a in
  mkQuat c
         (s * - Vector3D.z Axis)
         (s * - Vector3D.x Axis)
         (s * Vector3D.y Axis)
         None.

Definition SINGULARITY_THRESHOLD : R := 4999995 / 10000000.

(** [Quat::GetRotator]. *)
Definition GetRotator (this : Quat) : Rotator :=
  let yawY := 2 * (w this * z this + x this * y this) in
  let yawX := 1 - 2 * (y this * y this + z this * z this) in
  let singularityTest := z this * x this - w this * y this in
  if decide (singularityTest < - SINGULARITY_THRESHOLD) then
    let r_pitch := -90 in
    let r_yaw := RAD2DEG (atan2f yawY yawX) in
    let r_roll :=
      Rotator.NormalizeAxis
        (- r_yaw - RAD2DEG (2 * atan2f (x this) (w this))) in
    mkRotator r_pitch r_yaw r_roll None
  else if decide (singularityTest > SINGULARITY_THRESHOLD) then
    let r_pitch := 90 in
    let r_yaw := RAD2DEG (atan2f yawY yawX) in
    let r_roll :=
      Rotator.NormalizeAxis
        (r_yaw - RAD2DEG (2 * atan2f (x this) (w this))) in
    mkRotator r_pitch r_yaw r_roll None
  else
    let r_pitch := RAD2DEG (asin (2 * singularityTest)) in
    let r_yaw := RAD2DEG (atan2f yawY yawX) in
    let r_roll :=
      RAD2DEG (atan2f (-2 * (w this * x this + y this * z this))
                      (1 - 2 * (x this * x this + y this * y this))) in
    mkRotator r_pitch r_yaw r_roll None.

Definition Euler (this : Quat) : Vec3 := Rotator.Euler (GetRotator this).

Definition Matrix (this : Quat) : Matrix3x3.t :=
  Rotator.Matrix (GetRotator this).

Definition SizeSquared (this : Quat) : R :=
  w this * w this + x this * x this + y this * y this + z this * z this.

Definition Size (this : Quat) : R :=
  sqrt (w this * w this + x this * x this + y this * y this
        + z this * z this).

Definition IsNormalized (this : Quat) : bool :=
  bool_decide (Rabs (1 - SizeSquared this) < THRESH_QUAT_NORMALIZED).

(** [operator|]: the inner product. *)
Definition dot (this q : Quat) : R :=
  w this * w q + x this * x q + y this * y q + z this * z q.

(** [operator+], [operator-], [operator*(const Quat&)] (Hamilton product),
    [operator*(float)], [operator/(float)], unary [operator-]. *)
Definition add (this q : Quat) : Quat :=
  make (w this + w q) (x this + x q) (y this + y q) (z this + z q).

Definition sub (this q : Quat) : Quat :=
  make (w this - w q) (x this - x q) (y this - y q) (z this - z q).

Definition mul (this q : Quat) : Quat :=
  make (w this * w q - x this * x q - y this * y q - z this * z q)
       (w this * x q + x this * w q + y this * z q - z this * y q)
       (w this * y q - x this * z q + y this * w q + z this * x q)
       (w this * z q + x this * y q - y this * x q + z this * w q).

Definition scale (this : Quat) (s : R) : Quat :=
  make (w this * s) (x this * s) (y this * s) (z this * s).

Definition div (this : Quat) (s : R) : Quat :=
  make (w this / s) (x this / s) (y this / s) (z this / s).

Definition neg (this : Quat) : Quat :=
  make (- w this) (- x this) (- y this) (- z this).

Definition Equals (this q : Quat) (tolerance : R) : bool :=
  Math.FloatEqual (w this) (w q) tolerance
  && Math.FloatEqual (x this) (x q) tolerance
  && Math.FloatEqual (y this) (y q) tolerance
  && Math.FloatEqual (z this) (z q) tolerance.

Definition IsIdentity (this : Quat) (tolerance : R) : bool :=
  Equals this Identity tolerance.

Definition GetAngle (this : Quat) : R := 2 * acos (w this).

Definition GetRotationAxis (this : Quat) : Vec3 :=
  let s := sqrt (Math.Max (1 - w this * w this) 0) in
  if decide (s > KINDA_SMALL_NUMBER)
  then Vector3D.mk (- y this / s) (z this / s) (- x this / s)
  else Vector3D.mk 1 0 0.

(** [Quat::RotateVector]: [V' = V + w*T + (Q x T)] with [T = 2(Q x V)]. *)
Definition RotateVector (this : Quat) (V : Vec3) : Vec3 :=
  let Q := Vector3D.mk (x this) (y this) (z this) in
  let T := Vector3D.scale 2 (Vector3D.cross Q V) in
  Vector3D.add (Vector3D.add V (Vector3D.scale (w this) T))
               (Vector3D.cross Q T).

Definition UnrotateVector (this : Quat) (V : Vec3) : Vec3 :=
  let Q := Vector3D.mk (- x this) (- y this) (- z this) in
  let T := Vector3D.scale 2 (Vector3D.cross Q V) in
  Vector3D.add (Vector3D.add V (Vector3D.scale (w this) T))
               (Vector3D.cross Q T).

Definition GetAxisX (this : Quat) : Vec3 :=
  RotateVector this (Vector3D.mk 1 0 0).

(** [Quat::Inverse]. *)
Definition Inverse (this : Quat) : Quat :=
  if IsNormalized this
  then make (w this) (- x this) (- y this) (- z this)
  else Identity.

(** [MakeFromEuler] and the constructor from a [Rotator]. *)
Definition MakeFromEuler (x_pitch y_yaw z_roll : R) : Quat :=
  Rotator.Quaternion (Rotator.make x_pitch y_yaw z_roll).

(** The field writes of the mutating members.  What each member does after
    them is in [Section Objects]. *)
Definition assign_fields (this q : Quat) : Quat :=
  mkQuat (w q) (x q) (y q) (z q) (Quat_mp_BoundTransform this).

Definition add_assign_fields (this q : Quat) : Quat :=
  mkQuat (w this + w q) (x this + x q) (y this + y q) (z this + z q)
         (Quat_mp_BoundTransform this).

Definition sub_assign_fields (this q : Quat) : Quat :=
  mkQuat (w this - w q) (x this - x q) (y this - y q) (z this - z q)
         (Quat_mp_BoundTransform this).

Definition scale_assign_fields (this : Quat) (s : R) : Quat :=
  mkQuat (w this * s) (x this * s) (y this * s) (z this * s)
         (Quat_mp_BoundTransform this).

Definition div_assign_fields (this : Quat) (s : R) : Quat :=
  mkQuat (w this / s) (x this / s) (y this / s) (z this / s)
         (Quat_mp_BoundTransform this).

(** [Quat::EnforceShortestArcWith]; it calls no update. *)
Definition EnforceShortestArcWith (this q : Quat) : Quat :=
  let dotResult := dot this q in
  let bias := if decide (dotResult >= 0) then 1 else -1 in
  mkQuat (w this * bias) (x this * bias) (y this * bias) (z this * bias)
         (Quat_mp_BoundTransform this).

(** [Quat::Slerp_NotNormalized]. *)
Definition DOT_THRESHOLD : R := 9999 / 10000.

Definition Slerp_NotNormalized (q1 q2 : Quat) (t : R) : Quat :=
  let rawCosSum := dot q1 q2 in
  let cosSum := if decide (rawCosSum >= 0) then rawCosSum else - rawCosSum in
  let '(scale0, scale1) :=
    if decide (cosSum < DOT_THRESHOLD) then
      let omega := acos cosSum in
      let invSin := 1 / sin omega in
      (sin ((1 - t) * omega) * invSin, sin (t * omega) * invSin)
    else
      (1 - t, t) in
  let scale1 := if decide (rawCosSum >= 0) then scale1 else - scale1 in
  mkQuat (scale0 * w q1 + scale1 * w q2)
         (scale0 * x q1 + scale1 * x q2)
         (scale0 * y q1 + scale1 * y q2)
         (scale0 * z q1 + scale1 * z q2)
         None.

Section WithInvSqrt.

(** The function that [Normalize] calls for the scale: [Math::InvSqrt] in
    the source, [Math.InvSqrt] here. *)
Variable InvSqrt : R -> R.

(** [Quat::Normalize] on an object that is bound to no [Transform] (a local
    such as the [r] of [GetNormalized]): the assignment [*this = Identity]
    of the second branch then updates nothing else. *)
Definition Normalize_fields (this : Quat) (tolerance : R) : Quat :=
  let squareSum :=
    w this * w this + x this * x this + y this * y this + z this * z this in
  if decide (squareSum >= tolerance) then
    let scale := InvSqrt squareSum in
    mkQuat (w this * scale) (x this * scale) (y this * scale)
           (z this * scale) (Quat_mp_BoundTransform this)
  else assign_fields this Identity.

(** [GetNormalized]: [Quat r{ *this }; r.Normalize(tolerance); return r;] *)
Definition GetNormalized (this : Quat) (tolerance : R) : Quat :=
  copy (Normalize_fields (copy this) tolerance).

(** [Quat::Slerp]; [GetNormalized] is called with its default tolerance. *)
Definition Slerp (q1 q2 : Quat) (t : R) : Quat :=
  GetNormalized (Slerp_NotNormalized q1 q2 t) SMALL_NUMBER.

End WithInvSqrt.

(** The rotated coordinate axes ([GetForwardVector] and [Vector] return
    [GetAxisX], [GetUpVector] returns [GetAxisY], [GetRightVector] returns
    [GetAxisZ]). *)
Definition GetAxisY (this : Quat) : Vec3 :=
  RotateVector this (Vector3D.mk 0 1 0).

Definition GetAxisZ (this : Quat) : Vec3 :=
  RotateVector this (Vector3D.mk 0 0 1).

(** [ToAxisAndAngle]: the values written to [axis] and [angle]. *)
Definition ToAxisAndAngle (this : Quat) : Vec3 * R :=
  (GetRotationAxis this, GetAngle this).

Definition AngularDistance (this q : Quat) : R :=
  let innerProduct := dot this q in
  acos ((2 * innerProduct * innerProduct) - 1).

Section FindBetween.

Variable InvSqrt : R -> R.

(** [FindBetween_Helper]: [result] is a local, bound to nothing, so the
    assignments and [Normalize] touch no other object. *)
Definition FindBetween_Helper (A B : Vec3) (normAB : R) : Quat :=
  let result_w := normAB + Vector3D.dot A B in
  let result := Identity in
  let result :=
    if decide (result_w >= KINDA_SMALL_NUMBER * normAB) then
      assign_fields result
        (make result_w
           (Vector3D.y A * Vector3D.z B - Vector3D.z A * Vector3D.y B)
           (Vector3D.z A * Vector3D.x B - Vector3D.x A * Vector3D.z B)
           (Vector3D.x A * Vector3D.y B - Vector3D.y A * Vector3D.x B))
    else
      assign_fields result
        (if decide (Rabs (Vector3D.x A) > Rabs (Vector3D.x B))
         then make 0 (- Vector3D.z A) 0 (Vector3D.x A)
         else make 0 0 (- Vector3D.z A) (Vector3D.y A)) in
  copy (Normalize_fields InvSqrt result SMALL_NUMBER).

Definition FindBetweenVectors (v1 v2 : Vec3) : Quat :=
  FindBetween_Helper v1 v2
    (sqrt (Vector3D.MagnitudeSq v1 * Vector3D.MagnitudeSq v2)).

Definition FindBetweenNormals (v1 v2 : Vec3) : Quat :=
  FindBetween_Helper v1 v2 1.

End FindBetween.

End Quat.

(** ** Rotator.cpp: the members that go through [Quat] *)

(** [Rotator(const Quat& q)]: [*this = q.GetRotator()] on an object that is
    bound to nothing yet. *)
Definition Rotator_of_Quat (q : Quat) : Rotator :=
  Rotator.assign_fields (mkRotator 0 0 0 None) (Quat.GetRotator q).

Definition Rotator_GetInverse (this : Rotator) : Rotator :=
  Quat.GetRotator (Quat.Inverse (Rotator.Quaternion this)).

Definition Rotator_Combine (A B : Rotator) : Rotator :=
  Quat.GetRotator (Quat.mul (Rotator.Quaternion A) (Rotator.Quaternion B)).

(** A function that returns [1 / sqrt num] for every positive argument up
    to the relative error [eps]. *)
Definition InvSqrt_accurate (eps : R) (InvSqrt : R -> R) : Prop :=
  forall num : R, 0 < num -> Rabs (InvSqrt num * sqrt num - 1) <= eps.

(** Two quaternions whose components differ by at most [eps]. *)
Definition Quat_near (eps : R) (a b : Quat) : Prop :=
  Rabs (w a - w b) <= eps /\ Rabs (x a - x b) <= eps
  /\ Rabs (y a - y b) <= eps /\ Rabs (z a - z b) <= eps.

(** ** Transform.h, Transform.cpp and the binding of the two structs *)

(** [Matrix4x4.h] is not among the sources: the type [Mtx44] and what
    [Transform] uses of it form an interface. *)
Class Matrix4x4 : Type := {
  Mtx44 : Type;
  (** [Mtx44 rotMtx{ rotator.Matrix() }] *)
  Mtx44_of_Matrix3x3 : Matrix3x3.t -> Mtx44;
  (** [Mtx44Scale(scaleMtx, x, y, z)], [Mtx44Translate(transMtx, x, y, z)] *)
  Mtx44Scale : R -> R -> R -> Mtx44;
  Mtx44Translate : R -> R -> R -> Mtx44;
  (** [operator*] and the default constructor *)
  Mtx44_mul : Mtx44 -> Mtx44 -> Mtx44;
  Mtx44_default : Mtx44
}.

Section Objects.

Context {M44 : Matrix4x4}.

Variable InvSqrt : R -> R.

(** [class Transform]: the members the rotation subsystem reads or writes.
    [Subject::Notify] is not among the sources either; [notified] counts its
    calls. *)
Record Transform : Type := mkTransform {
  rotation : Quat;
  rotator : Rotator;
  position : Vec3;
  scale : Vec3;
  Tag : string;
  mtx : Mtx44;
  notified : nat
}.

(** The matrix [UpdateMtx] stores: [transMtx * (rotMtx * scaleMtx)]. *)
Definition ComposedMtx (T : Transform) : Mtx44 :=
  let rotMtx := Mtx44_of_Matrix3x3 (Rotator.Matrix (rotator T)) in
  let scaleMtx :=
    Mtx44Scale (Vector3D.x (scale T)) (Vector3D.y (scale T))
               (Vector3D.z (scale T)) in
  let transMtx :=
    Mtx44Translate (Vector3D.x (position T)) (Vector3D.y (position T))
                   (Vector3D.z (position T)) in
  Mtx44_mul transMtx (Mtx44_mul rotMtx scaleMtx).

(** The objects of a program state. *)
Record World : Type := mkWorld {
  transforms : gmap addr Transform;
  quats : gmap nat Quat;
  rotators : gmap nat Rotator
}.

(** Where a [Quat] (a [Rotator]) lives: a variable, or the member
    [rotation] ([rotator]) of the [Transform] at an address. *)
Inductive QuatLoc : Type :=
| QuatVar (n : nat)
| RotationOf (a : addr).

Inductive RotatorLoc : Type :=
| RotatorVar (n : nat)
| RotatorOf (a : addr).

Definition set_transform (a : addr) (T : Transform) (W : World) : World :=
  mkWorld (<[a := T]> (transforms W)) (quats W) (rotators W).

Definition read_quat (W : World) (l : QuatLoc) : option Quat :=
  match l with
  | QuatVar n => quats W !! n
  | RotationOf a => rotation <$> transforms W !! a
  end.

Definition read_rotator (W : World) (l : RotatorLoc) : option Rotator :=
  match l with
  | RotatorVar n => rotators W !! n
  | RotatorOf a => rotator <$> transforms W !! a
  end.

(** Writing through a location that holds no object is undefined in C++;
    the model stops with [None]. *)
Definition write_quat (l : QuatLoc) (q : Quat) (W : World) : option World :=
  match l with
  | QuatVar n =>
      _ ← quats W !! n;
      Some (mkWorld (transforms W) (<[n := q]> (quats W)) (rotators W))
  | RotationOf a =>
      T ← transforms W !! a;
      Some (set_transform a
              (mkTransform q (rotator T) (position T) (scale T) (Tag T)
                           (mtx T) (notified T)) W)
  end.

Definition write_rotator (l : RotatorLoc) (r : Rotator) (W : World)
  : option World :=
  match l with
  | RotatorVar n =>
      _ ← rotators W !! n;
      Some (mkWorld (transforms W) (quats W) (<[n := r]> (rotators W)))
  | RotatorOf a =>
      T ← transforms W !! a;
      Some (set_transform a
              (mkTransform (rotation T) r (position T) (scale T) (Tag T)
                           (mtx T) (notified T)) W)
  end.

(** [Transform::UpdateMtx], on the object at address [a]. *)
Definition UpdateMtx_fields (T : Transform) : Transform :=
  mkTransform (rotation T) (rotator T) (position T) (scale T) (Tag T)
              (ComposedMtx T) (S (notified T)).

Definition UpdateMtx (a : addr) (W : World) : option World :=
  T ← transforms W !! a;
  Some (set_transform a (UpdateMtx_fields T) W).

(** [Quat::UpdateBoundTransform]: the three field writes into
    [mp_BoundTransform->rotator], then [UpdateMtx]. *)
Definition Quat_UpdateBoundTransform (l : QuatLoc) (W : World)
  : option World :=
  this ← read_quat W l;
  match Quat_mp_BoundTransform this with
  | None => Some W
  | Some a =>
      let tmp := Quat.GetRotator this in
      T ← transforms W !! a;
      let r' :=
        mkRotator (pitch tmp) (yaw tmp) (roll tmp)
                  (Rotator_mp_BoundTransform (rotator T)) in
      UpdateMtx a
        (set_transform a
           (mkTransform (rotation T) r' (position T) (scale T) (Tag T)
                        (mtx T) (notified T)) W)
  end.

(** [Rotator::UpdateBoundTransform]: the four field writes into
    [mp_BoundTransform->rotation], then [UpdateMtx]. *)
Definition Rotator_UpdateBoundTransform (l : RotatorLoc) (W : World)
  : option World :=
  this ← read_rotator W l;
  match Rotator_mp_BoundTransform this with
  | None => Some W
  | Some a =>
      let tmp := Rotator.Quaternion this in
      T ← transforms W !! a;
      let q' :=
        mkQuat (w tmp) (x tmp) (y tmp) (z tmp)
               (Quat_mp_BoundTransform (rotation T)) in
      UpdateMtx a
        (set_transform a
           (mkTransform q' (rotator T) (position T) (scale T) (Tag T)
                        (mtx T) (notified T)) W)
  end.

(** *** Mutating members of [Quat], called on a location *)

(** [operator=] *)
Definition Quat_assign (l : QuatLoc) (q : Quat) (W : World) : option World :=
  this ← read_quat W l;
  W1 ← write_quat l (Quat.assign_fields this q) W;
  Quat_UpdateBoundTransform l W1.

(** [operator+=], [operator-=] *)
Definition Quat_add_assign (l : QuatLoc) (q : Quat) (W : World)
  : option World :=
  this ← read_quat W l;
  W1 ← write_quat l (Quat.add_assign_fields this q) W;
  Quat_UpdateBoundTransform l W1.

Definition Quat_sub_assign (l : QuatLoc) (q : Quat) (W : World)
  : option World :=
  this ← read_quat W l;
  W1 ← write_quat l (Quat.sub_assign_fields this q) W;
  Quat_UpdateBoundTransform l W1.

(** [operator*=(const Quat&)]: [*this = *this * q; UpdateBoundTransform();] *)
Definition Quat_mul_assign (l : QuatLoc) (q : Quat) (W : World)
  : option World :=
  this ← read_quat W l;
  W1 ← Quat_assign l (Quat.mul this q) W;
  Quat_UpdateBoundTransform l W1.

(** [operator*=(float)], [operator/=(float)] *)
Definition Quat_scale_assign (l : QuatLoc) (s : R) (W : World)
  : option World :=
  this ← read_quat W l;
  W1 ← write_quat l (Quat.scale_assign_fields this s) W;
  Quat_UpdateBoundTransform l W1.

Definition Quat_div_assign (l : QuatLoc) (s : R) (W : World)
  : option World :=
  this ← read_quat W l;
  W1 ← write_quat l (Quat.div_assign_fields this s) W;
  Quat_UpdateBoundTransform l W1.

(** [Quat::Normalize] *)
Definition Quat_Normalize (l : QuatLoc) (tolerance : R) (W : World)
  : option World :=
  this ← read_quat W l;
  let squareSum :=
    w this * w this + x this * x this + y this * y this + z this * z this in
  if decide (squareSum >= tolerance) then
    let scale := InvSqrt squareSum in
    write_quat l
      (mkQuat (w this * scale) (x this * scale) (y this * scale)
              (z this * scale) (Quat_mp_BoundTransform this)) W
  else Quat_assign l Quat.Identity W.

(** [Quat::EnforceShortestArcWith] *)
Definition Quat_EnforceShortestArcWith (l : QuatLoc) (q : Quat) (W : World)
  : option World :=
  this ← read_quat W l;
  write_quat l (Quat.EnforceShortestArcWith this q) W.

(** *** Mutating members of [Rotator], called on a location *)

(** [operator=] *)
Definition Rotator_assign (l : RotatorLoc) (r : Rotator) (W : World)
  : option World :=
  this ← read_rotator W l;
  W1 ← write_rotator l (Rotator.assign_fields this r) W;
  Rotator_UpdateBoundTransform l W1.

(** [operator+=], [operator-=], [operator*=(float)], [Add] *)
Definition Rotator_add_assign (l : RotatorLoc) (r : Rotator) (W : World)
  : option World :=
  this ← read_rotator W l;
  W1 ← write_rotator l (Rotator.add_assign_fields this r) W;
  Rotator_UpdateBoundTransform l W1.

Definition Rotator_sub_assign (l : RotatorLoc) (r : Rotator) (W : World)
  : option World :=
  this ← read_rotator W l;
  W1 ← write_rotator l (Rotator.sub_assign_fields this r) W;
  Rotator_UpdateBoundTransform l W1.

Definition Rotator_scale_assign (l : RotatorLoc) (s : R) (W : World)
  : option World :=
  this ← read_rotator W l;
  W1 ← write_rotator l (Rotator.scale_assign_fields this s) W;
  Rotator_UpdateBoundTransform l W1.

Definition Rotator_Add (l : RotatorLoc) (deltaPitch deltaYaw deltaRoll : R)
  (W : World) : option World :=
  this ← read_rotator W l;
  W1 ← write_rotator l
         (Rotator.Add_fields this deltaPitch deltaYaw deltaRoll) W;
  Rotator_UpdateBoundTransform l W1.

(** [Rotator::Clamp], [Rotator::Normalize] *)
Definition Rotator_Clamp (l : RotatorLoc) (W : World) : option World :=
  this ← read_rotator W l;
  write_rotator l (Rotator.Clamp_fields this) W.

Definition Rotator_Normalize (l : RotatorLoc) (W : World) : option World :=
  this ← read_rotator W l;
  write_rotator l (Rotator.Normalize_fields this) W.

(** *** Construction *)

(** Declaring a variable: [Quat v{ q };] (the copy constructor) and
    [Rotator v = r;] (the implicit copy constructor). *)
Definition Quat_copy_construct (n : nat) (q : Quat) (W : World) : World :=
  mkWorld (transforms W) (<[n := Quat.copy q]> (quats W)) (rotators W).

Definition Rotator_copy_construct (n : nat) (r : Rotator) (W : World)
  : World :=
  mkWorld (transforms W) (quats W) (<[n := Rotator.copy r]> (rotators W)).

(** [Transform::Transform()] for the object at address [a]. *)
Definition Transform_construct (a : addr) (W : World) : option World :=
  let T :=
    mkTransform (mkQuat 1 0 0 0 (Some a)) (mkRotator 0 0 0 (Some a))
                (Vector3D.mk 0 0 0) (Vector3D.mk 1 1 1) EmptyString
                Mtx44_default 0 in
  UpdateMtx a (set_transform a T W).

(** *** Transform.cpp: constructors, setters, assignment *)

(** [Transform(const Transform& rhs)] for the new object at address [a],
    [rhs] being the object at [b].  The members are initialized in the order
    of their declaration: [rotation{ rhs.rotation }] (the copy constructor of
    [Quat]), [rotator{ rhs.rotation }] (the constructor of [Rotator] from a
    [Quat]), [position] and [scale]; [Tag] and [mtx] are not in the list.
    The body binds the two members to the new object and calls
    [UpdateMtx]. *)
Definition Transform_copy_construct (a b : addr) (W : World)
  : option World :=
  rhs ← transforms W !! b;
  let rotation0 := Quat.copy (rotation rhs) in
  let rotator0 := Rotator_of_Quat (rotation rhs) in
  let T :=
    mkTransform
      (mkQuat (w rotation0) (x rotation0) (y rotation0) (z rotation0)
              (Some a))
      (mkRotator (pitch rotator0) (yaw rotator0) (roll rotator0) (Some a))
      (position rhs) (scale rhs) EmptyString Mtx44_default 0 in
  UpdateMtx a (set_transform a T W).

(** [SetPosition(const Vec3&)]. *)
Definition Transform_SetPosition (a : addr) (pos : Vec3) (W : World)
  : option World :=
  T ← transforms W !! a;
  UpdateMtx a
    (set_transform a
       (mkTransform (rotation T) (rotator T) pos (scale T) (Tag T) (mtx T)
                    (notified T)) W).

(** [SetScale(const Vec3&)]. *)
Definition Transform_SetScale (a : addr) (s : Vec3) (W : World)
  : option World :=
  T ← transforms W !! a;
  UpdateMtx a
    (set_transform a
       (mkTransform (rotation T) (rotator T) (position T) s (Tag T) (mtx T)
                    (notified T)) W).

(** The body of the constructors and of [operator=]:
    [rotator.mp_BoundTransform = this; rotation.mp_BoundTransform = this;]. *)
Definition Transform_bind (a : addr) (W : World) : option World :=
  T ← transforms W !! a;
  Some (set_transform a
          (mkTransform
             (mkQuat (w (rotation T)) (x (rotation T)) (y (rotation T))
                     (z (rotation T)) (Some a))
             (mkRotator (pitch (rotator T)) (yaw (rotator T))
                        (roll (rotator T)) (Some a))
             (position T) (scale T) (Tag T) (mtx T) (notified T)) W).

(** [Transform::operator=], the object at [a] being assigned the one at
    [b]; every statement reads [rhs] when it runs.  [Component::operator=]
    copies the members of the base class, which this record does not
    hold. *)
Definition Transform_assign (a b : addr) (W : World) : option World :=
  rhs ← transforms W !! b;
  W ← Transform_SetPosition a (position rhs) W;
  rhs ← transforms W !! b;
  W ← Transform_SetScale a (scale rhs) W;
  rhs ← transforms W !! b;
  W ← Quat_assign (RotationOf a) (rotation rhs) W;
  rhs ← transforms W !! b;
  W ← Rotator_assign (RotatorOf a) (rotator rhs) W;
  W ← Transform_bind a W;
  UpdateMtx a W.

(** *** Text streams

    [std::ifstream] and [std::istringstream], as far as [Deserialize] uses
    them: the characters, the read position and the two state flags that the
    input functions test and set (C++11 rules). *)

Record istream : Type := mkIstream {
  content : string;
  pos : nat;
  eofbit : bool;
  failbit : bool
}.

Definition good (s : istream) : bool := negb (eofbit s) && negb (failbit s).

Definition set_failbit (s : istream) : istream :=
  mkIstream (content s) (pos s) (eofbit s) true.

(** An [istringstream] on a string; also [is.clear(); is.str(input)]. *)
Definition istringstream (input : string) : istream :=
  mkIstream input 0%nat false false.

Fixpoint string_drop (n : nat) (s : string) : string :=
  match n, s with
  | O, _ => s
  | S n', EmptyString => EmptyString
  | S n', String _ s' => string_drop n' s'
  end.

(** The characters before the first [delim], and whether there is one. *)
Fixpoint string_until (delim : ascii) (s : string) : string * bool :=
  match s with
  | EmptyString => (EmptyString, false)
  | String c s' =>
      if decide (c = delim) then (EmptyString, true)
      else let '(l, found) := string_until delim s' in (String c l, found)
  end.

Definition isspace (c : ascii) : bool :=
  bool_decide (c = " "%char) || bool_decide (c = "009"%char)
  || bool_decide (c = "010"%char) || bool_decide (c = "011"%char)
  || bool_decide (c = "012"%char) || bool_decide (c = "013"%char).

Fixpoint skip_space (s : string) : nat :=
  match s with
  | EmptyString => 0%nat
  | String c s' => if isspace c then S (skip_space s') else 0%nat
  end.

Fixpoint take_word (s : string) : string :=
  match s with
  | EmptyString => EmptyString
  | String c s' => if isspace c then EmptyString else String c (take_word s')
  end.

Definition is_empty (s : string) : bool :=
  match s with EmptyString => true | String _ _ => false end.

(** [std::getline(stream, str, delim)]: returns the stream and the new value
    of [str].  A stream that is not good only gets [failbit]; [str] keeps
    its value. *)
Definition getline (s : istream) (str : string) (delim : ascii)
  : istream * string :=
  if good s then
    let rest := string_drop (pos s) (content s) in
    let '(line, found) := string_until delim rest in
    if found
    then (mkIstream (content s) (pos s + String.length line + 1)%nat
                    false false, line)
    else (mkIstream (content s) (pos s + String.length line)%nat
                    true (is_empty line), line)
  else (set_failbit s, str).

(** [stream.tellg()]: [None] stands for [pos_type(-1)]. *)
Definition tellg (s : istream) : istream * option nat :=
  if good s then (s, Some (pos s)) else (set_failbit s, None).

(** [stream.seekg(t)]: clears [eofbit] first; does nothing on a failed
    stream. *)
Definition seekg (s : istream) (t : option nat) : istream :=
  if failbit s then mkIstream (content s) (pos s) false true
  else match t with
       | Some p => mkIstream (content s) p false false
       | None => mkIstream (content s) (pos s) false true
       end.

(** [stream >> str] for a [std::string]: skips white space, then takes the
    characters up to the next white space. *)
Definition extract_word (s : istream) (str : string) : istream * string :=
  if good s then
    let rest := string_drop (pos s) (content s) in
    let ws := skip_space rest in
    let rest' := string_drop ws rest in
    if is_empty rest'
    then (mkIstream (content s) (pos s + ws)%nat true true, str)
    else
      let word := take_word rest' in
      let after := string_drop (String.length word) rest' in
      (mkIstream (content s) (pos s + ws + String.length word)%nat
                 (is_empty after) false, word)
  else (set_failbit s, str).

(** *** Transform.cpp: the tag system

    The tag system works on the string [Tag]: [std::string::find] is
    [String.index 0] ([None] for [npos]), and [Tag.replace(pos, n, "")]
    erases up to [n] characters from [pos]. *)
Definition string_find (target s : string) : option nat :=
  String.index 0 target s.

Definition string_erase (pos n : nat) (s : string) : string :=
  String.substring 0 pos s +:+ string_drop (pos + n) s.

(** [Tag.back()] and [Tag.pop_back()]. *)
Fixpoint string_back (s : string) : option ascii :=
  match s with
  | EmptyString => None
  | String c EmptyString => Some c
  | String _ s' => string_back s'
  end.

Fixpoint string_pop_back (s : string) : string :=
  match s with
  | EmptyString => EmptyString
  | String c EmptyString => EmptyString
  | String c s' => String c (string_pop_back s')
  end.

Definition HasTag (Tag target : string) : bool :=
  bool_decide (string_find target Tag <> None).

(** [AddTag] and [RemoveTag]: the new value of [Tag]. *)
Definition AddTag (Tag newTag : string) : string :=
  let Tag := if decide (Tag = EmptyString) then newTag else Tag in
  if negb (HasTag Tag newTag) then (Tag +:+ " ") +:+ newTag else Tag.

Definition RemoveTag (Tag target : string) : string :=
  let len := String.length target in
  match string_find target Tag with
  | None => Tag
  | Some pos =>
      let Tag := string_erase pos (len + 1) Tag in
      if negb (is_empty Tag) && bool_decide (string_back Tag = Some " "%char)
      then string_pop_back Tag
      else Tag
  end.

(** The conversions between text and [float] come from the C++ library:
    [std::stof] ([None]: it throws), the number parser behind
    [stream >> float] (the value and how many characters it took; [None]: no
    number there) and the printer behind [stream << float]. *)
Class FloatText : Type := {
  stof : string -> option R;
  num_get : string -> option (R * nat);
  show_float : R -> string
}.

Context {FT : FloatText}.

(** [stream >> v] for a [float]. *)
Definition extract_float (s : istream) (v : R) : istream * R :=
  if good s then
    let rest := string_drop (pos s) (content s) in
    let ws := skip_space rest in
    let rest' := string_drop ws rest in
    if is_empty rest'
    then (mkIstream (content s) (pos s + ws)%nat true true, v)
    else
      match num_get rest' with
      | Some (r, k) =>
          (mkIstream (content s) (pos s + ws + k)%nat
                     (is_empty (string_drop k rest')) false, r)
      | None => (mkIstream (content s) (pos s + ws)%nat false true, 0)
      end
  else (set_failbit s, v).

(** A number that survives being written and read: [show_float v] is a
    word (not empty, no white space, no comma) that [std::stof] and
    [stream >> float] turn back into [v], the latter stopping at the end of
    the word.  The library prints six significant digits, so this holds for
    the numbers that need no more. *)
Definition FloatText_exact (v : R) : Prop :=
  let s := show_float v in
  s <> EmptyString
  /\ take_word s = s
  /\ string_until ","%char s = (s, false)
  /\ stof s = Some v
  /\ num_get s = Some (v, String.length s)
  /\ forall rest : string,
       num_get (s +:+ String " "%char rest) = Some (v, String.length s).

(** [input.substr(input.find(":") + 1)]: when there is no colon, [find]
    returns [npos] and [npos + 1] is 0. *)
Definition after_colon (input : string) : string :=
  let '(before, found) := string_until ":"%char input in
  if found then string_drop (String.length before + 1) input else input.

(** [Component::Serialize] and [Component::Deserialize] are not among the
    sources: what they append to the output and what they do to the input
    stream form an interface. *)
Class ComponentBase : Type := {
  Component_Serialize : string -> string;
  Component_Deserialize : istream -> string -> istream
}.

Context {CB : ComponentBase}.

Definition newline : string := String "010"%char EmptyString.

(** [Transform::Serialize]: the text appended to [file]. *)
Definition Serialize (T : Transform) (file : string) : string :=
  let file := file +:+ "[TRANSFORM]" in
  let file := file +:+ newline in
  let file := file +:+ "TAG:" +:+ Tag T in
  let file := file +:+ newline in
  let file :=
    file +:+ "POSITION:" +:+ show_float (Vector3D.x (position T)) +:+ ","
         +:+ show_float (Vector3D.y (position T)) +:+ ","
         +:+ show_float (Vector3D.z (position T)) in
  let file := file +:+ newline in
  let file :=
    file +:+ "SCALE:" +:+ show_float (Vector3D.x (scale T)) +:+ ","
         +:+ show_float (Vector3D.y (scale T)) +:+ ","
         +:+ show_float (Vector3D.z (scale T)) in
  let file := file +:+ newline in
  let file :=
    file +:+ "ROTATION: " +:+ show_float (pitch (rotator T)) +:+ " "
         +:+ show_float (yaw (rotator T)) +:+ " "
         +:+ show_float (roll (rotator T)) in
  let file := file +:+ newline in
  Component_Serialize file.

(** [Transform::Deserialize], first part (the lines of the tag, the position
    and the scale): the new state, the stream and the value of [input].
    [None]: [std::stof] threw. *)
Definition Deserialize_fields (a : addr) (file : istream) (input : string)
  (W : World) : option (World * istream * string) :=
  T ← transforms W !! a;
  let '(file, input) := getline file input "010"%char in
  let _str := after_colon input in
  let '(file, input) := getline file input "010"%char in
  let input := after_colon input in
  let iss := istringstream input in
  let '(iss, input) := getline iss input ","%char in
  px ← stof input;
  let '(iss, input) := getline iss input ","%char in
  py ← stof input;
  let '(iss, input) := getline iss input ","%char in
  pz ← stof input;
  let '(file, input) := getline file input "010"%char in
  let input := after_colon input in
  let iss := istringstream input in
  let '(iss, input) := getline iss input ","%char in
  sx ← stof input;
  let '(iss, input) := getline iss input ","%char in
  sy ← stof input;
  let '(iss, input) := getline iss input ","%char in
  sz ← stof input;
  Some (set_transform a
          (mkTransform (rotation T) (rotator T) (Vector3D.mk px py pz)
                       (Vector3D.mk sx sy sz) _str (mtx T) (notified T)) W,
        file, input).

(** [Transform::Deserialize], second part: the rotation, "with safety check
    for old savefiles". *)
Definition Deserialize_rotation (a : addr) (file : istream) (input : string)
  (W : World) : option (World * istream) :=
  let '(file, t) := tellg file in
  let '(file, input) := getline file input "010"%char in
  let iss := istringstream input in
  let '(iss, tmp) := extract_word iss EmptyString in
  if decide (tmp <> "ROTATION:"%string) then
    Some (W, seekg file t)
  else
    T ← transforms W !! a;
    let '(iss, r_pitch) := extract_float iss (pitch (rotator T)) in
    let '(iss, r_yaw) := extract_float iss (yaw (rotator T)) in
    let '(iss, r_roll) := extract_float iss (roll (rotator T)) in
    let r' :=
      mkRotator r_pitch r_yaw r_roll
                (Rotator_mp_BoundTransform (rotator T)) in
    W1 ← Rotator_UpdateBoundTransform (RotatorOf a)
           (set_transform a
              (mkTransform (rotation T) r' (position T) (scale T) (Tag T)
                           (mtx T) (notified T)) W);
    W2 ← UpdateMtx a W1;
    Some (W2, Component_Deserialize file input).

(** The first word of the line that [Deserialize] reads for the rotation:
    the [tmp] it compares with the label.  When the stream is not good no
    line is read, and the word is taken from what [input] still holds. *)
Definition rotation_line (file : istream) (input : string)
  : istream * string :=
  getline (fst (tellg file)) input "010"%char.

Definition rotation_label (file : istream) (input : string) : string :=
  snd (extract_word (istringstream (snd (rotation_line file input)))
                    EmptyString).

(** The three numbers [Deserialize] extracts after the label, when the
    rotator held [r] before. *)
Definition rotation_values (file : istream) (input : string) (r : Rotator)
  : R * R * R :=
  let iss :=
    fst (extract_word (istringstream (snd (rotation_line file input)))
                      EmptyString) in
  let '(iss, r_pitch) := extract_float iss (pitch r) in
  let '(iss, r_yaw) := extract_float iss (yaw r) in
  let '(iss, r_roll) := extract_float iss (roll r) in
  (r_pitch, r_yaw, r_roll).

Definition Deserialize (a : addr) (file : istream) (input : string)
  (W : World) : option (World * istream) :=
  '(W1, file1, input1) ← Deserialize_fields a file input W;
  Deserialize_rotation a file1 input1 W1.

End Objects.

(** ** The synchronization protocol, as statements about a [World] *)

Section Protocol.

Context {M44 : Matrix4x4}.

Variable InvSqrt : R -> R.

(** The mutating members of [Quat] that end in [UpdateBoundTransform]. *)
Inductive QuatMutation : Type :=
| QAssign (q : Quat)
| QAddAssign (q : Quat)
| QSubAssign (q : Quat)
| QMulAssign (q : Quat)
| QScaleAssign (s : R)
| QDivAssign (s : R).

Definition run_QuatMutation (op : QuatMutation) (l : QuatLoc) (W : World)
  : option World :=
  match op with
  | QAssign q => Quat_assign l q W
  | QAddAssign q => Quat_add_assign l q W
  | QSubAssign q => Quat_sub_assign l q W
  | QMulAssign q => Quat_mul_assign l q W
  | QScaleAssign s => Quat_scale_assign l s W
  | QDivAssign s => Quat_div_assign l s W
  end.

(** The four scalars each of them leaves in [*this]. *)
Definition QuatMutation_result (op : QuatMutation) (this : Quat)
  : R * R * R * R :=
  match op with
  | QAssign q => Quat_scalars q
  | QAddAssign q => Quat_scalars (Quat.add this q)
  | QSubAssign q => Quat_scalars (Quat.sub this q)
  | QMulAssign q => Quat_scalars (Quat.mul this q)
  | QScaleAssign s => Quat_scalars (Quat.scale this s)
  | QDivAssign s => Quat_scalars (Quat.div this s)
  end.

(** The mutating members of [Rotator] that end in [UpdateBoundTransform]. *)
Inductive RotatorMutation : Type :=
| RAssign (r : Rotator)
| RAddAssign (r : Rotator)
| RSubAssign (r : Rotator)
| RScaleAssign (s : R)
| RAdd (deltaPitch deltaYaw deltaRoll : R).

Definition run_RotatorMutation (op : RotatorMutation) (l : RotatorLoc)
  (W : World) : option World :=
  match op with
  | RAssign r => Rotator_assign l r W
  | RAddAssign r => Rotator_add_assign l r W
  | RSubAssign r => Rotator_sub_assign l r W
  | RScaleAssign s => Rotator_scale_assign l s W
  | RAdd dp dy dr => Rotator_Add l dp dy dr W
  end.

Definition RotatorMutation_result (op : RotatorMutation) (this : Rotator)
  : R * R * R :=
  match op with
  | RAssign r => Rotator_scalars r
  | RAddAssign r => Rotator_scalars (Rotator.add this r)
  | RSubAssign r => Rotator_scalars (Rotator.sub this r)
  | RScaleAssign s => Rotator_scalars (Rotator.scale this s)
  | RAdd dp dy dr =>
      Rotator_scalars (Rotator.add this (Rotator.make dp dy dr))
  end.

(** What the constructors of [Transform] establish: both members point back
    at the object they are part of. *)
Definition Transform_bound (a : addr) (T : Transform) : Prop :=
  Quat_mp_BoundTransform (rotation T) = Some a
  /\ Rotator_mp_BoundTransform (rotator T) = Some a.

(** The owner after [Quat::UpdateBoundTransform] was called on its member
    [rotation], and after [Rotator::UpdateBoundTransform] was called on its
    member [rotator]. *)
Definition after_Quat_update (T : Transform) : Transform :=
  let tmp := Quat.GetRotator (rotation T) in
  UpdateMtx_fields
    (mkTransform (rotation T)
       (mkRotator (pitch tmp) (yaw tmp) (roll tmp)
                  (Rotator_mp_BoundTransform (rotator T)))
       (position T) (scale T) (Tag T) (mtx T) (notified T)).

Definition after_Rotator_update (T : Transform) : Transform :=
  let tmp := Rotator.Quaternion (rotator T) in
  UpdateMtx_fields
    (mkTransform
       (mkQuat (w tmp) (x tmp) (y tmp) (z tmp)
               (Quat_mp_BoundTransform (rotation T)))
       (rotator T) (position T) (scale T) (Tag T) (mtx T) (notified T)).

Definition with_rotation (T : Transform) (q : Quat) : Transform :=
  mkTransform q (rotator T) (position T) (scale T) (Tag T) (mtx T)
              (notified T).

Definition with_rotator (T : Transform) (r : Rotator) : Transform :=
  mkTransform (rotation T) r (position T) (scale T) (Tag T) (mtx T)
              (notified T).

(** The owner after an update that started from its quaternion: the rotator
    is the conversion of the quaternion, and the matrix is composed from
    the rotator's matrix. *)
Definition synced_from_quat (T : Transform) : Prop :=
  Rotator_scalars (rotator T)
  = Rotator_scalars (Quat.GetRotator (rotation T))
  /\ mtx T = ComposedMtx T.

(** The owner after an update that started from its rotator. *)
Definition synced_from_rotator (T : Transform) : Prop :=
  Quat_scalars (rotation T)
  = Quat_scalars (Rotator.Quaternion (rotator T))
  /\ mtx T = ComposedMtx T.

(** A program state with no object, and the [Transform] that its
    constructor leaves at address [a]. *)
Definition World_empty : World := mkWorld ∅ ∅ ∅.

Definition Transform_fresh (a : addr) : Transform :=
  UpdateMtx_fields
    (mkTransform (mkQuat 1 0 0 0 (Some a)) (mkRotator 0 0 0 (Some a))
                 (Vector3D.mk 0 0 0) (Vector3D.mk 1 1 1) EmptyString
                 Mtx44_default 0).

End Protocol.

(** ** Instances of the interfaces, to run the model on concrete states *)

(** Modelled from the spec: [Matrix4x4.h] is missing; the spec describes the
    composed matrix as [Translate(position) * RotationMatrix(rotator) *
    Scale(scale)] on 4x4 matrices.  A 4x4 matrix is a function of row and
    column. *)
Definition Mtx44_fun : Type := nat -> nat -> R.

Definition Mtx44_fun_identity : Mtx44_fun :=
  fun i j => if decide (i = j) then 1 else 0.

Definition Mtx44_fun_of_Matrix3x3 (m : Matrix3x3.t) : Mtx44_fun :=
  fun i j =>
    match i, j with
    | 0%nat, 0%nat => Matrix3x3.m00 m
    | 0%nat, 1%nat => Matrix3x3.m01 m
    | 0%nat, 2%nat => Matrix3x3.m02 m
    | 1%nat, 0%nat => Matrix3x3.m10 m
    | 1%nat, 1%nat => Matrix3x3.m11 m
    | 1%nat, 2%nat => Matrix3x3.m12 m
    | 2%nat, 0%nat => Matrix3x3.m20 m
    | 2%nat, 1%nat => Matrix3x3.m21 m
    | 2%nat, 2%nat => Matrix3x3.m22 m
    | 3%nat, 3%nat => 1
    | _, _ => 0
    end.

Definition Mtx44_fun_Scale (sx sy sz : R) : Mtx44_fun :=
  fun i j =>
    match i, j with
    | 0%nat, 0%nat => sx
    | 1%nat, 1%nat => sy
    | 2%nat, 2%nat => sz
    | 3%nat, 3%nat => 1
    | _, _ => 0
    end.

Definition Mtx44_fun_Translate (tx ty tz : R) : Mtx44_fun :=
  fun i j =>
    match i, j with
    | 0%nat, 3%nat => tx
    | 1%nat, 3%nat => ty
    | 2%nat, 3%nat => tz
    | _, _ => if decide (i = j) then 1 else 0
    end.

Definition Mtx44_fun_mul (a b : Mtx44_fun) : Mtx44_fun :=
  fun i j =>
    a i 0%nat * b 0%nat j + a i 1%nat * b 1%nat j
    + a i 2%nat * b 2%nat j + a i 3%nat * b 3%nat j.

Definition Matrix4x4_fun : Matrix4x4 :=
  {| Mtx44 := Mtx44_fun;
     Mtx44_of_Matrix3x3 := Mtx44_fun_of_Matrix3x3;
     Mtx44Scale := Mtx44_fun_Scale;
     Mtx44Translate := Mtx44_fun_Translate;
     Mtx44_mul := Mtx44_fun_mul;
     Mtx44_default := Mtx44_fun_identity |}.

(** A [FloatText] that reads unsigned decimal integers; it is there to run
    [Deserialize] on example files, and its printer is never called. *)
Definition digit_value (c : ascii) : option nat :=
  let n := nat_of_ascii c in
  if decide (48 <= n <= 57)%nat then Some (n - 48)%nat else None.

Fixpoint take_digits (s : string) (acc : nat) : nat * nat :=
  match s with
  | EmptyString => (acc, 0%nat)
  | String c s' =>
      match digit_value c with
      | Some d =>
          let '(v, k) := take_digits s' (10 * acc + d)%nat in (v, S k)
      | None => (acc, 0%nat)
      end
  end.

Definition FloatText_digits : FloatText :=
  {| stof := fun s =>
       let '(v, k) := take_digits s 0%nat in
       if decide (k = 0%nat) then None else Some (INR v);
     num_get := fun s =>
       let '(v, k) := take_digits s 0%nat in
       if decide (k = 0%nat) then None else Some (INR v, k);
     show_float := fun _ => "0"%string |}.

(** A [Component] base class with no fields of its own. *)
Definition ComponentBase_empty : ComponentBase :=
  {| Component_Serialize := fun file => file;
     Component_Deserialize := fun file _ => file |}.

(** A save file written before rotations were saved, as [Deserialize] finds
    it after the line [[TRANSFORM]]: tag, position, scale, and then the next
    component's header. *)
Definition legacy_file : string :=
  "TAG:player" +:+ newline +:+ "POSITION:1,2,3" +:+ newline
  +:+ "SCALE:4,5,6" +:+ newline +:+ "[SPRITE]" +:+ newline.

(** The same save file with the rotation line that [Serialize] writes
    now. *)
Definition rotation_file : string :=
  "TAG:player" +:+ newline +:+ "POSITION:1,2,3" +:+ newline
  +:+ "SCALE:4,5,6" +:+ newline +:+ "ROTATION: 7 8 9" +:+ newline
  +:+ "[SPRITE]" +:+ newline.

(** A [FloatText] that also prints: the numbers 1 to 9 as their digit and
    every other number as 0, so that the numbers 0 to 9 are written and
    read back exactly. *)
Definition show_small (v : R) : string :=
  if decide (v = 1) then "1"
  else if decide (v = 2) then "2"
  else if decide (v = 3) then "3"
  else if decide (v = 4) then "4"
  else if decide (v = 5) then "5"
  else if decide (v = 6) then "6"
  else if decide (v = 7) then "7"
  else if decide (v = 8) then "8"
  else if decide (v = 9) then "9"
  else "0".

Definition FloatText_small : FloatText :=
  {| stof := @stof FloatText_digits;
     num_get := @num_get FloatText_digits;
     show_float := show_small |}.

(** A [Transform] value to write and to assign from.  [Serialize] and
    [operator=] read its tag, position, scale and rotator; nothing is
    assumed of its quaternion, its matrix or its binding. *)
Definition Transform_sample : Transform :=
  mkTransform (Quat.make 1 0 0 0) (Rotator.make 7 8 9)
              (Vector3D.mk 1 2 3) (Vector3D.mk 4 5 6) "player"
              (@Mtx44_default Matrix4x4_fun) 0.

(** A [Transform] value to copy from, whose quaternion, a half turn about
    the first axis, is not the one of its rotator: the copy constructor
    reads the quaternion only. *)
Definition Transform_half_turn : Transform :=
  mkTransform (Quat.make 0 1 0 0) (Rotator.make 7 8 9)
              (Vector3D.mk 1 2 3) (Vector3D.mk 4 5 6) "player"
              (@Mtx44_default Matrix4x4_fun) 0.

(** A bound [Transform] whose rotator holds angles outside the reduced
    ranges, with the quaternion and the matrix that
    [Rotator::UpdateBoundTransform] and [UpdateMtx] compute from them. *)
Definition Transform_turned (a : addr) {M44 : Matrix4x4} : Transform :=
  UpdateMtx_fields
    (after_Rotator_update
       (with_rotator (Transform_fresh a)
          (mkRotator 540 (-190) 720 (Some a)))).

(** ** Proof automation *)

(** Equality of quadruples of reals, component by component. *)
Ltac scalars_ring :=
  unfold Quat_scalars; simpl;
  f_equal; [f_equal; [f_equal|]|]; ring.

(** The mantissa of the constant of [Math::InvSqrt]:
    1 + 0x3759df / 2^23. *)
#[local] Abbreviation magic_a := (12016095 / 8388608) (only parsing).

(** * Properties *)

(** ** Axis reduction: [fmodf], [ClampAxis], [NormalizeAxis] *)

Section AxisReduction.

Lemma Int_part_nonneg (r : R) : 0 <= r -> 0 <= IZR (Int_part r).
Proof.
  intros Hr. pose proof (base_Int_part r) as [_ H].
  apply IZR_le. apply Z.lt_succ_r. apply lt_IZR.
  rewrite succ_IZR. lra.
Qed.

Lemma Rtrunc_bounds (r : R) :
  (0 <= r -> 0 <= IZR (Rtrunc r) <= r /\ r < IZR (Rtrunc r) + 1)
  /\ (r < 0 -> IZR (Rtrunc r) - 1 < r /\ r <= IZR (Rtrunc r) <= 0).
Proof.
  unfold Rtrunc. split; intros Hr.
  - destruct (decide (0 <= r)) as [_|Hn]; [|lra].
    pose proof (base_Int_part r). pose proof (Int_part_nonneg r Hr). lra.
  - destruct (decide (0 <= r)) as [Hp|_]; [lra|].
    pose proof (base_Int_part (- r)).
    pose proof (Int_part_nonneg (- r)). rewrite opp_IZR. lra.
Qed.

(** [fmodf angle 360] lies strictly between -360 and 360 and has the sign
    of [angle]. *)
Lemma fmodf_360_bounds (angle : R) :
  -360 < fmodf angle 360 < 360
  /\ (0 <= angle -> 0 <= fmodf angle 360)
  /\ (angle <= 0 -> fmodf angle 360 <= 0).
Proof.
  unfold fmodf.
  destruct (Rtrunc_bounds (angle / 360)) as [Hpos Hneg].
  assert (Hq : angle = angle / 360 * 360) by field.
  set (q := angle / 360) in *. clearbody q. subst angle.
  destruct (Rle_lt_dec 0 q) as [Hs|Hs].
  - specialize (Hpos Hs). clear Hneg.
    split; [lra|]. split; intros; lra.
  - specialize (Hneg Hs). clear Hpos.
    split; [lra|]. split; intros; lra.
Qed.

Lemma Rtrunc_small (r : R) : -1 < r < 1 -> Rtrunc r = 0%Z.
Proof.
  intros Hr. unfold Rtrunc. destruct (decide (0 <= r)).
  - symmetry. apply Int_part_spec. simpl. lra.
  - replace (Int_part (- r)) with 0%Z; [reflexivity|].
    apply Int_part_spec. simpl. lra.
Qed.

(** Below one turn [fmodf] changes nothing. *)
Lemma fmodf_360_small (angle : R) :
  -360 < angle < 360 -> fmodf angle 360 = angle.
Proof.
  intros H. unfold fmodf. rewrite Rtrunc_small; [simpl; lra|].
  unfold Rdiv. lra.
Qed.

(** [fmodf] takes whole turns off an angle, towards zero. *)
Lemma fmodf_360_turns (v : R) (k : Z) :
  (0 <= v < 360 /\ (0 <= k)%Z) \/ (-360 < v <= 0 /\ (k <= 0)%Z) ->
  fmodf (v + 360 * IZR k) 360 = v.
Proof.
  intros H. unfold fmodf.
  assert (Hk : Rtrunc ((v + 360 * IZR k) / 360) = k).
  { replace ((v + 360 * IZR k) / 360) with (IZR k + v / 360) by field.
    unfold Rtrunc. destruct H as [[Hv Hk] | [Hv Hk]].
    - apply IZR_le in Hk. rewrite decide_True by lra.
      symmetry. apply Int_part_spec. lra.
    - apply IZR_le in Hk. case_decide as H0.
      + symmetry. apply Int_part_spec. lra.
      + assert (Hi : (- k)%Z = Int_part (- (IZR k + v / 360))).
        { apply Int_part_spec. rewrite opp_IZR. lra. }
        rewrite <- Hi. lia. }
  rewrite Hk. ring.
Qed.

(** [ClampAxis] does return a value in [[0, 360)]. *)
Lemma ClampAxis_range (angle : R) : 0 <= Rotator.ClampAxis angle < 360.
Proof.
  unfold Rotator.ClampAxis. cbv zeta.
  pose proof (fmodf_360_bounds angle) as (Hb & _ & _).
  case_decide; lra.
Qed.

(** [NormalizeAxis] returns a value in the closed interval [[-180, 180]]. *)
Lemma NormalizeAxis_range (angle : R) :
  -180 <= Rotator.NormalizeAxis angle <= 180.
Proof.
  unfold Rotator.NormalizeAxis. cbv zeta.
  pose proof (fmodf_360_bounds angle) as (Hb & _ & _).
  repeat case_decide; lra.
Qed.

(** Both are the modulo-360 reduction followed by one correction. *)
Lemma ClampAxis_unfold (angle : R) :
  Rotator.ClampAxis angle =
  if decide (fmodf angle 360 < 0) then fmodf angle 360 + 360
  else fmodf angle 360.
Proof. reflexivity. Qed.

Lemma NormalizeAxis_unfold (angle : R) :
  Rotator.NormalizeAxis angle =
  if decide (fmodf angle 360 > 180) then fmodf angle 360 - 360
  else if decide (fmodf angle 360 < -180) then fmodf angle 360 + 360
  else fmodf angle 360.
Proof. reflexivity. Qed.

Lemma NormalizeAxis_small (angle : R) :
  -180 <= angle <= 180 -> Rotator.NormalizeAxis angle = angle.
Proof.
  intros H. rewrite NormalizeAxis_unfold, fmodf_360_small by lra.
  repeat case_decide; lra.
Qed.

(** C4, at the failing input: the angle -180 is returned as it is, so the
    result of [NormalizeAxis] is not always in the half-open interval
    (-180, 180] that the claim and the comment in [Rotator.h] promise. *)
Theorem NormalizeAxis_minus_180 :
  Rotator.NormalizeAxis (-180) = -180
  /\ ~ (-180 < Rotator.NormalizeAxis (-180) <= 180).
Proof.
  assert (H : Rotator.NormalizeAxis (-180) = -180)
    by (apply NormalizeAxis_small; lra).
  split; [exact H|]. rewrite H. lra.
Qed.

End AxisReduction.

(** ** Quaternion algebra: inverse, shortest arc, rotation of vectors *)

Section QuatAlgebra.

Lemma Quat_eq (a b : Quat) :
  w a = w b -> x a = x b -> y a = y b -> z a = z b ->
  Quat_mp_BoundTransform a = Quat_mp_BoundTransform b -> a = b.
Proof. destruct a, b; simpl; intros; subst; reflexivity. Qed.

Lemma Vec3_eq (a b : Vec3) :
  Vector3D.x a = Vector3D.x b -> Vector3D.y a = Vector3D.y b ->
  Vector3D.z a = Vector3D.z b -> a = b.
Proof. destruct a, b; simpl; intros; subst; reflexivity. Qed.

Lemma IsNormalized_true (q : Quat) :
  Quat.IsNormalized q = true <-> Rabs (1 - Quat.SizeSquared q) < 1 / 100.
Proof.
  unfold Quat.IsNormalized, Quat.THRESH_QUAT_NORMALIZED.
  apply bool_decide_eq_true.
Qed.

Lemma IsNormalized_false (q : Quat) :
  Quat.IsNormalized q = false <-> Rabs (1 - Quat.SizeSquared q) >= 1 / 100.
Proof.
  unfold Quat.IsNormalized, Quat.THRESH_QUAT_NORMALIZED.
  rewrite bool_decide_eq_false. split; lra.
Qed.

(** The Hamilton product of a quaternion with its conjugate. *)
Lemma mul_conjugate (q : Quat) :
  Quat.mul q (Quat.make (w q) (- x q) (- y q) (- z q))
  = Quat.make (Quat.SizeSquared q) 0 0 0.
Proof.
  unfold Quat.mul, Quat.make, Quat.SizeSquared; simpl.
  apply Quat_eq; simpl; try reflexivity; ring.
Qed.

(** C7.  For a quaternion of unit length, [q * q.Inverse()] is exactly
    [Identity]; for one that only passes [IsNormalized], the product is
    [(|q|^2, 0, 0, 0)], less than [THRESH_QUAT_NORMALIZED] away from
    [Identity]; and for one that does not pass ([|1 - |q|^2| >= 0.01]),
    [Inverse] returns [Identity] itself: a value, no error. *)
Theorem Inverse_mul_Identity (q : Quat) :
  (Quat.SizeSquared q = 1 -> Quat.mul q (Quat.Inverse q) = Quat.Identity)
  /\ (Quat.IsNormalized q = true ->
      Quat.mul q (Quat.Inverse q) = Quat.make (Quat.SizeSquared q) 0 0 0
      /\ Rabs (w (Quat.mul q (Quat.Inverse q)) - w Quat.Identity)
         < Quat.THRESH_QUAT_NORMALIZED)
  /\ (Rabs (1 - Quat.SizeSquared q) >= 1 / 100 ->
      Quat.IsNormalized q = false /\ Quat.Inverse q = Quat.Identity).
Proof.
  split; [|split].
  - intros Hu. unfold Quat.Inverse.
    replace (Quat.IsNormalized q) with true.
    + rewrite mul_conjugate, Hu. reflexivity.
    + symmetry. apply IsNormalized_true. rewrite Hu.
      replace (1 - 1) with 0 by ring. rewrite Rabs_R0. lra.
  - intros Hn. unfold Quat.Inverse. rewrite Hn, mul_conjugate.
    split; [reflexivity|]. simpl.
    apply IsNormalized_true in Hn. unfold Quat.THRESH_QUAT_NORMALIZED.
    rewrite Rabs_minus_sym. exact Hn.
  - intros Hn. apply IsNormalized_false in Hn.
    split; [exact Hn|]. unfold Quat.Inverse. rewrite Hn. reflexivity.
Qed.

(** The three cases of C7 at concrete quaternions: the unit quaternion
    (0, 1, 0, 0), the nearly-unit (1.001, 0, 0, 0) and the non-unit
    (2, 0, 0, 0). *)
Lemma Inverse_mul_Identity_witness :
  Quat.mul (Quat.make 0 1 0 0) (Quat.Inverse (Quat.make 0 1 0 0))
  = Quat.Identity
  /\ Quat.mul (Quat.make (1001 / 1000) 0 0 0)
              (Quat.Inverse (Quat.make (1001 / 1000) 0 0 0))
     = Quat.make (Quat.SizeSquared (Quat.make (1001 / 1000) 0 0 0)) 0 0 0
  /\ Quat.Inverse (Quat.make 2 0 0 0) = Quat.Identity.
Proof.
  split; [|split].
  - apply (Inverse_mul_Identity (Quat.make 0 1 0 0)).
    unfold Quat.SizeSquared; simpl; ring.
  - apply (Inverse_mul_Identity (Quat.make (1001 / 1000) 0 0 0)).
    apply IsNormalized_true. unfold Quat.SizeSquared; simpl.
    apply Rabs_def1; lra.
  - apply (Inverse_mul_Identity (Quat.make 2 0 0 0)).
    unfold Quat.SizeSquared; simpl.
    replace (1 - (2 * 2 + 0 * 0 + 0 * 0 + 0 * 0)) with (-3) by ring.
    rewrite Rabs_left; lra.
Defined.

(** C9.  [EnforceShortestArcWith] leaves [p] or replaces it by [-p], keeps
    the binding, and makes the inner product with [q] non-negative. *)
Theorem EnforceShortestArcWith_spec (p q : Quat) :
  let p' := Quat.EnforceShortestArcWith p q in
  (Quat_scalars p' = Quat_scalars p
   \/ Quat_scalars p' = Quat_scalars (Quat.neg p))
  /\ 0 <= Quat.dot p' q
  /\ Quat_mp_BoundTransform p' = Quat_mp_BoundTransform p.
Proof.
  unfold Quat.EnforceShortestArcWith, Quat_scalars, Quat.neg, Quat.dot.
  cbv zeta. simpl. case_decide as Hd.
  - split; [left; repeat f_equal; ring|]. split; [|reflexivity].
    unfold Quat.dot in Hd. nra.
  - split; [right; repeat f_equal; ring|]. split; [|reflexivity].
    unfold Quat.dot in Hd. nra.
Qed.

(** C2, counterexample: the quaternion built from the unit axis (1, 0, 0) and
    the angle pi sends that axis to (-1, 0, 0). *)
Lemma RotateVector_moves_axis :
  Vector3D.MagnitudeSq (Vector3D.mk 1 0 0) = 1
  /\ Quat.RotateVector (Quat.FromAxisAngle (Vector3D.mk 1 0 0) PI)
                       (Vector3D.mk 1 0 0)
     = Vector3D.mk (-1) 0 0
  /\ Vector3D.mk (-1) 0 0 <> Vector3D.mk 1 0 0.
Proof.
  split; [unfold Vector3D.MagnitudeSq; simpl; ring|]. split.
  - unfold Quat.FromAxisAngle, Math.SinCos, Quat.RotateVector.
    replace (1 / 2 * PI) with (PI / 2) by field.
    rewrite sin_PI2, cos_PI2.
    unfold Vector3D.add, Vector3D.scale, Vector3D.cross. simpl.
    apply Vec3_eq; simpl; ring.
  - intros H. apply (f_equal Vector3D.x) in H. simpl in H. lra.
Qed.

(** C2, amended: what the constructed quaternion leaves fixed is the vector
    (-Axis.z, -Axis.x, Axis.y), the axis in the component order in which the
    constructor stores it. *)
Theorem RotateVector_fixes_mapped_axis (Axis : Vec3) (AngleRad : R) :
  let q := Quat.FromAxisAngle Axis AngleRad in
  let mapped :=
    Vector3D.mk (- Vector3D.z Axis) (- Vector3D.x Axis) (Vector3D.y Axis) in
  x q = sin (1 / 2 * AngleRad) * - Vector3D.z Axis
  /\ y q = sin (1 / 2 * AngleRad) * - Vector3D.x Axis
  /\ z q = sin (1 / 2 * AngleRad) * Vector3D.y Axis
  /\ w q = cos (1 / 2 * AngleRad)
  /\ Quat.RotateVector q mapped = mapped.
Proof.
  cbv zeta. unfold Quat.FromAxisAngle, Math.SinCos. simpl.
  repeat (split; [reflexivity|]).
  unfold Quat.RotateVector, Vector3D.add, Vector3D.scale, Vector3D.cross.
  simpl. apply Vec3_eq; simpl; ring.
Qed.

End QuatAlgebra.

(** ** Conversion between the two representations *)

Section Conversion.

(** C5.  [GetRotator] computes [singularityTest = z*x - w*y]; beyond the
    threshold 0.4999995 on either side the pitch is exactly -90 or 90 and
    yaw and roll come from the degenerate [atan2f] formulas; otherwise the
    pitch is [asin (2 * singularityTest)] in degrees and the roll comes from
    the general formula. *)
Theorem GetRotator_branches (q : Quat) :
  let singularityTest := z q * x q - w q * y q in
  let yawY := 2 * (w q * z q + x q * y q) in
  let yawX := 1 - 2 * (y q * y q + z q * z q) in
  let r := Quat.GetRotator q in
  yaw r = RAD2DEG (atan2f yawY yawX)
  /\ (singularityTest < - (4999995 / 10000000) ->
      pitch r = -90
      /\ roll r = Rotator.NormalizeAxis
                    (- yaw r - RAD2DEG (2 * atan2f (x q) (w q))))
  /\ (singularityTest > 4999995 / 10000000 ->
      pitch r = 90
      /\ roll r = Rotator.NormalizeAxis
                    (yaw r - RAD2DEG (2 * atan2f (x q) (w q))))
  /\ (- (4999995 / 10000000) <= singularityTest <= 4999995 / 10000000 ->
      pitch r = RAD2DEG (asin (2 * singularityTest))
      /\ roll r = RAD2DEG (atan2f (-2 * (w q * x q + y q * z q))
                                  (1 - 2 * (x q * x q + y q * y q)))).
Proof.
  cbv zeta. unfold Quat.GetRotator, Quat.SINGULARITY_THRESHOLD. cbv zeta.
  repeat case_decide; simpl; (split; [reflexivity|]);
    (split; [intros; try lra; split; reflexivity|]);
    (split; intros; try lra; split; reflexivity).
Qed.

(** The three branches at concrete quaternions: (w, x, y, z) =
    (0.75, 0, 0.75, 0), (0.75, 0, -0.75, 0) and the identity. *)
Lemma GetRotator_branches_witness :
  pitch (Quat.GetRotator (Quat.make (3 / 4) 0 (3 / 4) 0)) = -90
  /\ pitch (Quat.GetRotator (Quat.make (3 / 4) 0 (- (3 / 4)) 0)) = 90
  /\ pitch (Quat.GetRotator Quat.Identity)
     = RAD2DEG (asin (2 * (0 * 0 - 1 * 0))).
Proof.
  split; [|split].
  - apply (GetRotator_branches (Quat.make (3 / 4) 0 (3 / 4) 0)). simpl. lra.
  - apply (GetRotator_branches (Quat.make (3 / 4) 0 (- (3 / 4)) 0)).
    simpl. lra.
  - apply (GetRotator_branches Quat.Identity). simpl. lra.
Defined.

End Conversion.

(** ** Angles: [atan2f] and half angles *)

Section Trig.

Lemma tan_shift_PI (a : R) : cos a <> 0 -> tan (a + PI) = tan a.
Proof.
  intros Hc. unfold tan. rewrite neg_sin, neg_cos. field. exact Hc.
Qed.

(** [atan2f] recovers the polar angle of a point. *)
Lemma atan2f_polar (k a : R) :
  0 < k -> - PI < a <= PI -> atan2f (k * sin a) (k * cos a) = a.
Proof.
  intros Hk [Hlo Hhi]. pose proof PI_RGT_0 as Hpi. unfold atan2f.
  destruct (Rtotal_order a (- (PI / 2))) as [H1|[H1|H1]].
  - (* third quadrant *)
    assert (Hc : cos a < 0).
    { rewrite <- cos_neg. apply cos_lt_0; lra. }
    assert (Hs : sin a < 0) by (apply sin_lt_0_var; lra).
    destruct (decide (0 < k * cos a)) as [H|_]; [nra|].
    destruct (decide (k * cos a < 0)) as [_|H]; [|nra].
    destruct (decide (0 <= k * sin a)) as [H|_]; [nra|].
    replace (k * sin a / (k * cos a)) with (tan (a + PI)).
    + rewrite atan_tan by lra. ring.
    + rewrite tan_shift_PI by lra. unfold tan. field. lra.
  - subst a. rewrite cos_neg, sin_neg, cos_PI2, sin_PI2.
    repeat case_decide; lra.
  - destruct (Rtotal_order a (PI / 2)) as [H2|[H2|H2]].
    + assert (Hc : 0 < cos a) by (apply cos_gt_0; lra).
      destruct (decide (0 < k * cos a)) as [_|H]; [|nra].
      replace (k * sin a / (k * cos a)) with (tan a)
        by (unfold tan; field; lra).
      apply atan_tan. lra.
    + subst a. rewrite cos_PI2, sin_PI2.
      repeat case_decide; lra.
    + assert (Hc : cos a < 0) by (apply cos_lt_0; lra).
      assert (Hs : 0 <= sin a) by (apply sin_ge_0; lra).
      destruct (decide (0 < k * cos a)) as [H|_]; [nra|].
      destruct (decide (k * cos a < 0)) as [_|H]; [|nra].
      destruct (decide (0 <= k * sin a)) as [_|H]; [|nra].
      replace (k * sin a / (k * cos a)) with (tan (a - PI)).
      * rewrite atan_tan by lra. ring.
      * assert (Hc' : cos (a - PI) <> 0).
        { pose proof (neg_cos (a - PI)) as Hn.
          replace (a - PI + PI) with a in Hn by ring. lra. }
        rewrite <- (tan_shift_PI (a - PI)) by exact Hc'.
        replace (a - PI + PI) with a by ring. unfold tan. field. lra.
Qed.

(** Cosine and sine of the angle [atan2f] returns. *)
Lemma cos_sin_atan2f (a b C : R) :
  0 < C -> a * a + b * b = C * C ->
  cos (atan2f b a) = a / C /\ sin (atan2f b a) = b / C.
Proof.
  intros HC Hab. unfold atan2f.
  destruct (decide (0 < a)) as [Ha|Ha].
  - assert (Hs : sqrt (1 + (b / a)²) = C / a).
    { apply sqrt_lem_1.
      - unfold Rsqr. nra.
      - apply Rlt_le, Rdiv_lt_0_compat; lra.
      - unfold Rsqr.
        replace (1 + b / a * (b / a)) with ((a * a + b * b) / (a * a))
          by (field; lra).
        rewrite Hab. field. lra. }
    rewrite cos_atan, sin_atan, Hs. split; field; lra.
  - destruct (decide (a < 0)) as [Ha'|Ha'].
    + assert (Hs : sqrt (1 + (b / a)²) = C / - a).
      { apply sqrt_lem_1.
        - unfold Rsqr. nra.
        - apply Rlt_le, Rdiv_lt_0_compat; lra.
        - unfold Rsqr.
        replace (1 + b / a * (b / a)) with ((a * a + b * b) / (a * a))
          by (field; lra).
        rewrite Hab. field. lra. }
      destruct (decide (0 <= b)).
      * rewrite neg_cos, neg_sin, cos_atan, sin_atan, Hs. split; field; lra.
      * rewrite cos_minus, sin_minus, cos_PI, sin_PI, cos_atan, sin_atan, Hs.
        split; field; lra.
    + assert (a = 0) by lra. subst a.
      destruct (decide (0 < b)).
      * rewrite cos_PI2, sin_PI2. assert (b = C) by nra. subst b.
        split; field; lra.
      * destruct (decide (b < 0)).
        -- rewrite cos_neg, sin_neg, cos_PI2, sin_PI2.
           assert (b = - C) by nra. subst b. split; field; lra.
        -- assert (b = 0) by lra. subst b. nra.
Qed.

End Trig.

(** ** Round trips between [Rotator] and [Quat] *)

Section RoundTrip.

(** Two unit-length quadruples with the same pairwise products are equal or
    opposite. *)
Lemma same_products_same_or_opposite (w x y z W X Y Z : R) :
  w * w + x * x + y * y + z * z = 1 ->
  W * W = w * w -> W * X = w * x -> W * Y = w * y -> W * Z = w * z ->
  X * X = x * x -> X * Y = x * y -> X * Z = x * z ->
  Y * Y = y * y -> Y * Z = y * z -> Z * Z = z * z ->
  (W = w /\ X = x /\ Y = y /\ Z = z)
  \/ (W = - w /\ X = - x /\ Y = - y /\ Z = - z).
Proof.
  intros Hu Hww Hwx Hwy Hwz Hxx Hxy Hxz Hyy Hyz Hzz.
  set (d := W * w + X * x + Y * y + Z * z).
  assert (Hd : (d - 1) * (d + 1) = 0) by (unfold d; nsatz).
  assert (HW : W * d = w) by (unfold d; nsatz).
  assert (HX : X * d = x) by (unfold d; nsatz).
  assert (HY : Y * d = y) by (unfold d; nsatz).
  assert (HZ : Z * d = z) by (unfold d; nsatz).
  apply Rmult_integral in Hd. destruct Hd as [Hd|Hd].
  - left. assert (d = 1) by lra. rewrite H in *. lra.
  - right. assert (d = -1) by lra. rewrite H in *. lra.
Qed.

(** The algebra behind [Quaternion (GetRotator q) = q] or [- q]: [sp], [cp],
    ... are the sines and cosines of the half angles that [Quaternion]
    takes of the rotator [GetRotator q], and [C] is the cosine of its pitch;
    the hypotheses are what the double-angle formulas and the inverse
    functions in [GetRotator] give. *)
Lemma half_angle_quaternion (w x y z C sp cp sy cy sr cr : R) :
  0 < C ->
  w * w + x * x + y * y + z * z = 1 ->
  sp * sp + cp * cp = 1 ->
  sy * sy + cy * cy = 1 ->
  sr * sr + cr * cr = 1 ->
  2 * sp * cp = 2 * (z * x - w * y) ->
  cp * cp - sp * sp = C ->
  C * (2 * sy * cy) = 2 * (w * z + x * y) ->
  C * (cy * cy - sy * sy) = 1 - 2 * (y * y + z * z) ->
  C * (2 * sr * cr) = -2 * (w * x + y * z) ->
  C * (cr * cr - sr * sr) = 1 - 2 * (x * x + y * y) ->
  let W := cr * cp * cy + sr * sp * sy in
  let X := cr * sp * sy - sr * cp * cy in
  let Y := - cr * sp * cy - sr * cp * sy in
  let Z := cr * cp * sy - sr * sp * cy in
  (W = w /\ X = x /\ Y = y /\ Z = z)
  \/ (W = - w /\ X = - x /\ Y = - y /\ Z = - z).
Proof.
  intros HC Hu HP HY HR HS HCp HyY HyX HrY HrX W X Y Z.
  assert (HC2 : C * C <> 0) by nra.
  assert (cancel : forall a b : R, C * C * (a - b) = 0 -> a = b).
  { intros a b H. apply Rmult_integral in H. destruct H; [contradiction|lra]. }
  apply (same_products_same_or_opposite w x y z W X Y Z Hu);
    apply cancel; unfold W, X, Y, Z; nsatz.
Qed.

Lemma RAD2DEG_half (r : R) : RAD2DEG r * (PI / 180 / 2) = r / 2.
Proof. unfold RAD2DEG, OVERPI. field. apply PI_neq0. Qed.

Lemma Rabs_le_bounds (a b : R) : Rabs a <= b -> - b <= a <= b.
Proof. unfold Rabs. destruct (Rcase_abs a); lra. Qed.

Lemma double_half_angle (a : R) :
  sin a = 2 * sin (a / 2) * cos (a / 2)
  /\ cos a = cos (a / 2) * cos (a / 2) - sin (a / 2) * sin (a / 2)
  /\ sin (a / 2) * sin (a / 2) + cos (a / 2) * cos (a / 2) = 1.
Proof.
  pose proof (sin_2a (a / 2)) as Hs. pose proof (cos_2a (a / 2)) as Hc.
  replace (2 * (a / 2)) with a in Hs, Hc by field.
  pose proof (sin2_cos2 (a / 2)) as H. unfold Rsqr in H. auto.
Qed.

(** Converting a unit quaternion outside the singular band to a rotator and
    back gives the quaternion or its opposite: the same rotation. *)
Lemma Quaternion_GetRotator (q : Quat) :
  Quat.SizeSquared q = 1 ->
  Rabs (z q * x q - w q * y q) <= Quat.SINGULARITY_THRESHOLD ->
  Quat_scalars (Rotator.Quaternion (Quat.GetRotator q)) = Quat_scalars q
  \/ Quat_scalars (Rotator.Quaternion (Quat.GetRotator q))
     = Quat_scalars (Quat.neg q).
Proof.
  intros Hu Hs. apply Rabs_le_bounds in Hs.
  unfold Quat.SizeSquared in Hu.
  unfold Quat.GetRotator, Quat.SINGULARITY_THRESHOLD in *. cbv zeta.
  destruct (decide (z q * x q - w q * y q < - (4999995 / 10000000)));
    [lra|].
  destruct (decide (z q * x q - w q * y q > 4999995 / 10000000)); [lra|].
  unfold Rotator.Quaternion, Math.SinCos, Quat_scalars, Quat.neg. simpl.
  rewrite !RAD2DEG_half.
  set (s2 := 2 * (z q * x q - w q * y q)).
  set (yY := 2 * (w q * z q + x q * y q)).
  set (yX := 1 - 2 * (y q * y q + z q * z q)).
  set (rY := -2 * (w q * x q + y q * z q)).
  set (rX := 1 - 2 * (x q * x q + y q * y q)).
  assert (Hs2 : -1 < s2 < 1) by (unfold s2; lra).
  assert (Hpos : 0 < 1 - s2²) by (unfold Rsqr; nra).
  set (C := sqrt (1 - s2²)).
  assert (HC : 0 < C) by (apply sqrt_lt_R0; exact Hpos).
  assert (HCC : C * C = 1 - s2 * s2)
    by (unfold C; rewrite sqrt_sqrt; [reflexivity|lra]).
  assert (HyN : yX * yX + yY * yY = C * C)
    by (rewrite HCC; unfold yX, yY, s2; nsatz).
  assert (HrN : rX * rX + rY * rY = C * C)
    by (rewrite HCC; unfold rX, rY, s2; nsatz).
  destruct (cos_sin_atan2f yX yY C HC HyN) as [Hcy Hsy].
  destruct (cos_sin_atan2f rX rY C HC HrN) as [Hcr Hsr].
  destruct (double_half_angle (asin s2)) as (Hp1 & Hp2 & Hp3).
  destruct (double_half_angle (atan2f yY yX)) as (Hy1 & Hy2 & Hy3).
  destruct (double_half_angle (atan2f rY rX)) as (Hr1 & Hr2 & Hr3).
  rewrite sin_asin in Hp1 by lra. rewrite cos_asin in Hp2 by lra.
  fold C in Hp2. rewrite Hcy in Hy2. rewrite Hsy in Hy1.
  rewrite Hcr in Hr2. rewrite Hsr in Hr1.
  set (sp := sin (asin s2 / 2)) in *. set (cp := cos (asin s2 / 2)) in *.
  set (sy := sin (atan2f yY yX / 2)) in *.
  set (cy := cos (atan2f yY yX / 2)) in *.
  set (sr := sin (atan2f rY rX / 2)) in *.
  set (cr := cos (atan2f rY rX / 2)) in *.
  destruct (half_angle_quaternion (w q) (x q) (y q) (z q) C sp cp sy cy sr cr)
    as [(H1 & H2 & H3 & H4)|(H1 & H2 & H3 & H4)]; try assumption.
  - fold s2. lra.
  - lra.
  - fold yY. rewrite <- Hy1. field. lra.
  - fold yX. rewrite <- Hy2. field. lra.
  - fold rY. rewrite <- Hr1. field. lra.
  - fold rX. rewrite <- Hr2. field. lra.
  - left. rewrite H1, H2, H3, H4. reflexivity.
  - right. rewrite H1, H2, H3, H4. reflexivity.
Qed.

Lemma half_DEG2RAD (d : R) : d * (PI / 180 / 2) = DEG2RAD d / 2.
Proof. unfold DEG2RAD, PIOVER180. field. Qed.

Lemma RAD2DEG_DEG2RAD (d : R) : RAD2DEG (DEG2RAD d) = d.
Proof. unfold RAD2DEG, DEG2RAD, OVERPI, PIOVER180. field. apply PI_neq0. Qed.

(** The quadratic forms that [GetRotator] reads off a quaternion, for the
    quaternion of a rotator. *)
Lemma Quaternion_forms (e : Rotator) :
  let q := Rotator.Quaternion e in
  Quat.SizeSquared q = 1
  /\ 2 * (z q * x q - w q * y q) = sin (DEG2RAD (pitch e))
  /\ 2 * (w q * z q + x q * y q)
     = cos (DEG2RAD (pitch e)) * sin (DEG2RAD (yaw e))
  /\ 1 - 2 * (y q * y q + z q * z q)
     = cos (DEG2RAD (pitch e)) * cos (DEG2RAD (yaw e))
  /\ -2 * (w q * x q + y q * z q)
     = cos (DEG2RAD (pitch e)) * sin (DEG2RAD (roll e))
  /\ 1 - 2 * (x q * x q + y q * y q)
     = cos (DEG2RAD (pitch e)) * cos (DEG2RAD (roll e)).
Proof.
  cbv zeta. unfold Rotator.Quaternion, Math.SinCos, Quat.SizeSquared. simpl.
  rewrite !half_DEG2RAD.
  destruct (double_half_angle (DEG2RAD (pitch e))) as (Hp1 & Hp2 & Hp3).
  destruct (double_half_angle (DEG2RAD (yaw e))) as (Hy1 & Hy2 & Hy3).
  destruct (double_half_angle (DEG2RAD (roll e))) as (Hr1 & Hr2 & Hr3).
  rewrite Hp1, Hp2, Hy1, Hy2, Hr1, Hr2.
  set (sp := sin (DEG2RAD (pitch e) / 2)) in *.
  set (cp := cos (DEG2RAD (pitch e) / 2)) in *.
  set (sy := sin (DEG2RAD (yaw e) / 2)) in *.
  set (cy := cos (DEG2RAD (yaw e) / 2)) in *.
  set (sr := sin (DEG2RAD (roll e) / 2)) in *.
  set (cr := cos (DEG2RAD (roll e) / 2)) in *.
  clear Hp1 Hp2 Hy1 Hy2 Hr1 Hr2.
  repeat split; nsatz.
Qed.

Lemma DEG2RAD_range (d lo hi : R) :
  lo < d <= hi -> lo * (PI / 180) < DEG2RAD d <= hi * (PI / 180).
Proof.
  intros [H1 H2]. unfold DEG2RAD, PIOVER180. pose proof PI_RGT_0.
  assert (0 < PI / 180) by lra. split; nra.
Qed.

(** Rotator to quaternion and back, exactly, on the principal range. *)
Lemma GetRotator_Quaternion_principal (e : Rotator) :
  Rabs (sin (DEG2RAD (pitch e))) <= 2 * Quat.SINGULARITY_THRESHOLD ->
  -90 < pitch e < 90 -> -180 < yaw e <= 180 -> -180 < roll e <= 180 ->
  Rotator_scalars (Quat.GetRotator (Rotator.Quaternion e))
  = Rotator_scalars e.
Proof.
  intros Hband Hp Hy Hr. apply Rabs_le_bounds in Hband.
  destruct (Quaternion_forms e) as (_ & Hs & HyY & HyX & HrY & HrX).
  cbv zeta in *. set (q := Rotator.Quaternion e) in *. clearbody q.
  unfold Quat.SINGULARITY_THRESHOLD in Hband.
  unfold Quat.GetRotator, Quat.SINGULARITY_THRESHOLD. cbv zeta.
  destruct (decide (z q * x q - w q * y q < - (4999995 / 10000000)));
    [lra|].
  destruct (decide (z q * x q - w q * y q > 4999995 / 10000000)); [lra|].
  unfold Rotator_scalars. simpl.
  rewrite Hs, HyY, HyX, HrY, HrX.
  pose proof PI_RGT_0 as Hpi.
  assert (HP : - (PI / 2) < DEG2RAD (pitch e) < PI / 2).
  { unfold DEG2RAD, PIOVER180. split; nra. }
  assert (Hc : 0 < cos (DEG2RAD (pitch e))) by (apply cos_gt_0; lra).
  rewrite asin_sin by lra.
  rewrite !atan2f_polar.
  - rewrite !RAD2DEG_DEG2RAD. reflexivity.
  - exact Hc.
  - unfold DEG2RAD, PIOVER180. split; nra.
  - exact Hc.
  - unfold DEG2RAD, PIOVER180. split; nra.
Qed.

(** Rotator to quaternion and back: the same rotation, for every rotator
    outside the singular band. *)
Lemma GetRotator_Quaternion_same_rotation (e : Rotator) :
  Rabs (sin (DEG2RAD (pitch e))) <= 2 * Quat.SINGULARITY_THRESHOLD ->
  let e' := Quat.GetRotator (Rotator.Quaternion e) in
  Quat_scalars (Rotator.Quaternion e') = Quat_scalars (Rotator.Quaternion e)
  \/ Quat_scalars (Rotator.Quaternion e')
     = Quat_scalars (Quat.neg (Rotator.Quaternion e)).
Proof.
  intros Hband. cbv zeta.
  destruct (Quaternion_forms e) as (Hu & Hs & _). cbv zeta in *.
  apply Quaternion_GetRotator; [exact Hu|].
  replace (z (Rotator.Quaternion e) * x (Rotator.Quaternion e)
           - w (Rotator.Quaternion e) * y (Rotator.Quaternion e))
    with (sin (DEG2RAD (pitch e)) / 2) by lra.
  unfold Rdiv. rewrite Rabs_mult, (Rabs_right (/ 2)) by lra. lra.
Qed.

Lemma atan2f_0_neg1 : atan2f 0 (-1) = PI.
Proof.
  unfold atan2f. repeat case_decide; try lra.
  replace (0 / -1) with 0 by field. rewrite atan_0. ring.
Qed.

End RoundTrip.

(** ** GenMath.h: the accuracy of [Math::InvSqrt] *)

Lemma ln_2_pos : 0 < ln 2.
Proof. rewrite <- ln_1. apply ln_increasing; lra. Qed.

Lemma powerRZ_2_exp (z : Z) : powerRZ 2 z = exp (IZR z * ln 2).
Proof. rewrite powerRZ_Rpower by lra. reflexivity. Qed.

Lemma powerRZ_2_pos (z : Z) : 0 < powerRZ 2 z.
Proof. apply powerRZ_lt. lra. Qed.

Lemma float_exponent_spec (f : R) :
  0 < f ->
  powerRZ 2 (Math.float_exponent f) <= f
  < powerRZ 2 (Math.float_exponent f + 1).
Proof.
  intros Hf. unfold Math.float_exponent.
  set (L := ln f / ln 2).
  destruct (base_Int_part L) as [H1 H2].
  pose proof ln_2_pos as Hl.
  assert (HL : ln f = L * ln 2) by (unfold L; field; lra).
  rewrite !powerRZ_2_exp, plus_IZR.
  assert (Hfe : f = exp (L * ln 2))
    by (rewrite <- HL; symmetry; apply exp_ln, Hf).
  clearbody L. rewrite Hfe.
  split.
  - destruct (Req_dec (IZR (Int_part L)) L) as [->|Hne]; [lra|].
    apply Rlt_le, exp_increasing. nra.
  - apply exp_increasing. nra.
Qed.

Lemma float_mantissa_spec (f : R) :
  0 < f ->
  let m := f * powerRZ 2 (- Math.float_exponent f) in
  1 <= m < 2 /\ f = m * powerRZ 2 (Math.float_exponent f).
Proof.
  intros Hf. cbv zeta.
  destruct (float_exponent_spec f Hf) as [H1 H2].
  set (e := Math.float_exponent f) in *.
  pose proof (powerRZ_2_pos e) as HP.
  assert (Hinv : powerRZ 2 (- e) * powerRZ 2 e = 1).
  { rewrite <- powerRZ_add by lra.
    replace (- e + e)%Z with 0%Z by lia. reflexivity. }
  assert (Hsucc : powerRZ 2 (e + 1) = 2 * powerRZ 2 e).
  { rewrite powerRZ_add by lra. simpl. ring. }
  rewrite Hsucc in H2.
  pose proof (powerRZ_2_pos (- e)) as HQ.
  set (P := powerRZ 2 e) in *. set (Q := powerRZ 2 (- e)) in *.
  split; [split|].
  - replace 1 with (P * Q) by lra. nra.
  - replace 2 with (2 * (P * Q)) by lra. nra.
  - rewrite Rmult_assoc, Hinv. ring.
Qed.

Lemma powerRZ_2_sq_mul (a b c : Z) :
  (a + a + b = c)%Z ->
  powerRZ 2 a * powerRZ 2 a * powerRZ 2 b = powerRZ 2 c.
Proof.
  intros <-. rewrite <- !powerRZ_add by lra. reflexivity.
Qed.

(** The fraction bits of a mantissa in [1, 2). *)
Lemma float_fraction_spec (m : R) :
  1 <= m < 2 ->
  let M := Int_part ((m - 1) * 8388608) in
  (0 <= M < 2 ^ 23)%Z
  /\ IZR M <= (m - 1) * 8388608 < IZR M + 1.
Proof.
  intros Hm. cbv zeta.
  destruct (base_Int_part ((m - 1) * 8388608)) as [H1 H2].
  set (M := Int_part ((m - 1) * 8388608)) in *.
  split; [|lra].
  split.
  - assert (H : IZR (-1) < IZR M) by lra. apply lt_IZR in H. lia.
  - assert (H : IZR M < IZR 8388608) by lra. apply lt_IZR in H. exact H.
Qed.

(** The first guess [y] of [Math.InvSqrt]: with [m] the mantissa of [f] and [nu]
    the mantissa of [y], [m] is [1 + 2 (A - nu)] up to the bit that the
    shift drops, and [y * y * f] is [nu * nu * m / D]; [A] and [D] depend on
    the parity of the exponent and on a borrow in the subtraction. *)
Lemma InvSqrt_guess (f : R) :
  0 < f ->
  let y :=
    Math.bits_to_float (0x5f3759df - Z.shiftr (Math.float_to_bits f) 1) in
  exists nu dl A D : R,
    0 < y
    /\ y * y * f = nu * nu * (1 + 2 * (A - nu) + dl) / D
    /\ 0 <= dl < 1 / 4194304
    /\ ((A = magic_a /\ D = 2 /\ 1 <= nu <= magic_a)
        \/ (A = magic_a + 1 /\ D = 8 /\ magic_a + 1 / 2 <= nu <= 2)
        \/ (A = magic_a + 1 / 2 /\ D = 4
            /\ magic_a <= nu <= magic_a + 1 / 2)).
Proof.
  intros Hf. cbv zeta.
  destruct (float_mantissa_spec f Hf) as [Hm Hfm]. cbv zeta in Hm, Hfm.
  unfold Math.float_to_bits. cbv zeta.
  set (e := Math.float_exponent f) in *.
  set (m := f * powerRZ 2 (- e)) in *.
  destruct (float_fraction_spec m Hm) as [HM HMm]. cbv zeta in HM, HMm.
  set (M := Int_part ((m - 1) * 8388608)) in *.
  clearbody M m e.
  rewrite Z.shiftr_div_pow2 by lia.
  change (2 ^ 1)%Z with 2%Z.
  set (h := (M / 2)%Z).
  assert (Hh : (2 * h <= M <= 2 * h + 1)%Z)
    by (unfold h; Z.div_mod_to_equations; lia).
  assert (Hhm : 2 * IZR h <= (m - 1) * 8388608 < 2 * IZR h + 2).
  { destruct Hh as [Hh1 Hh2]. apply IZR_le in Hh1, Hh2.
    rewrite mult_IZR in Hh1. rewrite plus_IZR, mult_IZR in Hh2. lra. }
  assert (Hh0 : (0 <= h < 2 ^ 22)%Z) by lia.
  unfold Math.bits_to_float.
  destruct (Z.Even_or_Odd (e + 127)) as [[k Hk]|[k Hk]].
  - assert (Hi : (((e + 127) * 2 ^ 23 + M) / 2 = k * 2 ^ 23 + h)%Z)
      by (unfold h; Z.div_mod_to_equations; lia).
    rewrite Hi.
    destruct (Z_le_gt_dec h 3627487) as [Hc|Hc].
    + assert (Hq : ((0x5f3759df - (k * 2 ^ 23 + h)) / 2 ^ 23 = 190 - k)%Z)
        by (Z.div_mod_to_equations; lia).
      assert (Hr : ((0x5f3759df - (k * 2 ^ 23 + h)) mod 2 ^ 23
                    = 3627487 - h)%Z) by (Z.div_mod_to_equations; lia).
      rewrite Hq, Hr.
      exists (1 + IZR (3627487 - h) / 8388608),
        ((m - 1) - IZR h / 4194304), magic_a, 2.
      rewrite minus_IZR.
      assert (Hh' : 0 <= IZR h <= 3627487).
      { split; [apply IZR_le; lia | apply IZR_le; exact Hc]. }
      split; [apply Rmult_lt_0_compat; [lra | apply powerRZ_2_pos]|].
      split.
      * rewrite Hfm.
        transitivity
          ((1 + (3627487 - IZR h) / 8388608)
           * (1 + (3627487 - IZR h) / 8388608) * m
           * (powerRZ 2 (190 - k - 127) * powerRZ 2 (190 - k - 127)
              * powerRZ 2 e)); [ring|].
        rewrite (powerRZ_2_sq_mul _ _ (-1)) by lia.
        simpl. field.
      * split; [lra|]. left. split; [reflexivity|].
        split; [reflexivity | lra].
    + assert (Hq : ((0x5f3759df - (k * 2 ^ 23 + h)) / 2 ^ 23 = 189 - k)%Z)
        by (Z.div_mod_to_equations; lia).
      assert (Hr : ((0x5f3759df - (k * 2 ^ 23 + h)) mod 2 ^ 23
                    = 12016095 - h)%Z) by (Z.div_mod_to_equations; lia).
      rewrite Hq, Hr.
      exists (1 + IZR (12016095 - h) / 8388608),
        ((m - 1) - IZR h / 4194304), (magic_a + 1), 8.
      rewrite minus_IZR.
      assert (Hh' : 3627488 <= IZR h <= 4194303).
      { split; apply IZR_le; lia. }
      split; [apply Rmult_lt_0_compat; [lra | apply powerRZ_2_pos]|].
      split.
      * rewrite Hfm.
        transitivity
          ((1 + (12016095 - IZR h) / 8388608)
           * (1 + (12016095 - IZR h) / 8388608) * m
           * (powerRZ 2 (189 - k - 127) * powerRZ 2 (189 - k - 127)
              * powerRZ 2 e)); [ring|].
        rewrite (powerRZ_2_sq_mul _ _ (-3)) by lia.
        simpl. field.
      * split; [lra|]. right. left.
        split; [reflexivity|]. split; [reflexivity | lra].
  - assert (Hi : (((e + 127) * 2 ^ 23 + M) / 2
                  = k * 2 ^ 23 + 2 ^ 22 + h)%Z)
      by (unfold h; Z.div_mod_to_equations; lia).
    rewrite Hi.
    assert (Hq : ((0x5f3759df - (k * 2 ^ 23 + 2 ^ 22 + h)) / 2 ^ 23
                  = 189 - k)%Z) by (Z.div_mod_to_equations; lia).
    assert (Hr : ((0x5f3759df - (k * 2 ^ 23 + 2 ^ 22 + h)) mod 2 ^ 23
                  = 7821791 - h)%Z) by (Z.div_mod_to_equations; lia).
    rewrite Hq, Hr.
    exists (1 + IZR (7821791 - h) / 8388608),
      ((m - 1) - IZR h / 4194304), (magic_a + 1 / 2), 4.
    rewrite minus_IZR.
    assert (Hh' : 0 <= IZR h <= 4194303).
    { split; apply IZR_le; lia. }
    split; [apply Rmult_lt_0_compat; [lra | apply powerRZ_2_pos]|].
    split.
    + rewrite Hfm.
      transitivity
        ((1 + (7821791 - IZR h) / 8388608)
         * (1 + (7821791 - IZR h) / 8388608) * m
         * (powerRZ 2 (189 - k - 127) * powerRZ 2 (189 - k - 127)
            * powerRZ 2 e)); [ring|].
      rewrite (powerRZ_2_sq_mul _ _ (-2)) by lia.
      simpl. field.
    + split; [lra|]. right. right.
      split; [reflexivity|]. split; [reflexivity | lra].
Qed.

(** [nu * nu * (kappa - 2 nu)] is largest at [nu = kappa / 3]. *)
Lemma cubic_max (nu kappa : R) :
  0 <= nu -> 0 <= kappa ->
  nu * nu * (kappa - 2 * nu) <= kappa * kappa * kappa / 27.
Proof.
  intros Hn Hk.
  assert (H : kappa * kappa * kappa / 27 - nu * nu * (kappa - 2 * nu)
              = (nu - kappa / 3) * (nu - kappa / 3) * (kappa / 3 + 2 * nu))
    by field.
  pose proof (Rle_0_sqr (nu - kappa / 3)) as Hsq. unfold Rsqr in Hsq.
  assert (Hp : 0 <= kappa / 3 + 2 * nu) by lra.
  pose proof (Rmult_le_pos _ _ Hsq Hp). lra.
Qed.

Lemma guess_bounds (nu dl A D : R) :
  0 <= dl < 1 / 4194304 ->
  (A = magic_a /\ D = 2 /\ 1 <= nu <= magic_a)
  \/ (A = magic_a + 1 /\ D = 8 /\ magic_a + 1 / 2 <= nu <= 2)
  \/ (A = magic_a + 1 / 2 /\ D = 4 /\ magic_a <= nu <= magic_a + 1 / 2) ->
  93243 / 100000 <= nu * nu * (1 + 2 * (A - nu) + dl) / D
  <= 106908 / 100000.
Proof.
  intros Hd H.
  assert (Ha : 143243 / 100000 < magic_a < 1432431 / 1000000)
    by lra.
  set (a := magic_a) in *. clearbody a.
  destruct H as [(-> & -> & Hn)|[(-> & -> & Hn)|(-> & -> & Hn)]].
  - split.
    + assert (H : 2 * a - 1 <= nu * nu * (1 + 2 * (a - nu))).
      { set (s := nu - 1).
        replace nu with (1 + s) by (unfold s; ring).
        assert (Hs : 0 <= s <= a - 1) by (unfold s; lra). clearbody s.
        assert (0 <= s * ((4 * a - 4) + (2 * a - 5) * s - 2 * s * s)).
        { apply Rmult_le_pos; [lra|]. nra. }
        nra. }
      assert (0 <= nu * nu * dl) by (apply Rmult_le_pos; nra).
      lra.
    + pose proof (cubic_max nu (1 + 2 * a + dl)) as H.
      assert (Hk : (1 + 2 * a + dl) * (1 + 2 * a + dl) * (1 + 2 * a + dl)
                   <= 577302 / 10000).
      { assert (H1 : 0 <= 1 + 2 * a + dl <= 3864863 / 1000000) by lra.
        set (k := 1 + 2 * a + dl) in *. clearbody k.
        assert (k * k <= 3864863 / 1000000 * (3864863 / 1000000)) by nra.
        nra. }
      replace (1 + 2 * (a - nu) + dl) with (1 + 2 * a + dl - 2 * nu) by ring.
      lra.
  - split.
    + assert (H : 4 * (2 * a - 1) <= nu * nu * (1 + 2 * (a + 1 - nu))).
      { set (u := 2 - nu).
        replace nu with (2 - u) by (unfold u; ring).
        assert (Hu : 0 <= u <= 3 / 2 - a) by (unfold u; lra). clearbody u.
        assert (0 <= u * ((12 - 8 * a) + (2 * a - 9) * u + 2 * u * u)).
        { apply Rmult_le_pos; [lra|]. nra. }
        nra. }
      assert (0 <= nu * nu * dl) by (apply Rmult_le_pos; nra).
      lra.
    + pose proof (cubic_max nu (1 + 2 * (a + 1) + dl)) as H.
      assert (Hk : (1 + 2 * (a + 1) + dl) * (1 + 2 * (a + 1) + dl)
                   * (1 + 2 * (a + 1) + dl) <= 202).
      { assert (H1 : 0 <= 1 + 2 * (a + 1) + dl <= 5864863 / 1000000) by lra.
        set (k := 1 + 2 * (a + 1) + dl) in *. clearbody k.
        assert (k * k <= 5864863 / 1000000 * (5864863 / 1000000)) by nra.
        nra. }
      replace (1 + 2 * (a + 1 - nu) + dl)
        with (1 + 2 * (a + 1) + dl - 2 * nu) by ring.
      lra.
  - split.
    + assert (H : 373 / 100 <= nu * nu * (1 + 2 * (a + 1 / 2 - nu))).
      { set (v := a + 1 / 2 - nu). set (b := a + 1 / 2).
        replace (1 + 2 * (a + 1 / 2 - nu)) with (1 + 2 * v)
          by (unfold v; ring).
        replace nu with (b - v) by (unfold v, b; ring).
        assert (Hv : 0 <= v <= 1 / 2) by (unfold v; lra).
        assert (Hb : 193243 / 100000 < b < 1932431 / 1000000)
          by (unfold b; lra).
        clearbody v b.
        assert (Hbb : 37342 / 10000 <= b * b) by nra.
        assert (Hbv : 0 <= (1932431 / 1000000 - b) * v)
          by (apply Rmult_le_pos; lra).
        assert (Hvv : 0 <= v * v) by (apply Rmult_le_pos; lra).
        assert (Hbr : 0 <= 2 * (b * b) - 2 * b + (1 - 4 * b) * v
                         + 2 * (v * v)) by lra.
        pose proof (Rmult_le_pos _ _ (proj1 Hv) Hbr) as Hprod.
        replace ((b - v) * (b - v) * (1 + 2 * v))
          with (b * b
                + v * (2 * (b * b) - 2 * b + (1 - 4 * b) * v + 2 * (v * v)))
          by ring.
        lra. }
      assert (0 <= nu * nu * dl) by (apply Rmult_le_pos; nra).
      lra.
    + pose proof (cubic_max nu (1 + 2 * (a + 1 / 2) + dl)) as H.
      assert (Hk : (1 + 2 * (a + 1 / 2) + dl) * (1 + 2 * (a + 1 / 2) + dl)
                   * (1 + 2 * (a + 1 / 2) + dl) <= 1152 / 10).
      { assert (H1 : 0 <= 1 + 2 * (a + 1 / 2) + dl <= 4864863 / 1000000)
          by lra.
        set (k := 1 + 2 * (a + 1 / 2) + dl) in *. clearbody k.
        assert (k * k <= 4864863 / 1000000 * (4864863 / 1000000)) by nra.
        nra. }
      replace (1 + 2 * (a + 1 / 2 - nu) + dl)
        with (1 + 2 * (a + 1 / 2) + dl - 2 * nu) by ring.
      lra.
Qed.

(** One Newton step: with [F] the square of the relative value of the
    guess, the square of the relative value of the result is
    [1 - (1 - F)^2 (4 - F) / 4]. *)
Lemma newton_step_bounds (F : R) :
  93243 / 100000 <= F <= 106908 / 100000 ->
  996498 / 1000000 <= F * (3 - F) * (3 - F) / 4 <= 1.
Proof.
  intros HF.
  replace (F * (3 - F) * (3 - F) / 4)
    with (1 - (F - 1) * (F - 1) * (3 - (F - 1)) / 4) by field.
  set (t := F - 1). assert (Ht : - (6757 / 100000) <= t <= 6908 / 100000)
    by (unfold t; lra).
  clearbody t.
  assert (Hsq : 0 <= t * t) by (pose proof (Rle_0_sqr t) as H; exact H).
  assert (H0 : 0 <= t * t * (3 - t)) by (apply Rmult_le_pos; lra).
  split; [|lra].
  assert (H : t * t * (3 - t) <= 14008 / 1000000); [|lra].
  destruct (Rle_dec 0 t) as [Hp|Hn].
  - set (T := 6908 / 100000) in *.
    assert (HT : T * T * (3 - T) <= 14008 / 1000000) by (unfold T; lra).
    assert (Hd : 0 <= (T - t) * (3 * (T + t) - (T * T + T * t + t * t))).
    { apply Rmult_le_pos; [lra|]. unfold T in *. nra. }
    replace (t * t * (3 - t))
      with (T * T * (3 - T)
            - (T - t) * (3 * (T + t) - (T * T + T * t + t * t))) by ring.
    lra.
  - assert (Hs : t * t <= 6757 / 100000 * (6757 / 100000)) by nra.
    assert (H3 : 0 <= 3 - t <= 3 + 6757 / 100000) by lra.
    assert (t * t * (3 - t)
            <= 6757 / 100000 * (6757 / 100000) * (3 + 6757 / 100000)).
    { apply Rmult_le_compat; lra. }
    lra.
Qed.

(** The accuracy of [Math::Math.InvSqrt]: the result is positive, never above
    the inverse square root, and its square times the argument is at most
    0.3502 percent below 1. *)
Lemma InvSqrt_square_bounds (num : R) :
  0 < num ->
  0 < Math.InvSqrt num
  /\ 996498 / 1000000 <= Math.InvSqrt num * Math.InvSqrt num * num <= 1.
Proof.
  intros Hn. destruct (InvSqrt_guess num Hn)
    as (nu & dl & A & D & Hy & HF & Hd & Hc). cbv zeta in Hy, HF.
  pose proof (guess_bounds nu dl A D Hd Hc) as Hb. rewrite <- HF in Hb.
  unfold Math.InvSqrt. cbv zeta.
  set (y := Math.bits_to_float
              (0x5f3759df - Z.shiftr (Math.float_to_bits num) 1)) in *.
  clearbody y. set (F := y * y * num) in *.
  assert (Hz : y * (15 / 10 - num * (5 / 10) * y * y) = y * (3 - F) / 2)
    by (unfold F; field).
  rewrite Hz. split.
  - apply Rmult_lt_0_compat; [|lra]. apply Rmult_lt_0_compat; lra.
  - replace (y * (3 - F) / 2 * (y * (3 - F) / 2) * num)
      with (F * (3 - F) * (3 - F) / 4) by (unfold F; field).
    apply newton_step_bounds. exact Hb.
Qed.

Lemma InvSqrt_relative_error :
  InvSqrt_accurate (176 / 100000) Math.InvSqrt.
Proof.
  intros num Hn. destruct (InvSqrt_square_bounds num Hn) as [Hz Hb].
  assert (Hs : 0 < sqrt num) by (apply sqrt_lt_R0; exact Hn).
  set (u := Math.InvSqrt num * sqrt num).
  assert (Hu : 0 < u) by (apply Rmult_lt_0_compat; assumption).
  assert (Huu : u * u = Math.InvSqrt num * Math.InvSqrt num * num).
  { unfold u. transitivity
      (Math.InvSqrt num * Math.InvSqrt num * (sqrt num * sqrt num)); [ring|].
    rewrite sqrt_sqrt by lra. reflexivity. }
  rewrite <- Huu in Hb. clearbody u.
  apply Rabs_le. split; nra.
Qed.

(** The value at 1, the bit pattern [0x3f800000]. *)
Lemma InvSqrt_1 : 9983 / 10000 < Math.InvSqrt 1 < 9984 / 10000.
Proof.
  unfold Math.InvSqrt, Math.float_to_bits, Math.float_exponent. cbv zeta.
  rewrite ln_1. replace (0 / ln 2) with 0
    by (field; apply Rgt_not_eq, ln_2_pos).
  assert (H0 : Int_part 0 = 0%Z).
  { symmetry. apply Int_part_spec. simpl. lra. }
  rewrite H0. simpl powerRZ.
  replace ((1 * 1 - 1) * 8388608) with 0 by ring. rewrite H0.
  unfold Math.bits_to_float.
  set (i := (0x5f3759df - Z.shiftr ((0 + 127) * 2 ^ 23 + 0) 1)%Z).
  assert (Hq : (i / 2 ^ 23 - 127 = -1)%Z) by (vm_compute; reflexivity).
  assert (Hr : (i mod 2 ^ 23 = 7821791)%Z) by (vm_compute; reflexivity).
  rewrite Hq, Hr. simpl powerRZ. lra.
Qed.

(** ** Spherical interpolation *)

Section SlerpFacts.

Variable InvSqrt : R -> R.

(** The two branches of [Slerp_NotNormalized], and the sign flip. *)
Lemma Slerp_NotNormalized_linear (q1 q2 : Quat) (t : R) :
  Quat.DOT_THRESHOLD <= Rabs (Quat.dot q1 q2) ->
  Quat_scalars (Quat.Slerp_NotNormalized q1 q2 t)
  = if decide (Quat.dot q1 q2 >= 0)
    then Quat_scalars (Quat.add (Quat.scale q1 (1 - t)) (Quat.scale q2 t))
    else Quat_scalars (Quat.sub (Quat.scale q1 (1 - t)) (Quat.scale q2 t)).
Proof.
  intros Hd. unfold Quat.Slerp_NotNormalized. cbv zeta.
  destruct (decide (Quat.dot q1 q2 >= 0)) as [Hp|Hn].
  - rewrite Rabs_right in Hd by exact Hp.
    destruct (decide (Quat.dot q1 q2 < Quat.DOT_THRESHOLD)); [lra|].
    scalars_ring.
  - rewrite Rabs_left in Hd by lra.
    destruct (decide (- Quat.dot q1 q2 < Quat.DOT_THRESHOLD)); [lra|].
    scalars_ring.
Qed.

Lemma Slerp_NotNormalized_spherical (q1 q2 : Quat) (t : R) :
  Rabs (Quat.dot q1 q2) < Quat.DOT_THRESHOLD ->
  let omega := acos (Rabs (Quat.dot q1 q2)) in
  let scale0 := sin ((1 - t) * omega) * (1 / sin omega) in
  let scale1 := sin (t * omega) * (1 / sin omega) in
  Quat_scalars (Quat.Slerp_NotNormalized q1 q2 t)
  = if decide (Quat.dot q1 q2 >= 0)
    then Quat_scalars (Quat.add (Quat.scale q1 scale0) (Quat.scale q2 scale1))
    else Quat_scalars (Quat.sub (Quat.scale q1 scale0) (Quat.scale q2 scale1)).
Proof.
  intros Hd. unfold Quat.Slerp_NotNormalized. cbv zeta.
  destruct (decide (Quat.dot q1 q2 >= 0)) as [Hp|Hn].
  - rewrite Rabs_right in * by exact Hp.
    destruct (decide (Quat.dot q1 q2 < Quat.DOT_THRESHOLD)); [|lra].
    scalars_ring.
  - rewrite Rabs_left in * by lra.
    destruct (decide (- Quat.dot q1 q2 < Quat.DOT_THRESHOLD)); [|lra].
    scalars_ring.
Qed.

Lemma sin_acos_pos (c : R) : 0 <= c < Quat.DOT_THRESHOLD -> 0 < sin (acos c).
Proof.
  unfold Quat.DOT_THRESHOLD. intros Hc.
  rewrite sin_acos by lra. apply sqrt_lt_R0. unfold Rsqr. nra.
Qed.

(** At [t = 0] the blend is [q1]; at [t = 1] it is [q2], or [-q2] when the
    inner product is negative. *)
Lemma Slerp_NotNormalized_0 (q1 q2 : Quat) :
  Quat_scalars (Quat.Slerp_NotNormalized q1 q2 0) = Quat_scalars q1.
Proof.
  destruct (Rlt_le_dec (Rabs (Quat.dot q1 q2)) Quat.DOT_THRESHOLD) as [H|H].
  - rewrite Slerp_NotNormalized_spherical by exact H. cbv zeta.
    assert (Hs : 0 < sin (acos (Rabs (Quat.dot q1 q2))))
      by (apply sin_acos_pos; split; [apply Rabs_pos|exact H]).
    set (om := acos (Rabs (Quat.dot q1 q2))) in *.
    replace ((1 - 0) * om) with om by ring.
    replace (0 * om) with 0 by ring. rewrite sin_0.
    replace (sin om * (1 / sin om)) with 1 by (field; lra).
    case_decide; scalars_ring.
  - rewrite Slerp_NotNormalized_linear by exact H.
    case_decide; scalars_ring.
Qed.

Lemma Slerp_NotNormalized_1 (q1 q2 : Quat) :
  Quat_scalars (Quat.Slerp_NotNormalized q1 q2 1)
  = if decide (Quat.dot q1 q2 >= 0) then Quat_scalars q2
    else Quat_scalars (Quat.neg q2).
Proof.
  destruct (Rlt_le_dec (Rabs (Quat.dot q1 q2)) Quat.DOT_THRESHOLD) as [H|H].
  - rewrite Slerp_NotNormalized_spherical by exact H. cbv zeta.
    assert (Hs : 0 < sin (acos (Rabs (Quat.dot q1 q2))))
      by (apply sin_acos_pos; split; [apply Rabs_pos|exact H]).
    set (om := acos (Rabs (Quat.dot q1 q2))) in *.
    replace ((1 - 1) * om) with 0 by ring.
    replace (1 * om) with om by ring. rewrite sin_0.
    replace (sin om * (1 / sin om)) with 1 by (field; lra).
    case_decide; scalars_ring.
  - rewrite Slerp_NotNormalized_linear by exact H.
    case_decide; scalars_ring.
Qed.

(** [Quat_near] looks at the four scalars only. *)
Lemma Quat_near_scalars (e : R) (a a' b b' : Quat) :
  Quat_scalars a = Quat_scalars a' -> Quat_scalars b = Quat_scalars b' ->
  Quat_near e a' b' -> Quat_near e a b.
Proof.
  unfold Quat_scalars, Quat_near. intros Ha Hb.
  injection Ha as -> -> -> ->. injection Hb as -> -> -> ->. auto.
Qed.

(** [GetNormalized] copies the scalars through [Normalize]. *)
Lemma GetNormalized_scalars (q : Quat) (tolerance : R) :
  Quat_scalars (Quat.GetNormalized InvSqrt q tolerance)
  = if decide (Quat.SizeSquared q >= tolerance)
    then Quat_scalars (Quat.scale q (InvSqrt (Quat.SizeSquared q)))
    else Quat_scalars Quat.Identity.
Proof.
  unfold Quat.GetNormalized, Quat.Normalize_fields, Quat.SizeSquared.
  cbv zeta. simpl. case_decide; reflexivity.
Qed.

Lemma GetNormalized_respects_scalars (a b : Quat) (tolerance : R) :
  Quat_scalars a = Quat_scalars b ->
  Quat_scalars (Quat.GetNormalized InvSqrt a tolerance)
  = Quat_scalars (Quat.GetNormalized InvSqrt b tolerance).
Proof.
  intros H. rewrite !GetNormalized_scalars.
  unfold Quat.SizeSquared, Quat.scale, Quat_scalars in *. simpl.
  injection H as -> -> -> ->. reflexivity.
Qed.

Variable eps : R.
Hypothesis InvSqrt_ok : InvSqrt_accurate eps InvSqrt.

Lemma eps_nonneg : 0 <= eps.
Proof.
  pose proof (InvSqrt_ok 1 Rlt_0_1) as H.
  pose proof (Rabs_pos (InvSqrt 1 * sqrt 1 - 1)). lra.
Qed.

(** The result of [GetNormalized] has length 1 up to [eps]. *)
Lemma GetNormalized_Size (q : Quat) :
  Rabs (Quat.Size (Quat.GetNormalized InvSqrt q SMALL_NUMBER) - 1) <= eps.
Proof.
  assert (Hsz : forall a : Quat, Quat.Size a = sqrt (Quat.SizeSquared a))
    by reflexivity.
  assert (Hss : forall a b : Quat,
             Quat_scalars a = Quat_scalars b ->
             Quat.SizeSquared a = Quat.SizeSquared b).
  { intros a b H. unfold Quat.SizeSquared, Quat_scalars in *.
    injection H as -> -> -> ->. reflexivity. }
  rewrite Hsz. pose proof (GetNormalized_scalars q SMALL_NUMBER) as Hn.
  destruct (decide (Quat.SizeSquared q >= SMALL_NUMBER)) as [Hge|Hlt].
  - rewrite (Hss _ _ Hn).
    assert (Hpos : 0 < Quat.SizeSquared q)
      by (unfold SMALL_NUMBER in Hge; lra).
    set (k := InvSqrt (Quat.SizeSquared q)).
    replace (Quat.SizeSquared (Quat.scale q k))
      with ((k * sqrt (Quat.SizeSquared q)) * (k * sqrt (Quat.SizeSquared q))).
    + fold (Rsqr (k * sqrt (Quat.SizeSquared q))). rewrite sqrt_Rsqr_abs.
      pose proof (InvSqrt_ok _ Hpos) as Hk. fold k in Hk.
      eapply Rle_trans; [|exact Hk].
      replace 1 with (Rabs 1) at 1 by (apply Rabs_R1).
      apply Rabs_triang_inv2.
    + transitivity
        (k * k * (sqrt (Quat.SizeSquared q) * sqrt (Quat.SizeSquared q)));
        [ring|].
      rewrite sqrt_sqrt by lra. unfold Quat.SizeSquared, Quat.scale.
      simpl. ring.
  - rewrite (Hss _ _ Hn). unfold Quat.SizeSquared, Quat.Identity. simpl.
    replace (1 * 1 + 0 * 0 + 0 * 0 + 0 * 0) with 1 by ring.
    rewrite sqrt_1. replace (1 - 1) with 0 by ring. rewrite Rabs_R0.
    apply eps_nonneg.
Qed.

(** [GetNormalized] moves no component of a unit quaternion by more than
    [eps]. *)
Lemma GetNormalized_unit_near (q : Quat) :
  Quat.SizeSquared q = 1 ->
  Quat_near eps (Quat.GetNormalized InvSqrt q SMALL_NUMBER) q.
Proof.
  intros Hu. pose proof (GetNormalized_scalars q SMALL_NUMBER) as Hn.
  rewrite Hu in Hn.
  destruct (decide (1 >= SMALL_NUMBER)) as [_|Hc];
    [|unfold SMALL_NUMBER in Hc; lra].
  pose proof (InvSqrt_ok 1 Rlt_0_1) as Hk. rewrite sqrt_1 in Hk.
  set (k := InvSqrt 1) in *. replace (k * 1 - 1) with (k - 1) in Hk by ring.
  unfold Quat.SizeSquared in Hu.
  assert (Hb : forall c : R, c * c <= 1 -> Rabs (c * k - c) <= eps).
  { intros c Hc. replace (c * k - c) with (c * (k - 1)) by ring.
    rewrite Rabs_mult.
    assert (Rabs c <= 1).
    { apply Rabs_le. split; nra. }
    pose proof (Rabs_pos (k - 1)). pose proof (Rabs_pos c). nra. }
  apply (Quat_near_scalars _ _ _ _ _ Hn eq_refl).
  unfold Quat_near, Quat.scale. simpl.
  repeat split; apply Hb; nra.
Qed.

(** The end points and the length of [Slerp], for a function [InvSqrt] of
    relative error [eps]. *)
Lemma Slerp_endpoints_generic (q1 q2 : Quat) :
  Quat.SizeSquared q1 = 1 -> Quat.SizeSquared q2 = 1 ->
  Quat_near eps (Quat.Slerp InvSqrt q1 q2 0) q1
  /\ (Quat.dot q1 q2 >= 0 -> Quat_near eps (Quat.Slerp InvSqrt q1 q2 1) q2)
  /\ (Quat.dot q1 q2 < 0 ->
      Quat_near eps (Quat.Slerp InvSqrt q1 q2 1) (Quat.neg q2))
  /\ (forall t : R,
        Rabs (Quat.Size (Quat.Slerp InvSqrt q1 q2 t) - 1) <= eps)
  /\ (forall t : R,
        Quat.DOT_THRESHOLD <= Rabs (Quat.dot q1 q2) ->
        Quat_scalars (Quat.Slerp_NotNormalized q1 q2 t)
        = if decide (Quat.dot q1 q2 >= 0)
          then Quat_scalars
                 (Quat.add (Quat.scale q1 (1 - t)) (Quat.scale q2 t))
          else Quat_scalars
                 (Quat.sub (Quat.scale q1 (1 - t)) (Quat.scale q2 t))).
Proof.
  intros Hu1 Hu2. unfold Quat.Slerp.
  assert (Hneg : Quat.SizeSquared (Quat.neg q2) = 1).
  { unfold Quat.SizeSquared, Quat.neg in *. simpl. lra. }
  split; [|split; [|split; [|split]]].
  - eapply Quat_near_scalars;
      [apply GetNormalized_respects_scalars, Slerp_NotNormalized_0
      |reflexivity|].
    apply GetNormalized_unit_near. exact Hu1.
  - intros Hd.
    eapply Quat_near_scalars;
      [apply GetNormalized_respects_scalars; rewrite Slerp_NotNormalized_1;
       rewrite decide_True by exact Hd; reflexivity
      |reflexivity|].
    apply GetNormalized_unit_near. exact Hu2.
  - intros Hd.
    eapply Quat_near_scalars;
      [apply GetNormalized_respects_scalars; rewrite Slerp_NotNormalized_1;
       rewrite decide_False by lra; reflexivity
      |reflexivity|].
    apply GetNormalized_unit_near. exact Hneg.
  - intros t. apply GetNormalized_Size.
  - intros t. apply Slerp_NotNormalized_linear.
Qed.

End SlerpFacts.

(** [Slerp] at 0 and at 1 is the end point, scaled by what [InvSqrt]
    returns for its squared length. *)
Lemma Slerp_endpoint_scaled (InvSqrt : R -> R) (q1 q2 : Quat) :
  Quat.SizeSquared q1 = 1 -> Quat.SizeSquared q2 = 1 ->
  Quat_scalars (Quat.Slerp InvSqrt q1 q2 0)
  = Quat_scalars (Quat.scale q1 (InvSqrt 1))
  /\ Quat_scalars (Quat.Slerp InvSqrt q1 q2 1)
     = if decide (Quat.dot q1 q2 >= 0)
       then Quat_scalars (Quat.scale q2 (InvSqrt 1))
       else Quat_scalars (Quat.scale (Quat.neg q2) (InvSqrt 1)).
Proof.
  intros Hu1 Hu2. unfold Quat.Slerp.
  assert (Hneg : Quat.SizeSquared (Quat.neg q2) = 1).
  { unfold Quat.SizeSquared, Quat.neg in *. simpl. lra. }
  assert (Hn : forall q : Quat,
             Quat.SizeSquared q = 1 ->
             Quat_scalars (Quat.GetNormalized InvSqrt q SMALL_NUMBER)
             = Quat_scalars (Quat.scale q (InvSqrt 1))).
  { intros q Hq. rewrite GetNormalized_scalars, Hq.
    rewrite decide_True by (unfold SMALL_NUMBER; lra). reflexivity. }
  split.
  - rewrite (GetNormalized_respects_scalars InvSqrt _ q1)
      by apply Slerp_NotNormalized_0.
    apply Hn, Hu1.
  - case_decide as Hd.
    + rewrite (GetNormalized_respects_scalars InvSqrt _ q2)
        by (rewrite Slerp_NotNormalized_1, decide_True by exact Hd;
            reflexivity).
      apply Hn, Hu2.
    + rewrite (GetNormalized_respects_scalars InvSqrt _ (Quat.neg q2))
        by (rewrite Slerp_NotNormalized_1, decide_False by exact Hd;
            reflexivity).
      apply Hn, Hneg.
Qed.

(** C6, amended.  For unit quaternions [q1] and [q2]: [Slerp q1 q2 0] is
    [q1] scaled by [InvSqrt 1], a number between 0.9983 and 0.9984, so it
    is [q1] up to 0.00176 in every component; [Slerp q1 q2 1] is [q2]
    scaled likewise when the inner product is non-negative and [-q2] (the
    same rotation) scaled likewise when it is negative; the length of
    [Slerp q1 q2 t] is 1 up to 0.00176 for every [t]; and from the threshold
    0.9999 on, the value that is normalized is the linear blend, with [q2]
    negated when the inner product is negative. *)
Theorem Slerp_endpoints_and_length (q1 q2 : Quat) :
  Quat.SizeSquared q1 = 1 -> Quat.SizeSquared q2 = 1 ->
  9983 / 10000 < Math.InvSqrt 1 < 9984 / 10000
  /\ Quat_scalars (Quat.Slerp Math.InvSqrt q1 q2 0)
     = Quat_scalars (Quat.scale q1 (Math.InvSqrt 1))
  /\ Quat_near (176 / 100000) (Quat.Slerp Math.InvSqrt q1 q2 0) q1
  /\ (Quat.dot q1 q2 >= 0 ->
      Quat_scalars (Quat.Slerp Math.InvSqrt q1 q2 1)
      = Quat_scalars (Quat.scale q2 (Math.InvSqrt 1))
      /\ Quat_near (176 / 100000) (Quat.Slerp Math.InvSqrt q1 q2 1) q2)
  /\ (Quat.dot q1 q2 < 0 ->
      Quat_scalars (Quat.Slerp Math.InvSqrt q1 q2 1)
      = Quat_scalars (Quat.scale (Quat.neg q2) (Math.InvSqrt 1))
      /\ Quat_near (176 / 100000) (Quat.Slerp Math.InvSqrt q1 q2 1)
                   (Quat.neg q2))
  /\ (forall t : R,
        Rabs (Quat.Size (Quat.Slerp Math.InvSqrt q1 q2 t) - 1)
        <= 176 / 100000)
  /\ (forall t : R,
        Quat.DOT_THRESHOLD <= Rabs (Quat.dot q1 q2) ->
        Quat_scalars (Quat.Slerp_NotNormalized q1 q2 t)
        = if decide (Quat.dot q1 q2 >= 0)
          then Quat_scalars
                 (Quat.add (Quat.scale q1 (1 - t)) (Quat.scale q2 t))
          else Quat_scalars
                 (Quat.sub (Quat.scale q1 (1 - t)) (Quat.scale q2 t))).
Proof.
  intros Hu1 Hu2.
  destruct (Slerp_endpoints_generic Math.InvSqrt (176 / 100000)
              InvSqrt_relative_error q1 q2 Hu1 Hu2)
    as (H0 & H1 & H1' & Hlen & Hlin).
  destruct (Slerp_endpoint_scaled Math.InvSqrt q1 q2 Hu1 Hu2) as [Hs0 Hs1].
  split; [exact InvSqrt_1|]. split; [exact Hs0|]. split; [exact H0|].
  split; [|split; [|split; [exact Hlen | exact Hlin]]].
  - intros Hd. rewrite decide_True in Hs1 by exact Hd. auto.
  - intros Hd. rewrite decide_False in Hs1 by lra. auto.
Qed.

(** The theorem at two unit quaternions a quarter turn apart. *)
Lemma Slerp_endpoints_and_length_witness :
  Quat_near (176 / 100000)
    (Quat.Slerp Math.InvSqrt Quat.Identity (Quat.make 0 1 0 0) 0)
    Quat.Identity
  /\ Quat_near (176 / 100000)
       (Quat.Slerp Math.InvSqrt Quat.Identity (Quat.make 0 1 0 0) 1)
       (Quat.make 0 1 0 0).
Proof.
  assert (H1 : Quat.SizeSquared Quat.Identity = 1)
    by (unfold Quat.SizeSquared; simpl; ring).
  assert (H2 : Quat.SizeSquared (Quat.make 0 1 0 0) = 1)
    by (unfold Quat.SizeSquared; simpl; ring).
  destruct (Slerp_endpoints_and_length Quat.Identity (Quat.make 0 1 0 0)
              H1 H2) as (_ & _ & H0 & Hp & _).
  split; [exact H0|]. apply Hp. unfold Quat.dot. simpl. lra.
Defined.

(** C6, counterexample.  [Slerp] from [Identity] to a quarter turn, at
    [t = 0], is [Identity] scaled by [InvSqrt 1]: [Equals] with the
    library's tolerance tells it apart from [Identity].  And [Identity] and
    its opposite (-1, 0, 0, 0) are unit quaternions between which [Slerp]
    at [t = 1] is [Identity] scaled by [InvSqrt 1], which [Equals] does not
    take for the second argument even with the tolerance 1. *)
Lemma Slerp_endpoints_differ :
  Quat.SizeSquared Quat.Identity = 1
  /\ Quat.SizeSquared (Quat.make 0 1 0 0) = 1
  /\ Quat.SizeSquared (Quat.make (-1) 0 0 0) = 1
  /\ Quat.Equals
       (Quat.Slerp Math.InvSqrt Quat.Identity (Quat.make 0 1 0 0) 0)
       Quat.Identity KINDA_SMALL_NUMBER = false
  /\ Quat_scalars
       (Quat.Slerp Math.InvSqrt Quat.Identity (Quat.make (-1) 0 0 0) 1)
     = (Math.InvSqrt 1, 0, 0, 0)
  /\ Quat.Equals
       (Quat.Slerp Math.InvSqrt Quat.Identity (Quat.make (-1) 0 0 0) 1)
       (Quat.make (-1) 0 0 0) 1 = false.
Proof.
  assert (H1 : Quat.SizeSquared Quat.Identity = 1)
    by (unfold Quat.SizeSquared; simpl; ring).
  assert (H2 : Quat.SizeSquared (Quat.make 0 1 0 0) = 1)
    by (unfold Quat.SizeSquared; simpl; ring).
  assert (H3 : Quat.SizeSquared (Quat.make (-1) 0 0 0) = 1)
    by (unfold Quat.SizeSquared; simpl; ring).
  pose proof InvSqrt_1 as Hk.
  destruct (Slerp_endpoint_scaled Math.InvSqrt _ _ H1 H2) as [Ha _].
  destruct (Slerp_endpoint_scaled Math.InvSqrt _ _ H1 H3) as [_ Hb].
  rewrite decide_False in Hb by (unfold Quat.dot; simpl; lra).
  set (k := Math.InvSqrt 1) in *. clearbody k.
  set (S0 := Quat.Slerp Math.InvSqrt Quat.Identity (Quat.make 0 1 0 0) 0)
    in *.
  set (S1 := Quat.Slerp Math.InvSqrt Quat.Identity (Quat.make (-1) 0 0 0) 1)
    in *.
  clearbody S0 S1. unfold Quat_scalars, Quat.scale in Ha, Hb. simpl in Ha, Hb.
  injection Ha as Ha _ _ _. injection Hb as Hbw Hbx Hby Hbz.
  split; [exact H1|]. split; [exact H2|]. split; [exact H3|].
  split; [|split].
  - unfold Quat.Equals, Math.FloatEqual. rewrite Ha. simpl.
    rewrite bool_decide_eq_false_2; [reflexivity|].
    unfold KINDA_SMALL_NUMBER. rewrite Rabs_left; lra.
  - unfold Quat_scalars. rewrite Hbw, Hbx, Hby, Hbz.
    f_equal; [f_equal; [f_equal|]|]; ring.
  - unfold Quat.Equals, Math.FloatEqual. rewrite Hbw. simpl.
    rewrite bool_decide_eq_false_2; [reflexivity|].
    rewrite Rabs_right; lra.
Qed.

(** ** The synchronization protocol *)

Section ProtocolFacts.

Context {M44 : Matrix4x4}.

Variable InvSqrt : R -> R.

Lemma set_transform_lookup (a : addr) (T : Transform) (W : World) :
  transforms (set_transform a T W) !! a = Some T.
Proof. unfold set_transform. simpl. apply lookup_insert_eq. Qed.

Lemma set_transform_lookup_ne (a b : addr) (T : Transform) (W : World) :
  a <> b -> transforms (set_transform a T W) !! b = transforms W !! b.
Proof. intros H. unfold set_transform. simpl. apply lookup_insert_ne, H. Qed.

Lemma set_transform_twice (a : addr) (T1 T2 : Transform) (W : World) :
  set_transform a T2 (set_transform a T1 W) = set_transform a T2 W.
Proof. unfold set_transform. simpl. f_equal. apply insert_insert_eq. Qed.

(** Reading and writing the member [rotation] (or [rotator]) of an object
    that exists. *)
Lemma read_rotation (a : addr) (T : Transform) (W : World) :
  transforms W !! a = Some T -> read_quat W (RotationOf a) = Some (rotation T).
Proof. intros H. unfold read_quat. rewrite H. reflexivity. Qed.

Lemma write_rotation (a : addr) (T : Transform) (q : Quat) (W : World) :
  transforms W !! a = Some T ->
  write_quat (RotationOf a) q W = Some (set_transform a (with_rotation T q) W).
Proof. intros H. unfold write_quat. rewrite H. reflexivity. Qed.

Lemma read_rotator_member (a : addr) (T : Transform) (W : World) :
  transforms W !! a = Some T ->
  read_rotator W (RotatorOf a) = Some (rotator T).
Proof. intros H. unfold read_rotator. rewrite H. reflexivity. Qed.

Lemma write_rotator_member (a : addr) (T : Transform) (r : Rotator)
  (W : World) :
  transforms W !! a = Some T ->
  write_rotator (RotatorOf a) r W
  = Some (set_transform a (with_rotator T r) W).
Proof. intros H. unfold write_rotator. rewrite H. reflexivity. Qed.

(** [UpdateBoundTransform] called on the bound member of the object at
    [a]. *)
Lemma Quat_UpdateBoundTransform_member (a : addr) (T : Transform) (W : World) :
  transforms W !! a = Some T ->
  Quat_mp_BoundTransform (rotation T) = Some a ->
  Quat_UpdateBoundTransform (RotationOf a) W
  = Some (set_transform a (after_Quat_update T) W).
Proof.
  intros H Hb. unfold Quat_UpdateBoundTransform.
  rewrite (read_rotation a T W H). simpl. rewrite Hb, H. simpl.
  unfold UpdateMtx. rewrite set_transform_lookup. simpl.
  rewrite set_transform_twice. reflexivity.
Qed.

Lemma Rotator_UpdateBoundTransform_member (a : addr) (T : Transform)
  (W : World) :
  transforms W !! a = Some T ->
  Rotator_mp_BoundTransform (rotator T) = Some a ->
  Rotator_UpdateBoundTransform (RotatorOf a) W
  = Some (set_transform a (after_Rotator_update T) W).
Proof.
  intros H Hb. unfold Rotator_UpdateBoundTransform.
  rewrite (read_rotator_member a T W H). simpl. rewrite Hb, H. simpl.
  unfold UpdateMtx. rewrite set_transform_lookup. simpl.
  rewrite set_transform_twice. reflexivity.
Qed.

(** A member that writes the fields [q'] into the bound [rotation] and then
    calls [UpdateBoundTransform]. *)
Lemma write_then_Quat_update (a : addr) (T : Transform) (q' : Quat)
  (W : World) :
  transforms W !! a = Some T ->
  Quat_mp_BoundTransform q' = Some a ->
  (W1 ← write_quat (RotationOf a) q' W;
   Quat_UpdateBoundTransform (RotationOf a) W1)
  = Some (set_transform a (after_Quat_update (with_rotation T q')) W).
Proof.
  intros H Hb. rewrite (write_rotation a T q' W H). cbn [mbind option_bind].
  rewrite (Quat_UpdateBoundTransform_member a (with_rotation T q'));
    [|apply set_transform_lookup|exact Hb].
  rewrite set_transform_twice. reflexivity.
Qed.

Lemma write_then_Rotator_update (a : addr) (T : Transform) (r' : Rotator)
  (W : World) :
  transforms W !! a = Some T ->
  Rotator_mp_BoundTransform r' = Some a ->
  (W1 ← write_rotator (RotatorOf a) r' W;
   Rotator_UpdateBoundTransform (RotatorOf a) W1)
  = Some (set_transform a (after_Rotator_update (with_rotator T r')) W).
Proof.
  intros H Hb. rewrite (write_rotator_member a T r' W H).
  cbn [mbind option_bind].
  rewrite (Rotator_UpdateBoundTransform_member a (with_rotator T r'));
    [|apply set_transform_lookup|exact Hb].
  rewrite set_transform_twice. reflexivity.
Qed.

(** The state an update leaves is synchronized, still bound, and has sent
    one more notification. *)
Lemma after_Quat_update_synced (a : addr) (T : Transform) :
  Transform_bound a T ->
  synced_from_quat (after_Quat_update T)
  /\ Transform_bound a (after_Quat_update T)
  /\ rotation (after_Quat_update T) = rotation T
  /\ notified (after_Quat_update T) = S (notified T)
  /\ position (after_Quat_update T) = position T
  /\ scale (after_Quat_update T) = scale T.
Proof.
  intros [Hq Hr]. unfold synced_from_quat, Transform_bound, after_Quat_update,
    UpdateMtx_fields. simpl. auto 10.
Qed.

Lemma after_Rotator_update_synced (a : addr) (T : Transform) :
  Transform_bound a T ->
  synced_from_rotator (after_Rotator_update T)
  /\ Transform_bound a (after_Rotator_update T)
  /\ rotator (after_Rotator_update T) = rotator T
  /\ notified (after_Rotator_update T) = S (notified T)
  /\ position (after_Rotator_update T) = position T
  /\ scale (after_Rotator_update T) = scale T.
Proof.
  intros [Hq Hr]. unfold synced_from_rotator, Transform_bound,
    after_Rotator_update, UpdateMtx_fields. simpl. auto 10.
Qed.

(** A member of [Quat] that writes the fields [q'] and calls
    [UpdateBoundTransform], on the [rotation] of a [Transform]. *)
Lemma Quat_write_update_synchronizes (a : addr) (T : Transform) (q' : Quat)
  (W : World) :
  transforms W !! a = Some T ->
  Transform_bound a T ->
  Quat_mp_BoundTransform q' = Some a ->
  exists T' : Transform,
    (W1 ← write_quat (RotationOf a) q' W;
     Quat_UpdateBoundTransform (RotationOf a) W1)
    = Some (set_transform a T' W)
    /\ rotation T' = q'
    /\ synced_from_quat T'
    /\ Transform_bound a T'
    /\ notified T' = S (notified T)
    /\ position T' = position T /\ scale T' = scale T.
Proof.
  intros H [Hbq Hbr] Hq'.
  exists (after_Quat_update (with_rotation T q')).
  split; [apply write_then_Quat_update; assumption|].
  destruct (after_Quat_update_synced a (with_rotation T q'))
    as (Hs & Hbd & Hrot & Hn & Hp & Hsc); [split; assumption|].
  rewrite Hrot, Hn, Hp, Hsc. repeat split; try apply Hs; apply Hbd.
Qed.

(** The members of [Quat] that end in [UpdateBoundTransform], called on the
    [rotation] of a [Transform]: the quaternion gets its new value, the
    rotator becomes its conversion, the matrix is recomposed from the
    rotator's matrix, and the observers are notified. *)
Lemma QuatMutation_synchronizes (op : QuatMutation) (a : addr)
  (T : Transform) (W : World) :
  transforms W !! a = Some T ->
  Transform_bound a T ->
  exists T' : Transform,
    run_QuatMutation op (RotationOf a) W = Some (set_transform a T' W)
    /\ Quat_scalars (rotation T') = QuatMutation_result op (rotation T)
    /\ synced_from_quat T'
    /\ Transform_bound a T'
    /\ (notified T < notified T')%nat
    /\ position T' = position T /\ scale T' = scale T.
Proof.
  intros H Hb. pose proof Hb as [Hbq Hbr].
  assert (Hsimple : forall q' : Quat,
    Quat_mp_BoundTransform q' = Some a ->
    exists T' : Transform,
      (W1 ← write_quat (RotationOf a) q' W;
       Quat_UpdateBoundTransform (RotationOf a) W1)
      = Some (set_transform a T' W)
      /\ Quat_scalars (rotation T') = Quat_scalars q'
      /\ synced_from_quat T'
      /\ Transform_bound a T'
      /\ (notified T < notified T')%nat
      /\ position T' = position T /\ scale T' = scale T).
  { intros q' Hq'.
    destruct (Quat_write_update_synchronizes a T q' W H Hb Hq')
      as (T' & Hrun & Hrot & Hs & Hbd & Hn & Hp & Hsc).
    exists T'. rewrite Hrot, Hn. repeat split; try assumption;
      try apply Hs; try apply Hbd. lia. }
  destruct op as [q|q|q|q|s|s];
    cbn [run_QuatMutation QuatMutation_result];
    unfold Quat_assign, Quat_add_assign, Quat_sub_assign, Quat_mul_assign,
      Quat_scale_assign, Quat_div_assign;
    rewrite (read_rotation a T W H); cbn [mbind option_bind].
  - apply (Hsimple (Quat.assign_fields (rotation T) q)). exact Hbq.
  - apply (Hsimple (Quat.add_assign_fields (rotation T) q)). exact Hbq.
  - apply (Hsimple (Quat.sub_assign_fields (rotation T) q)). exact Hbq.
  - (* operator*=(const Quat&): the assignment, then one more update *)
    unfold Quat_assign.
    rewrite (read_rotation a T W H). cbn [mbind option_bind].
    destruct (Quat_write_update_synchronizes a T
                (Quat.assign_fields (rotation T) (Quat.mul (rotation T) q))
                W H Hb Hbq)
      as (T1 & Hrun & Hrot1 & Hs1 & Hbd1 & Hn1 & Hp1 & Hsc1).
    rewrite Hrun. cbn [mbind option_bind].
    rewrite (Quat_UpdateBoundTransform_member a T1);
      [|apply set_transform_lookup|apply Hbd1].
    rewrite set_transform_twice.
    exists (after_Quat_update T1). split; [reflexivity|].
    destruct (after_Quat_update_synced a T1 Hbd1)
      as (Hs2 & Hbd2 & Hrot2 & Hn2 & Hp2 & Hsc2).
    rewrite Hrot2, Hrot1, Hn2, Hn1, Hp2, Hsc2.
    repeat split; try apply Hs2; try apply Hbd2; try assumption. lia.
  - apply (Hsimple (Quat.scale_assign_fields (rotation T) s)). exact Hbq.
  - apply (Hsimple (Quat.div_assign_fields (rotation T) s)). exact Hbq.
Qed.

(** The same for the members of [Rotator], called on the [rotator] of a
    [Transform]. *)
Lemma RotatorMutation_synchronizes (op : RotatorMutation) (a : addr)
  (T : Transform) (W : World) :
  transforms W !! a = Some T ->
  Transform_bound a T ->
  exists T' : Transform,
    run_RotatorMutation op (RotatorOf a) W = Some (set_transform a T' W)
    /\ Rotator_scalars (rotator T') = RotatorMutation_result op (rotator T)
    /\ synced_from_rotator T'
    /\ Transform_bound a T'
    /\ (notified T < notified T')%nat
    /\ position T' = position T /\ scale T' = scale T.
Proof.
  intros H Hb. pose proof Hb as [Hbq Hbr].
  assert (Hsimple : forall r' : Rotator,
    Rotator_mp_BoundTransform r' = Some a ->
    exists T' : Transform,
      (W1 ← write_rotator (RotatorOf a) r' W;
       Rotator_UpdateBoundTransform (RotatorOf a) W1)
      = Some (set_transform a T' W)
      /\ Rotator_scalars (rotator T') = Rotator_scalars r'
      /\ synced_from_rotator T'
      /\ Transform_bound a T'
      /\ (notified T < notified T')%nat
      /\ position T' = position T /\ scale T' = scale T).
  { intros r' Hr'.
    exists (after_Rotator_update (with_rotator T r')).
    split; [apply write_then_Rotator_update; assumption|].
    destruct (after_Rotator_update_synced a (with_rotator T r'))
      as (Hs & Hbd & Hrot & Hn & Hp & Hsc); [split; assumption|].
    rewrite Hrot, Hn, Hp, Hsc.
    repeat split; try apply Hs; try apply Hbd. simpl. lia. }
  destruct op as [r|r|r|s|dp dy dr];
    cbn [run_RotatorMutation RotatorMutation_result];
    unfold Rotator_assign, Rotator_add_assign, Rotator_sub_assign,
      Rotator_scale_assign, Rotator_Add;
    rewrite (read_rotator_member a T W H); cbn [mbind option_bind].
  - apply (Hsimple (Rotator.assign_fields (rotator T) r)). exact Hbr.
  - apply (Hsimple (Rotator.add_assign_fields (rotator T) r)). exact Hbr.
  - apply (Hsimple (Rotator.sub_assign_fields (rotator T) r)). exact Hbr.
  - apply (Hsimple (Rotator.scale_assign_fields (rotator T) s)). exact Hbr.
  - apply (Hsimple (Rotator.Add_fields (rotator T) dp dy dr)). exact Hbr.
Qed.

End ProtocolFacts.

Section ProtocolGaps.

Context {M44 : Matrix4x4}.

Variable InvSqrt : R -> R.

Lemma Transform_construct_result (a : addr) (W : World) :
  Transform_construct a W = Some (set_transform a (Transform_fresh a) W).
Proof.
  unfold Transform_construct, UpdateMtx. rewrite set_transform_lookup.
  cbn [mbind option_bind]. rewrite set_transform_twice. reflexivity.
Qed.

Lemma Transform_fresh_bound (a : addr) : Transform_bound a (Transform_fresh a).
Proof. split; reflexivity. Qed.

(** [GetRotator] reads the four scalars only. *)
Lemma GetRotator_respects_scalars (p q : Quat) :
  Quat_scalars p = Quat_scalars q -> Quat.GetRotator p = Quat.GetRotator q.
Proof.
  unfold Quat_scalars. intros H. injection H as Hw Hx Hy Hz.
  unfold Quat.GetRotator. rewrite Hw, Hx, Hy, Hz. reflexivity.
Qed.

(** [Quat::Normalize] on the bound [rotation], first branch: the four
    scalars are scaled; the rotator, the matrix and the notification count
    of the owner stay as they were. *)
Lemma Quat_Normalize_no_update (a : addr) (T : Transform) (tolerance : R)
  (W : World) :
  transforms W !! a = Some T ->
  Quat.SizeSquared (rotation T) >= tolerance ->
  Quat_Normalize InvSqrt (RotationOf a) tolerance W
  = Some (set_transform a
            (with_rotation T
               (Quat.scale_assign_fields (rotation T)
                  (InvSqrt (Quat.SizeSquared (rotation T))))) W).
Proof.
  intros H Hge. unfold Quat_Normalize.
  rewrite (read_rotation a T W H). cbn [mbind option_bind].
  unfold Quat.SizeSquared in Hge. rewrite decide_True by exact Hge.
  apply (write_rotation a T _ W H).
Qed.

(** [Rotator::Normalize] and [Rotator::Clamp] on the bound [rotator]: the
    quaternion and the matrix of the owner stay as they were. *)
Lemma Rotator_Normalize_no_update (a : addr) (T : Transform) (W : World) :
  transforms W !! a = Some T ->
  Rotator_Normalize (RotatorOf a) W
  = Some (set_transform a
            (with_rotator T (Rotator.Normalize_fields (rotator T))) W)
  /\ Rotator_Clamp (RotatorOf a) W
     = Some (set_transform a
               (with_rotator T (Rotator.Clamp_fields (rotator T))) W).
Proof.
  intros H. unfold Rotator_Normalize, Rotator_Clamp.
  rewrite (read_rotator_member a T W H). cbn [mbind option_bind].
  split; apply (write_rotator_member a T _ W H).
Qed.

(** A member of [Rotator] that ends in [UpdateBoundTransform], called on a
    variable that holds a pointer to the [Transform] at [a]: the variable
    gets the new fields, and the owner's [rotation] is overwritten from the
    variable, while the owner's own [rotator] is not touched. *)
Lemma Rotator_add_assign_bound_variable (n : nat) (a : addr) (r d : Rotator)
  (T : Transform) (W : World) :
  rotators W !! n = Some r ->
  Rotator_mp_BoundTransform r = Some a ->
  transforms W !! a = Some T ->
  let r' := Rotator.add_assign_fields r d in
  let tmp := Rotator.Quaternion r' in
  let T' :=
    UpdateMtx_fields
      (with_rotation T
         (mkQuat (w tmp) (x tmp) (y tmp) (z tmp)
                 (Quat_mp_BoundTransform (rotation T)))) in
  Rotator_add_assign (RotatorVar n) d W
  = Some (set_transform a T'
            (mkWorld (transforms W) (quats W) (<[n := r']> (rotators W)))).
Proof.
  intros Hr Hb HT. cbv zeta.
  unfold Rotator_add_assign, read_rotator, write_rotator.
  rewrite Hr. cbn [mbind option_bind].
  unfold Rotator_UpdateBoundTransform, read_rotator. cbn [rotators].
  rewrite lookup_insert_eq. cbn [mbind option_bind].
  cbn [Rotator.add_assign_fields Rotator_mp_BoundTransform].
  rewrite Hb. cbn [transforms]. rewrite HT. cbn [mbind option_bind].
  unfold UpdateMtx. rewrite set_transform_lookup. cbn [mbind option_bind].
  rewrite set_transform_twice. reflexivity.
Qed.

End ProtocolGaps.

(** ** Serialization *)

Section SerializationFacts.

Context {M44 : Matrix4x4} {FT : FloatText} {CB : ComponentBase}.

(** Reading a line and seeking back to where [tellg] was asked leaves the
    stream at the position it had, whatever state it was in. *)
Lemma seekg_after_getline (file : istream) (input : string) :
  let '(file1, t) := tellg file in
  let '(file2, _) := getline file1 input "010"%char in
  pos (seekg file2 t) = pos file
  /\ content (seekg file2 t) = content file.
Proof.
  unfold tellg. destruct (good file) eqn:Hg.
  - unfold getline. rewrite Hg.
    destruct (string_until "010" (string_drop (pos file) (content file)))
      as [line found].
    destruct found; simpl.
    + split; reflexivity.
    + unfold seekg. simpl. destruct (is_empty line) eqn:He; simpl.
      * destruct line; [|discriminate]. simpl. split; [lia|reflexivity].
      * split; reflexivity.
  - unfold getline, set_failbit, good. simpl.
    rewrite andb_false_r. simpl. split; reflexivity.
Qed.

(** The legacy path of [Deserialize]: no label, so the stream is put back
    and the state is returned as it is. *)
Lemma Deserialize_rotation_legacy (a : addr) (file : istream)
  (input : string) (W : World) :
  rotation_label file input <> "ROTATION:"%string ->
  exists file' : istream,
    Deserialize_rotation a file input W = Some (W, file')
    /\ pos file' = pos file /\ content file' = content file.
Proof.
  intros Hl. pose proof (seekg_after_getline file input) as Hseek.
  unfold Deserialize_rotation, rotation_label, rotation_line in *.
  destruct (tellg file) as [file1 t]. simpl in Hl.
  destruct (getline file1 input "010") as [file2 line]. simpl in Hl.
  destruct (extract_word (istringstream line) "") as [iss tmp].
  simpl in Hl. rewrite decide_True by exact Hl.
  exists (seekg file2 t). split; [reflexivity|exact Hseek].
Qed.

(** The first part of [Deserialize] writes the tag, the position and the
    scale only. *)
Lemma Deserialize_fields_keeps_rotation (a : addr) (file file1 : istream)
  (input input1 : string) (W W1 : World) :
  Deserialize_fields a file input W = Some (W1, file1, input1) ->
  exists T T1 : Transform,
    transforms W !! a = Some T /\ transforms W1 !! a = Some T1
    /\ rotation T1 = rotation T /\ rotator T1 = rotator T
    /\ mtx T1 = mtx T /\ notified T1 = notified T.
Proof.
  unfold Deserialize_fields. intros H.
  destruct (transforms W !! a) as [T|] eqn:HT; [|discriminate].
  cbn [mbind option_bind] in H.
  repeat match type of H with
         | context [getline ?f ?i ?c] =>
             destruct (getline f i c) as [? ?]
         end.
  repeat match type of H with
         | context [stof ?i] =>
             destruct (stof i) as [?|]; [|discriminate];
             cbn [mbind option_bind] in H
         end.
  injection H as <- _ _.
  eexists _, _. split; [reflexivity|].
  split; [apply set_transform_lookup|]. simpl. auto.
Qed.

End SerializationFacts.

Section SerializationClaims.

Context {M44 : Matrix4x4} {FT : FloatText} {CB : ComponentBase}.

(** [Serialize] ends the text of a [Transform] with the rotation line, the
    three angles of the rotator separated by single spaces. *)
Lemma Serialize_rotation_line (T : Transform) (file : string) :
  exists before : string,
    Serialize T file
    = Component_Serialize
        ((before
          +:+ "ROTATION: " +:+ show_float (pitch (rotator T)) +:+ " "
          +:+ show_float (yaw (rotator T)) +:+ " "
          +:+ show_float (roll (rotator T))) +:+ newline).
Proof. unfold Serialize. eexists. reflexivity. Qed.

End SerializationClaims.

(** ** Further properties of the value types *)

Section ValueFacts.

(** [RotateVector] does not see the sign of the quaternion. *)
Lemma RotateVector_respects_sign (p q : Quat) (v : Vec3) :
  Quat_scalars p = Quat_scalars q
  \/ Quat_scalars p = Quat_scalars (Quat.neg q) ->
  Quat.RotateVector p v = Quat.RotateVector q v.
Proof.
  unfold Quat_scalars.
  intros [H|H]; injection H as Hw Hx Hy Hz;
    unfold Quat.RotateVector; cbv zeta; rewrite Hw, Hx, Hy, Hz;
    apply Vec3_eq; simpl; ring.
Qed.

(** A unit quaternion outside the singular band, converted to a rotator and
    back, rotates every vector as before. *)
Theorem GetRotator_Quaternion_rotates_alike (q : Quat) (v : Vec3) :
  Quat.SizeSquared q = 1 ->
  Rabs (z q * x q - w q * y q) <= Quat.SINGULARITY_THRESHOLD ->
  Quat.RotateVector (Rotator.Quaternion (Quat.GetRotator q)) v
  = Quat.RotateVector q v.
Proof.
  intros Hu Hs. apply RotateVector_respects_sign.
  apply Quaternion_GetRotator; assumption.
Qed.

Lemma Rtrunc_IZR (k : Z) : Rtrunc (IZR k) = k.
Proof.
  unfold Rtrunc. case_decide.
  - symmetry. apply Int_part_spec. lra.
  - rewrite <- opp_IZR.
    rewrite <- (Int_part_spec (IZR (- k)) (- k)%Z) by lra. lia.
Qed.

Lemma NormalizeAxis_full_turns (k : Z) :
  Rotator.NormalizeAxis (360 * IZR k) = 0.
Proof.
  unfold Rotator.NormalizeAxis, fmodf. cbv zeta.
  replace (360 * IZR k / 360) with (IZR k) by field.
  rewrite Rtrunc_IZR.
  replace (360 * IZR k - IZR k * 360) with 0 by ring.
  repeat case_decide; lra.
Qed.

Lemma ClampAxis_full_turns (k : Z) :
  Rotator.ClampAxis (360 * IZR k) = 0.
Proof.
  unfold Rotator.ClampAxis, fmodf. cbv zeta.
  replace (360 * IZR k / 360) with (IZR k) by field.
  rewrite Rtrunc_IZR.
  replace (360 * IZR k - IZR k * 360) with 0 by ring.
  repeat case_decide; lra.
Qed.

(** Under [Equals], a rotator is equal to itself with any whole number of
    turns added to each component; a rotator of whole turns is zero for
    [IsNearlyZero] and for [IsZero]. *)
Theorem Equals_full_turns (r : Rotator) (kp ky kr : Z) (tolerance : R) :
  0 <= tolerance ->
  Rotator.Equals
    (Rotator.make (pitch r + 360 * IZR kp) (yaw r + 360 * IZR ky)
                  (roll r + 360 * IZR kr))
    r tolerance = true
  /\ Rotator.IsNearlyZero
       (Rotator.make (360 * IZR kp) (360 * IZR ky) (360 * IZR kr))
       tolerance = true
  /\ Rotator.IsZero
       (Rotator.make (360 * IZR kp) (360 * IZR ky) (360 * IZR kr)) = true.
Proof.
  intros Ht. unfold Rotator.Equals, Rotator.IsNearlyZero, Rotator.IsZero.
  simpl.
  replace (pitch r + 360 * IZR kp - pitch r) with (360 * IZR kp) by ring.
  replace (yaw r + 360 * IZR ky - yaw r) with (360 * IZR ky) by ring.
  replace (roll r + 360 * IZR kr - roll r) with (360 * IZR kr) by ring.
  rewrite !NormalizeAxis_full_turns, !ClampAxis_full_turns, Rabs_R0.
  rewrite bool_decide_eq_true_2 by exact Ht.
  rewrite bool_decide_eq_true_2 by reflexivity. auto.
Qed.

(** [Normalize] as the source has it, with [Math::InvSqrt]: a quaternion
    whose squared length reaches the (positive) tolerance is scaled by a
    positive number and gets a squared length between 0.996498 and 1, so
    that [IsNormalized] holds for it, although the length 1 itself is not
    guaranteed; any other becomes the identity; the pointer stays. *)
Theorem Normalize_fields_accurate (q : Quat) (tolerance : R) :
  0 < tolerance ->
  let n := Quat.Normalize_fields Math.InvSqrt q tolerance in
  (Quat.SizeSquared q >= tolerance ->
   Quat_scalars n
   = Quat_scalars (Quat.scale q (Math.InvSqrt (Quat.SizeSquared q)))
   /\ 0 < Math.InvSqrt (Quat.SizeSquared q)
   /\ 996498 / 1000000 <= Quat.SizeSquared n <= 1
   /\ Quat.IsNormalized n = true)
  /\ (Quat.SizeSquared q < tolerance
      -> Quat_scalars n = Quat_scalars Quat.Identity)
  /\ Quat_mp_BoundTransform n = Quat_mp_BoundTransform q.
Proof.
  intros Ht. cbv zeta. unfold Quat.Normalize_fields. cbv zeta.
  fold (Quat.SizeSquared q).
  set (s := Quat.SizeSquared q).
  case_decide as Hd; simpl; (split; [|split]); try reflexivity;
    try (intros; lra).
  intros _.
  assert (Hs : 0 < s) by lra.
  destruct (InvSqrt_square_bounds s Hs) as [Hk Hb].
  set (k := Math.InvSqrt s) in *.
  assert (Hn : Quat.SizeSquared
                 (mkQuat (w q * k) (x q * k) (y q * k) (z q * k)
                         (Quat_mp_BoundTransform q))
               = k * k * s).
  { unfold s, Quat.SizeSquared. simpl. ring. }
  split; [reflexivity|]. split; [exact Hk|].
  rewrite IsNormalized_true, Hn. split; [exact Hb|].
  apply Rabs_def1; lra.
Qed.

End ValueFacts.

(** The quaternion (1/2, 1/2, 1/2, 1/2), a third of a turn about a
    diagonal, which takes (1, 2, 3) to (3, 1, 2). *)
Lemma GetRotator_Quaternion_rotates_alike_witness :
  Quat.RotateVector
    (Rotator.Quaternion
       (Quat.GetRotator (Quat.make (1 / 2) (1 / 2) (1 / 2) (1 / 2))))
    (Vector3D.mk 1 2 3)
  = Vector3D.mk 3 1 2.
Proof.
  rewrite (GetRotator_Quaternion_rotates_alike
             (Quat.make (1 / 2) (1 / 2) (1 / 2) (1 / 2))
             (Vector3D.mk 1 2 3)).
  - unfold Quat.RotateVector. cbv zeta. apply Vec3_eq; simpl; lra.
  - unfold Quat.SizeSquared. simpl. lra.
  - simpl.
    replace (1 / 2 * (1 / 2) - 1 / 2 * (1 / 2)) with 0 by ring.
    rewrite Rabs_R0. unfold Quat.SINGULARITY_THRESHOLD. lra.
Defined.

(** (0, 0, 360) and (0, 0, 0), the example of Rotator.h. *)
Lemma Equals_full_turns_witness :
  Rotator.Equals
    (Rotator.make (0 + 360 * IZR 0) (0 + 360 * IZR 0) (0 + 360 * IZR 1))
    (Rotator.make 0 0 0) KINDA_SMALL_NUMBER = true.
Proof.
  destruct (Equals_full_turns (Rotator.make 0 0 0) 0 0 1
              KINDA_SMALL_NUMBER) as [H _].
  - unfold KINDA_SMALL_NUMBER. lra.
  - exact H.
Defined.

(** The value at 4, the bit pattern [0x40800000]. *)
Lemma InvSqrt_4 : 49915 / 100000 < Math.InvSqrt 4 < 49916 / 100000.
Proof.
  unfold Math.InvSqrt, Math.float_to_bits, Math.float_exponent. cbv zeta.
  assert (Hl : ln 4 / ln 2 = 2).
  { replace 4 with (2 * 2) by ring. rewrite ln_mult by lra.
    field. apply Rgt_not_eq, ln_2_pos. }
  rewrite Hl.
  assert (H2 : Int_part 2 = 2%Z).
  { symmetry. apply Int_part_spec. simpl. lra. }
  assert (H0 : Int_part 0 = 0%Z).
  { symmetry. apply Int_part_spec. simpl. lra. }
  rewrite H2. simpl powerRZ.
  replace ((4 * / (2 * (2 * 1)) - 1) * 8388608) with 0 by field.
  rewrite H0. unfold Math.bits_to_float.
  set (i := (0x5f3759df - Z.shiftr ((2 + 127) * 2 ^ 23 + 0) 1)%Z).
  assert (Hq : (i / 2 ^ 23 - 127 = -2)%Z) by (vm_compute; reflexivity).
  assert (Hr : (i mod 2 ^ 23 = 7821791)%Z) by (vm_compute; reflexivity).
  rewrite Hq, Hr. simpl powerRZ. lra.
Qed.

(** (2, 0, 0, 0) is normalized to (0.9983..., 0, 0, 0). *)
Lemma Normalize_fields_accurate_witness :
  9983 / 10000
  < w (Quat.Normalize_fields Math.InvSqrt (Quat.make 2 0 0 0) SMALL_NUMBER)
  < 9984 / 10000
  /\ Quat.IsNormalized
       (Quat.Normalize_fields Math.InvSqrt (Quat.make 2 0 0 0) SMALL_NUMBER)
     = true.
Proof.
  destruct (Normalize_fields_accurate (Quat.make 2 0 0 0) SMALL_NUMBER)
    as [H _].
  - unfold SMALL_NUMBER. lra.
  - destruct H as (Hs & _ & _ & Hn).
    + unfold Quat.SizeSquared, SMALL_NUMBER. simpl. lra.
    + split; [|exact Hn].
      unfold Quat_scalars in Hs. injection Hs as Hw _ _ _. rewrite Hw.
      unfold Quat.SizeSquared. simpl.
      replace (2 * 2 + 0 * 0 + 0 * 0 + 0 * 0) with 4 by ring.
      pose proof InvSqrt_4. lra.
Defined.

(** ** Where the protocol is broken *)

Section ProtocolFailures.

Context {M44 : Matrix4x4}.

Variable InvSqrt : R -> R.

Lemma asin_half : asin (1 / 2) = PI / 6.
Proof.
  rewrite <- sin_PI6. apply asin_sin. pose proof PI_RGT_0. lra.
Qed.

(** The pitch that [GetRotator] gives (s/2, 0, -s/2, 0) is 30 only for
    [s * s = 1]. *)
Lemma GetRotator_pitch_scaled (q : Quat) (s : R) :
  Quat_scalars q = (1 / 2 * s, 0 * s, - (1 / 2) * s, 0 * s) ->
  pitch (Quat.GetRotator q) = 30 -> s * s = 1.
Proof.
  intros Hq. unfold Quat_scalars in Hq. injection Hq as Hw Hx Hy Hz.
  unfold Quat.GetRotator, Quat.SINGULARITY_THRESHOLD. cbv zeta.
  rewrite Hw, Hx, Hy, Hz.
  replace (0 * s * (0 * s) - 1 / 2 * s * (- (1 / 2) * s)) with (s * s / 4)
    by field.
  repeat case_decide; simpl; intros Hp; try lra.
  assert (Ha : asin (2 * (s * s / 4)) = PI / 6).
  { unfold RAD2DEG, OVERPI in Hp. pose proof PI_RGT_0 as Hpi.
    apply (Rmult_eq_reg_r (180 / PI)); [|apply Rgt_not_eq;
      apply Rdiv_lt_0_compat; lra].
    rewrite Hp. field. lra. }
  apply (f_equal sin) in Ha. rewrite sin_asin, sin_PI6 in Ha by lra. lra.
Qed.

(** C1, at the failing input.  A [Transform] is constructed, its [rotation]
    is assigned (0.5, 0, -0.5, 0), which the rotator follows with pitch 30,
    and [rotation.Normalize()] is called.  The quaternion is scaled by
    [InvSqrt 0.5], but the owner is not updated: its rotator still has pitch
    30, which is not what the quaternion it holds now converts to (as soon
    as [InvSqrt 0.5] is not 1 or -1), its matrix is the one from before the
    call, and no notification was sent. *)
Theorem Normalize_leaves_rotator_stale :
  InvSqrt (1 / 2) * InvSqrt (1 / 2) <> 1 ->
  exists (W2 W3 : World) (T2 T3 : Transform),
    (W1 ← Transform_construct 0%nat World_empty;
     Quat_assign (RotationOf 0%nat) (Quat.make (1 / 2) 0 (- (1 / 2)) 0) W1)
    = Some W2
    /\ transforms W2 !! 0%nat = Some T2
    /\ synced_from_quat T2
    /\ Quat_Normalize InvSqrt (RotationOf 0%nat) SMALL_NUMBER W2 = Some W3
    /\ transforms W3 !! 0%nat = Some T3
    /\ Quat_scalars (rotation T3)
       = Quat_scalars (Quat.scale (Quat.make (1 / 2) 0 (- (1 / 2)) 0)
                                  (InvSqrt (1 / 2)))
    /\ pitch (rotator T3) = 30
    /\ pitch (Quat.GetRotator (rotation T3)) <> 30
    /\ ~ synced_from_quat T3
    /\ mtx T3 = mtx T2
    /\ notified T3 = notified T2.
Proof.
  intros Hk.
  rewrite Transform_construct_result. cbn [mbind option_bind].
  unfold Quat_assign.
  rewrite (read_rotation 0%nat (Transform_fresh 0%nat))
    by apply set_transform_lookup.
  cbn [mbind option_bind].
  destruct (Quat_write_update_synchronizes 0%nat (Transform_fresh 0%nat)
              (Quat.assign_fields (rotation (Transform_fresh 0%nat))
                 (Quat.make (1 / 2) 0 (- (1 / 2)) 0))
              (set_transform 0%nat (Transform_fresh 0%nat) World_empty)
              (set_transform_lookup _ _ _) (Transform_fresh_bound 0%nat)
              eq_refl)
    as (T2 & Hrun & Hrot & Hsync & Hbd & _).
  assert (Hq : Quat_scalars (rotation T2)
               = Quat_scalars (Quat.make (1 / 2) 0 (- (1 / 2)) 0))
    by (rewrite Hrot; reflexivity).
  clear Hrot. rewrite set_transform_twice in Hrun.
  set (W2 := set_transform 0%nat T2 World_empty) in *.
  assert (HT2 : transforms W2 !! 0%nat = Some T2)
    by apply set_transform_lookup.
  assert (Hss : Quat.SizeSquared (rotation T2) = 1 / 2).
  { unfold Quat.SizeSquared. unfold Quat_scalars in Hq.
    injection Hq as -> -> -> ->. simpl. field. }
  assert (Hge : Quat.SizeSquared (rotation T2) >= SMALL_NUMBER)
    by (rewrite Hss; unfold SMALL_NUMBER; lra).
  pose proof (Quat_Normalize_no_update InvSqrt 0%nat T2 SMALL_NUMBER
                W2 HT2 Hge) as Hnorm.
  rewrite Hss in Hnorm.
  set (T3 := with_rotation T2
               (Quat.scale_assign_fields (rotation T2) (InvSqrt (1 / 2))))
    in *.
  exists W2, (set_transform 0%nat T3 W2), T2, T3.
  assert (Hq3 : Quat_scalars (rotation T3)
                = Quat_scalars (Quat.scale (Quat.make (1 / 2) 0 (- (1 / 2)) 0)
                                           (InvSqrt (1 / 2)))).
  { unfold Quat_scalars in Hq. injection Hq as Hw Hx Hy Hz.
    unfold T3, Quat_scalars. simpl. rewrite Hw, Hx, Hy, Hz. reflexivity. }
  assert (Hp2 : pitch (rotator T2) = 30).
  { destruct Hsync as [Hr _].
    rewrite (GetRotator_respects_scalars _ _ Hq) in Hr.
    unfold Rotator_scalars in Hr. injection Hr as Hp _ _. rewrite Hp.
    unfold Quat.GetRotator, Quat.SINGULARITY_THRESHOLD. cbv zeta. simpl.
    repeat case_decide; try lra. simpl.
    replace (2 * (0 * 0 - 1 / 2 * - (1 / 2))) with (1 / 2) by field.
    rewrite asin_half. unfold RAD2DEG, OVERPI. field. apply PI_neq0. }
  assert (Hp3 : pitch (Quat.GetRotator (rotation T3)) <> 30).
  { intros Hp. apply Hk.
    apply (GetRotator_pitch_scaled (rotation T3)); [|exact Hp].
    rewrite Hq3. reflexivity. }
  split; [exact Hrun|]. split; [exact HT2|]. split; [exact Hsync|].
  split; [exact Hnorm|]. split; [apply set_transform_lookup|].
  split; [exact Hq3|]. split; [exact Hp2|]. split; [exact Hp3|].
  split; [|split; reflexivity].
  intros [Hr _].
  pose proof (f_equal (fun t : R * R * R => fst (fst t)) Hr) as Hp.
  change (pitch (rotator T2) = pitch (Quat.GetRotator (rotation T3))) in Hp.
  rewrite Hp2 in Hp. apply Hp3. symmetry. exact Hp.
Qed.

(** The copy constructor of [Quat] copies the scalars and leaves the copy
    unbound, whatever the source is bound to. *)
Lemma Quat_copy_unbound (q : Quat) :
  Quat_scalars (Quat.copy q) = Quat_scalars q
  /\ Quat_mp_BoundTransform (Quat.copy q) = None.
Proof. split; reflexivity. Qed.

(** Assignment to a variable keeps the variable's own pointer, whatever the
    source is bound to. *)
Lemma assign_fields_keep_binding (q q' : Quat) (r r' : Rotator) :
  Quat_mp_BoundTransform (Quat.assign_fields q q') = Quat_mp_BoundTransform q
  /\ Quat_scalars (Quat.assign_fields q q') = Quat_scalars q'
  /\ Rotator_mp_BoundTransform (Rotator.assign_fields r r')
     = Rotator_mp_BoundTransform r
  /\ Rotator_scalars (Rotator.assign_fields r r') = Rotator_scalars r'.
Proof. repeat split; reflexivity. Qed.

(** C10, at the failing input.  [Rotator] has no copy constructor of its
    own, so [Rotator r = t.rotator;] copies the pointer too, and
    [r += Rotator(180, 0, 0)] then propagates from the copy: the owner's
    quaternion becomes the one of (180, 0, 0) while the owner's rotator is
    still (0, 0, 0). *)
Theorem Rotator_copy_keeps_binding :
  exists (W3 : World) (r : Rotator) (T3 : Transform),
    Rotator_mp_BoundTransform
      (Rotator.copy (rotator (Transform_fresh 0%nat)))
    = Some 0%nat
    /\ (W1 ← Transform_construct 0%nat World_empty;
        T1 ← transforms W1 !! 0%nat;
        Rotator_add_assign (RotatorVar 5%nat) (Rotator.make 180 0 0)
          (Rotator_copy_construct 5%nat (rotator T1) W1))
       = Some W3
    /\ rotators W3 !! 5%nat = Some r
    /\ Rotator_scalars r = (180, 0, 0)
    /\ transforms W3 !! 0%nat = Some T3
    /\ Rotator_scalars (rotator T3) = (0, 0, 0)
    /\ Quat_scalars (rotation T3) = (0, 0, -1, 0)
    /\ ~ synced_from_rotator T3.
Proof.
  rewrite Transform_construct_result. cbn [mbind option_bind].
  rewrite set_transform_lookup. cbn [mbind option_bind].
  rewrite (Rotator_add_assign_bound_variable 5%nat 0%nat
             (Rotator.copy (rotator (Transform_fresh 0%nat)))
             (Rotator.make 180 0 0) (Transform_fresh 0%nat));
    [|apply lookup_insert_eq|reflexivity|apply set_transform_lookup].
  eexists _, _, _.
  split; [reflexivity|]. split; [reflexivity|].
  split; [simpl; apply lookup_insert_eq|].
  split; [unfold Rotator_scalars; simpl; repeat f_equal; ring|].
  split; [apply set_transform_lookup|].
  set (r' := Rotator.add_assign_fields
               (Rotator.copy (rotator (Transform_fresh 0%nat)))
               (Rotator.make 180 0 0)).
  assert (Hq : Quat_scalars (Rotator.Quaternion r') = (0, 0, -1, 0)).
  { unfold r', Rotator.Quaternion, Math.SinCos, Quat_scalars. simpl.
    replace ((0 + 180) * (PI / 180 / 2)) with (PI / 2) by field.
    replace ((0 + 0) * (PI / 180 / 2)) with 0 by field.
    rewrite sin_PI2, cos_PI2, sin_0, cos_0.
    f_equal; [f_equal; [f_equal|]|]; ring. }
  clearbody r'.
  split; [reflexivity|]. split; [exact Hq|].
  intros [Hs _]. cbn [rotation rotator UpdateMtx_fields with_rotation] in Hs.
  change (Quat_scalars (Rotator.Quaternion r')
          = Quat_scalars (Rotator.Quaternion (mkRotator 0 0 0 (Some 0%nat))))
    in Hs.
  rewrite Hq in Hs.
  unfold Rotator.Quaternion, Math.SinCos, Quat_scalars in Hs. simpl in Hs.
  replace (0 * (PI / 180 / 2)) with 0 in Hs by field.
  rewrite sin_0, cos_0 in Hs. injection Hs as Hw _ _ _. lra.
Qed.

End ProtocolFailures.

(** ** Quat: the algebra behind [RotateVector] *)

Lemma SizeSquared_mul (a b : Quat) :
  Quat.SizeSquared (Quat.mul a b) = Quat.SizeSquared a * Quat.SizeSquared b.
Proof. unfold Quat.SizeSquared, Quat.mul. simpl. ring. Qed.

Lemma RotateVector_dot (q : Quat) (u v : Vec3) :
  Quat.SizeSquared q = 1 ->
  Vector3D.dot (Quat.RotateVector q u) (Quat.RotateVector q v)
  = Vector3D.dot u v.
Proof.
  unfold Quat.SizeSquared, Quat.RotateVector, Vector3D.dot. cbv zeta.
  destruct q as [qw qx qy qz b], u as [u1 u2 u3], v as [v1 v2 v3]. simpl.
  intros H. nsatz.
Qed.

Lemma UnrotateVector_RotateVector_gen (q : Quat) (v : Vec3) :
  Quat.SizeSquared q = 1 ->
  Quat.UnrotateVector q (Quat.RotateVector q v) = v
  /\ Quat.RotateVector q (Quat.UnrotateVector q v) = v.
Proof.
  unfold Quat.SizeSquared, Quat.RotateVector, Quat.UnrotateVector. cbv zeta.
  destruct q as [qw qx qy qz b], v as [v1 v2 v3]. simpl.
  intros H. split; apply Vec3_eq; simpl; nsatz.
Qed.

Lemma RotateVector_mul_gen (a b : Quat) (v : Vec3) :
  Quat.SizeSquared a = 1 -> Quat.SizeSquared b = 1 ->
  Quat.RotateVector (Quat.mul a b) v
  = Quat.RotateVector a (Quat.RotateVector b v).
Proof.
  unfold Quat.SizeSquared, Quat.RotateVector, Quat.mul. cbv zeta.
  destruct a as [aw ax ay az ab], b as [bw bx b_y bz bb], v as [v1 v2 v3].
  simpl. intros Ha Hb. apply Vec3_eq; simpl; nsatz.
Qed.

(** ** Quat: axis and angle *)

(** The [s] of [GetRotationAxis] for [w = cos h] with [0 <= h <= PI]. *)
Lemma sqrt_one_minus_cos2 (h : R) :
  0 <= h <= PI ->
  sqrt (Math.Max (1 - cos h * cos h) 0) = sin h.
Proof.
  intros Hh. pose proof (sin2_cos2 h) as H. unfold Rsqr in H.
  pose proof (sin_ge_0 h (proj1 Hh) (proj2 Hh)) as Hs.
  replace (1 - cos h * cos h) with (sin h * sin h) by lra.
  unfold Math.Max. case_decide as Hd.
  - apply sqrt_square. exact Hs.
  - assert (0 <= sin h * sin h) by nra. lra.
Qed.

(** Axis and angle, there and back.  The axis and the angle a quaternion
    was constructed from are read back by [GetRotationAxis] and [GetAngle]
    for an angle in [[0, 2 PI]], unless the sine of the half angle is within
    [KINDA_SMALL_NUMBER] of 0: then the axis is reported as (1, 0, 0).  In
    the other direction, a quaternion with [-1 <= w <= 1] and
    [sqrt (1 - w^2)] above [KINDA_SMALL_NUMBER] is rebuilt from the axis and
    the angle that [ToAxisAndAngle] reports. *)
Theorem AxisAngle_roundtrip (Axis : Vec3) (AngleRad : R) (q : Quat) :
  (0 <= AngleRad <= 2 * PI ->
   Quat.GetAngle (Quat.FromAxisAngle Axis AngleRad) = AngleRad
   /\ (sin (AngleRad / 2) > KINDA_SMALL_NUMBER ->
       Quat.GetRotationAxis (Quat.FromAxisAngle Axis AngleRad) = Axis)
   /\ (sin (AngleRad / 2) <= KINDA_SMALL_NUMBER ->
       Quat.GetRotationAxis (Quat.FromAxisAngle Axis AngleRad)
       = Vector3D.mk 1 0 0))
  /\ (-1 <= w q <= 1 ->
      sqrt (1 - w q * w q) > KINDA_SMALL_NUMBER ->
      Quat_scalars
        (Quat.FromAxisAngle (fst (Quat.ToAxisAndAngle q))
                            (snd (Quat.ToAxisAndAngle q)))
      = Quat_scalars q).
Proof.
  split.
  - intros Ha.
    assert (Hh : 0 <= 1 / 2 * AngleRad <= PI) by lra.
    assert (Hhalf : AngleRad / 2 = 1 / 2 * AngleRad) by field.
    rewrite Hhalf.
    unfold Quat.GetAngle, Quat.GetRotationAxis, Quat.FromAxisAngle,
      Math.SinCos. cbv zeta. simpl.
    rewrite (sqrt_one_minus_cos2 _ Hh).
    split; [rewrite acos_cos by exact Hh; field|].
    split; intros Hs.
    + rewrite decide_True by exact Hs.
      assert (Hne : sin (1 / 2 * AngleRad) <> 0)
        by (unfold KINDA_SMALL_NUMBER in Hs; lra).
      destruct Axis as [a1 a2 a3]. simpl. f_equal; field; exact Hne.
    + rewrite decide_False by lra. reflexivity.
  - intros Hw Hs.
    unfold Quat.ToAxisAndAngle, Quat.GetAngle, Quat.GetRotationAxis,
      Quat.FromAxisAngle, Math.SinCos. cbv zeta. simpl.
    assert (Hm : Math.Max (1 - w q * w q) 0 = 1 - w q * w q).
    { unfold Math.Max. case_decide; [reflexivity|nra]. }
    rewrite Hm, decide_True by exact Hs.
    replace (1 / 2 * (2 * acos (w q))) with (acos (w q)) by field.
    rewrite cos_acos, sin_acos by exact Hw.
    unfold Rsqr. unfold Quat_scalars. simpl.
    set (s := sqrt (1 - w q * w q)) in *.
    assert (Hne : s <> 0) by (unfold KINDA_SMALL_NUMBER in Hs; lra).
    f_equal; [f_equal; [f_equal|]|]; field; exact Hne.
Qed.

(** ** Quat: the rotation between two vectors *)

(** Rotating [A] by the scaled quaternion [k * (n + A.B, A x B)], where
    [n = a * b] is the product of the two lengths: with [g] the squared
    length of the quaternion, [A] moves the part [g] of the way to the
    direction of [B]. *)
Lemma rotate_between (a1 a2 a3 b1 b2 b3 a b k g : R) :
  a * a = a1 * a1 + a2 * a2 + a3 * a3 ->
  b * b = b1 * b1 + b2 * b2 + b3 * b3 ->
  let d := a1 * b1 + a2 * b2 + a3 * b3 in
  let c1 := a2 * b3 - a3 * b2 in
  let c2 := a3 * b1 - a1 * b3 in
  let c3 := a1 * b2 - a2 * b1 in
  let w0 := a * b + d in
  k * k * (w0 * w0 + c1 * c1 + c2 * c2 + c3 * c3) = g ->
  Vector3D.scale b
    (Quat.RotateVector (mkQuat (w0 * k) (c1 * k) (c2 * k) (c3 * k) None)
                       (Vector3D.mk a1 a2 a3))
  = Vector3D.add (Vector3D.scale ((1 - g) * b) (Vector3D.mk a1 a2 a3))
                 (Vector3D.scale (g * a) (Vector3D.mk b1 b2 b3)).
Proof.
  intros Ha Hb d c1 c2 c3 w0 Hk.
  unfold Quat.RotateVector. cbv zeta. apply Vec3_eq; simpl;
    subst d c1 c2 c3 w0; nsatz.
Qed.

Lemma Magnitude_square (v : Vec3) :
  0 <= Vector3D.Magnitude v
  /\ Vector3D.Magnitude v * Vector3D.Magnitude v = Vector3D.MagnitudeSq v.
Proof.
  unfold Vector3D.Magnitude, Vector3D.Vector3DLength, Sqrt,
    Vector3D.MagnitudeSq.
  split; [apply sqrt_pos|]. apply sqrt_sqrt.
  destruct v as [v1 v2 v3]. simpl. nra.
Qed.

Lemma MagnitudeSq_nonneg (v : Vec3) : 0 <= Vector3D.MagnitudeSq v.
Proof. unfold Vector3D.MagnitudeSq. destruct v as [v1 v2 v3]. simpl. nra. Qed.

Lemma normAB_product (A B : Vec3) :
  sqrt (Vector3D.MagnitudeSq A * Vector3D.MagnitudeSq B)
  = Vector3D.Magnitude A * Vector3D.Magnitude B.
Proof.
  rewrite sqrt_mult by apply MagnitudeSq_nonneg. reflexivity.
Qed.

(** The quaternion that [FindBetween_Helper] normalizes in its first
    branch has the squared length [2 n (n + A.B)]. *)
Lemma between_SizeSquared (a1 a2 a3 b1 b2 b3 n : R) :
  n * n = (a1 * a1 + a2 * a2 + a3 * a3) * (b1 * b1 + b2 * b2 + b3 * b3) ->
  let d := a1 * b1 + a2 * b2 + a3 * b3 in
  (n + d) * (n + d)
  + (a2 * b3 - a3 * b2) * (a2 * b3 - a3 * b2)
  + (a3 * b1 - a1 * b3) * (a3 * b1 - a1 * b3)
  + (a1 * b2 - a2 * b1) * (a1 * b2 - a2 * b1)
  = 2 * n * (n + d).
Proof. intros Hn d. subst d. nsatz. Qed.

(** [FindBetweenVectors] for two vectors that are not (nearly) opposite:
    the squared length [g] of the result is 1 up to the error of
    [Math::InvSqrt], between 0.996498 and 1, and the result turns [v1] the
    part [g] of the way into the direction of [v2].  When the two vectors
    are so short that the quaternion to normalize is below [SMALL_NUMBER],
    the result is the identity. *)
Theorem FindBetweenVectors_rotates (v1 v2 : Vec3) :
  let n := sqrt (Vector3D.MagnitudeSq v1 * Vector3D.MagnitudeSq v2) in
  n + Vector3D.dot v1 v2 >= KINDA_SMALL_NUMBER * n ->
  let q := Quat.FindBetweenVectors Math.InvSqrt v1 v2 in
  (2 * n * (n + Vector3D.dot v1 v2) >= SMALL_NUMBER ->
   996498 / 1000000 <= Quat.SizeSquared q <= 1
   /\ Vector3D.scale (Vector3D.Magnitude v2) (Quat.RotateVector q v1)
      = Vector3D.add
          (Vector3D.scale
             ((1 - Quat.SizeSquared q) * Vector3D.Magnitude v2) v1)
          (Vector3D.scale
             (Quat.SizeSquared q * Vector3D.Magnitude v1) v2))
  /\ (2 * n * (n + Vector3D.dot v1 v2) < SMALL_NUMBER ->
      Quat_scalars q = Quat_scalars Quat.Identity).
Proof.
  intros n Hw q.
  pose proof (Magnitude_square v1) as [Ha0 Ha].
  pose proof (Magnitude_square v2) as [Hb0 Hb].
  assert (Hn : n = Vector3D.Magnitude v1 * Vector3D.Magnitude v2)
    by apply normAB_product.
  set (a := Vector3D.Magnitude v1) in *.
  set (b := Vector3D.Magnitude v2) in *.
  destruct v1 as [a1 a2 a3], v2 as [b1 b2 b3].
  unfold Vector3D.MagnitudeSq in Ha, Hb. simpl in Ha, Hb.
  unfold Vector3D.dot in *. simpl in *.
  assert (HS : (n + (a1 * b1 + a2 * b2 + a3 * b3))
               * (n + (a1 * b1 + a2 * b2 + a3 * b3))
               + (a2 * b3 - a3 * b2) * (a2 * b3 - a3 * b2)
               + (a3 * b1 - a1 * b3) * (a3 * b1 - a1 * b3)
               + (a1 * b2 - a2 * b1) * (a1 * b2 - a2 * b1)
               = 2 * n * (n + (a1 * b1 + a2 * b2 + a3 * b3))).
  { apply between_SizeSquared. rewrite Hn, <- Ha, <- Hb. ring. }
  subst q.
  unfold Quat.FindBetweenVectors, Quat.FindBetween_Helper. cbv zeta.
  fold n. unfold Vector3D.dot. simpl.
  rewrite decide_True by exact Hw.
  unfold Quat.Normalize_fields, Quat.assign_fields, Quat.make. cbv zeta.
  simpl. rewrite HS.
  split; intros Hs.
  - rewrite decide_True by exact Hs. simpl.
    assert (Hpos : 0 < 2 * n * (n + (a1 * b1 + a2 * b2 + a3 * b3)))
      by (unfold SMALL_NUMBER in Hs; lra).
    destruct (InvSqrt_square_bounds _ Hpos) as [_ Hk].
    set (k := Math.InvSqrt
                (2 * n * (n + (a1 * b1 + a2 * b2 + a3 * b3)))) in *.
    unfold Quat.SizeSquared. simpl.
    set (g := (n + (a1 * b1 + a2 * b2 + a3 * b3)) * k
              * ((n + (a1 * b1 + a2 * b2 + a3 * b3)) * k)
              + (a2 * b3 - a3 * b2) * k * ((a2 * b3 - a3 * b2) * k)
              + (a3 * b1 - a1 * b3) * k * ((a3 * b1 - a1 * b3) * k)
              + (a1 * b2 - a2 * b1) * k * ((a1 * b2 - a2 * b1) * k)).
    assert (Hg : k * k * (2 * n * (n + (a1 * b1 + a2 * b2 + a3 * b3))) = g)
      by (unfold g; rewrite <- HS; ring).
    rewrite Hg in Hk. split; [exact Hk|].
    rewrite Hn. apply (rotate_between a1 a2 a3 b1 b2 b3 a b k g).
    + exact Ha.
    + exact Hb.
    + cbv zeta. rewrite <- Hg, <- HS, Hn. ring.
  - rewrite decide_False by lra. reflexivity.
Qed.

(** [FindBetweenNormals] for two unit vectors that are not (nearly)
    opposite: the squared length [g] of the result is between 0.996498 and
    1, and the result turns [v1] the part [g] of the way to [v2]. *)
Theorem FindBetweenNormals_rotates (v1 v2 : Vec3) :
  Vector3D.MagnitudeSq v1 = 1 ->
  Vector3D.MagnitudeSq v2 = 1 ->
  1 + Vector3D.dot v1 v2 >= KINDA_SMALL_NUMBER * 1 ->
  let q := Quat.FindBetweenNormals Math.InvSqrt v1 v2 in
  996498 / 1000000 <= Quat.SizeSquared q <= 1
  /\ Quat.RotateVector q v1
     = Vector3D.add (Vector3D.scale (1 - Quat.SizeSquared q) v1)
                    (Vector3D.scale (Quat.SizeSquared q) v2).
Proof.
  intros H1 H2 Hw q.
  destruct v1 as [a1 a2 a3], v2 as [b1 b2 b3].
  unfold Vector3D.MagnitudeSq in H1, H2. unfold Vector3D.dot in Hw.
  simpl in H1, H2, Hw.
  assert (HS : (1 + (a1 * b1 + a2 * b2 + a3 * b3))
               * (1 + (a1 * b1 + a2 * b2 + a3 * b3))
               + (a2 * b3 - a3 * b2) * (a2 * b3 - a3 * b2)
               + (a3 * b1 - a1 * b3) * (a3 * b1 - a1 * b3)
               + (a1 * b2 - a2 * b1) * (a1 * b2 - a2 * b1)
               = 2 * 1 * (1 + (a1 * b1 + a2 * b2 + a3 * b3))).
  { apply between_SizeSquared. rewrite H1, H2. ring. }
  subst q.
  unfold Quat.FindBetweenNormals, Quat.FindBetween_Helper. cbv zeta.
  unfold Vector3D.dot. simpl.
  rewrite decide_True by exact Hw.
  unfold Quat.Normalize_fields, Quat.assign_fields, Quat.make. cbv zeta.
  simpl. rewrite HS.
  assert (Hs : 2 * 1 * (1 + (a1 * b1 + a2 * b2 + a3 * b3)) >= SMALL_NUMBER)
    by (unfold SMALL_NUMBER, KINDA_SMALL_NUMBER in *; lra).
  rewrite decide_True by exact Hs. simpl.
  assert (Hpos : 0 < 2 * 1 * (1 + (a1 * b1 + a2 * b2 + a3 * b3)))
    by (unfold SMALL_NUMBER in Hs; lra).
  destruct (InvSqrt_square_bounds _ Hpos) as [_ Hk].
  set (k := Math.InvSqrt
              (2 * 1 * (1 + (a1 * b1 + a2 * b2 + a3 * b3)))) in *.
  unfold Quat.SizeSquared. simpl.
  set (g := (1 + (a1 * b1 + a2 * b2 + a3 * b3)) * k
            * ((1 + (a1 * b1 + a2 * b2 + a3 * b3)) * k)
            + (a2 * b3 - a3 * b2) * k * ((a2 * b3 - a3 * b2) * k)
            + (a3 * b1 - a1 * b3) * k * ((a3 * b1 - a1 * b3) * k)
            + (a1 * b2 - a2 * b1) * k * ((a1 * b2 - a2 * b1) * k)).
  assert (Hg : k * k * (2 * 1 * (1 + (a1 * b1 + a2 * b2 + a3 * b3))) = g)
    by (unfold g; rewrite <- HS; ring).
  rewrite Hg in Hk. split; [exact Hk|].
  pose proof (rotate_between a1 a2 a3 b1 b2 b3 1 1 k g) as Hr.
  cbv zeta in Hr. unfold Vector3D.scale, Vector3D.add in Hr. simpl in Hr.
  assert (Hr' := Hr ltac:(lra) ltac:(lra)
                    ltac:(rewrite <- Hg, <- HS; ring)).
  clear Hr. injection Hr' as Hx Hy Hz.
  replace (1 * 1 + (a1 * b1 + a2 * b2 + a3 * b3))
    with (1 + (a1 * b1 + a2 * b2 + a3 * b3)) in Hx, Hy, Hz by ring.
  unfold Quat.RotateVector. cbv zeta. simpl.
  apply Vec3_eq; simpl; lra.
Qed.

(** [FindBetween_Helper] in its second branch ("A and B are exactly
    opposite"): the result is a turn about an axis at right angles to [A],
    a half turn but for the error of [Math::InvSqrt]: with [g] its squared
    length, between 0.996498 and 1, it sends [A] to [(1 - 2 g) A], which
    is [-A] shortened by at most 0.7 percent.  Unless the axis it picks,
    ([-A.z], 0, [A.x]) or (0, [-A.z], [A.y]), is shorter than [SMALL_NUMBER]
    allows: then the result is the identity, which moves nothing. *)
Theorem FindBetween_Helper_opposite (A B : Vec3) (normAB : R) :
  normAB + Vector3D.dot A B < KINDA_SMALL_NUMBER * normAB ->
  let q := Quat.FindBetween_Helper Math.InvSqrt A B normAB in
  let axisSq :=
    if decide (Rabs (Vector3D.x A) > Rabs (Vector3D.x B))
    then Vector3D.z A * Vector3D.z A + Vector3D.x A * Vector3D.x A
    else Vector3D.z A * Vector3D.z A + Vector3D.y A * Vector3D.y A in
  (axisSq >= SMALL_NUMBER ->
   w q = 0 /\ 996498 / 1000000 <= Quat.SizeSquared q <= 1
   /\ Quat.RotateVector q A
      = Vector3D.scale (1 - 2 * Quat.SizeSquared q) A)
  /\ (axisSq < SMALL_NUMBER -> Quat_scalars q = Quat_scalars Quat.Identity).
Proof.
  intros Hw q axisSq. subst q axisSq.
  destruct A as [a1 a2 a3], B as [b1 b2 b3].
  unfold Quat.FindBetween_Helper. cbv zeta.
  unfold Vector3D.dot in *. simpl in *.
  rewrite (decide_False (P := _ >= KINDA_SMALL_NUMBER * normAB)) by lra.
  unfold Quat.Normalize_fields, Quat.assign_fields, Quat.make. cbv zeta.
  case_decide as Hx; simpl.
  - replace (0 * 0 + - a3 * - a3 + 0 * 0 + a1 * a1)
      with (a3 * a3 + a1 * a1) by ring.
    split; intros Hs.
    + rewrite decide_True by exact Hs. simpl.
      assert (Hpos : 0 < a3 * a3 + a1 * a1)
        by (unfold SMALL_NUMBER in Hs; lra).
      destruct (InvSqrt_square_bounds _ Hpos) as [_ Hk].
      set (k := Math.InvSqrt (a3 * a3 + a1 * a1)) in *.
      split; [ring|]. unfold Quat.SizeSquared. simpl.
      replace (0 * k * (0 * k) + - a3 * k * (- a3 * k) + 0 * k * (0 * k)
               + a1 * k * (a1 * k))
        with (k * k * (a3 * a3 + a1 * a1)) by ring.
      split; [exact Hk|].
      clearbody k. unfold Quat.RotateVector, Vector3D.scale. cbv zeta.
      simpl. apply Vec3_eq; simpl; ring.
    + rewrite decide_False by lra. reflexivity.
  - replace (0 * 0 + 0 * 0 + - a3 * - a3 + a2 * a2)
      with (a3 * a3 + a2 * a2) by ring.
    split; intros Hs.
    + rewrite decide_True by exact Hs. simpl.
      assert (Hpos : 0 < a3 * a3 + a2 * a2)
        by (unfold SMALL_NUMBER in Hs; lra).
      destruct (InvSqrt_square_bounds _ Hpos) as [_ Hk].
      set (k := Math.InvSqrt (a3 * a3 + a2 * a2)) in *.
      split; [ring|]. unfold Quat.SizeSquared. simpl.
      replace (0 * k * (0 * k) + 0 * k * (0 * k) + - a3 * k * (- a3 * k)
               + a2 * k * (a2 * k))
        with (k * k * (a3 * a3 + a2 * a2)) by ring.
      split; [exact Hk|].
      clearbody k. unfold Quat.RotateVector, Vector3D.scale. cbv zeta.
      simpl. apply Vec3_eq; simpl; ring.
    + rewrite decide_False by lra. reflexivity.
Qed.

(** ** Rotator: angles modulo whole turns *)

(** Both reductions change the angle by a whole number of turns. *)
Lemma ClampAxis_congruent (angle : R) :
  exists k : Z, Rotator.ClampAxis angle = angle + 360 * IZR k.
Proof.
  unfold Rotator.ClampAxis, fmodf. cbv zeta.
  set (n := Rtrunc (angle / 360)).
  case_decide.
  - exists (1 - n)%Z. rewrite minus_IZR. ring.
  - exists (- n)%Z. rewrite opp_IZR. ring.
Qed.

Lemma NormalizeAxis_congruent (angle : R) :
  exists k : Z, Rotator.NormalizeAxis angle = angle + 360 * IZR k.
Proof.
  unfold Rotator.NormalizeAxis, fmodf. cbv zeta.
  set (n := Rtrunc (angle / 360)).
  repeat case_decide.
  - exists (- n - 1)%Z. rewrite minus_IZR, opp_IZR. ring.
  - exists (1 - n)%Z. rewrite minus_IZR. ring.
  - exists (- n)%Z. rewrite opp_IZR. ring.
Qed.

Lemma IZR_small_zero (j : Z) : -1 < IZR j < 1 -> j = 0%Z.
Proof.
  intros [H1 H2]. apply lt_IZR in H1, H2. lia.
Qed.

(** [ClampAxis] picks, in exact arithmetic, the representative in
    [[0, 360)] of an angle modulo whole turns: the result is in that
    interval and differs from the angle by a whole number of turns, angles
    that differ by whole turns get the same result, and a result is left
    alone. *)
Theorem ClampAxis_periodic (angle : R) (k : Z) :
  0 <= Rotator.ClampAxis angle < 360
  /\ Rotator.ClampAxis (angle + 360 * IZR k) = Rotator.ClampAxis angle
  /\ Rotator.ClampAxis (Rotator.ClampAxis angle) = Rotator.ClampAxis angle
  /\ exists j : Z, Rotator.ClampAxis angle = angle + 360 * IZR j.
Proof.
  split; [apply ClampAxis_range|].
  assert (Hper : forall (a : R) (m : Z),
             Rotator.ClampAxis (a + 360 * IZR m) = Rotator.ClampAxis a).
  { intros a m.
    destruct (ClampAxis_congruent (a + 360 * IZR m)) as [k1 H1].
    destruct (ClampAxis_congruent a) as [k2 H2].
    pose proof (ClampAxis_range (a + 360 * IZR m)) as R1.
    pose proof (ClampAxis_range a) as R2.
    assert (Hj : (m + k1 - k2)%Z = 0%Z).
    { apply IZR_small_zero. rewrite minus_IZR, plus_IZR. lra. }
    rewrite H1, H2.
    assert (Hm : IZR m + IZR k1 - IZR k2 = 0)
      by (rewrite <- plus_IZR, <- minus_IZR, Hj; reflexivity).
    lra. }
  split; [apply Hper|]. split; [|apply ClampAxis_congruent].
  destruct (ClampAxis_congruent angle) as [j Hj].
  rewrite Hj at 1. apply Hper.
Qed.

(** Shifting an angle by a whole number of half turns changes the sine and
    the cosine by the same sign. *)
Lemma sin_cos_shift (m : Z) :
  exists s : R, (s = 1 \/ s = -1)
    /\ forall x : R, sin (x + IZR m * PI) = s * sin x
                     /\ cos (x + IZR m * PI) = s * cos x.
Proof.
  induction m using Z.peano_ind.
  - exists 1. split; [left; reflexivity|]. intros x.
    replace (x + 0 * PI) with x by ring. lra.
  - destruct IHm as (s & Hs & H). exists (- s). split; [lra|].
    intros x. rewrite succ_IZR.
    replace (x + (IZR m + 1) * PI) with ((x + IZR m * PI) + PI) by ring.
    rewrite neg_sin, neg_cos. destruct (H x) as [-> ->]. lra.
  - destruct IHm as (s & Hs & H). exists (- s). split; [lra|].
    intros x. unfold Z.pred. rewrite plus_IZR.
    destruct (H x) as [H1 H2].
    pose proof (neg_sin (x + (IZR m + -1) * PI)) as Hn1.
    pose proof (neg_cos (x + (IZR m + -1) * PI)) as Hn2.
    replace (x + (IZR m + -1) * PI + PI) with (x + IZR m * PI) in Hn1, Hn2
      by ring.
    lra.
Qed.

(** ** Round trips between [Rotator] and [Quat]: the poles *)

Section RoundTripClaims.

Lemma atan2f_0_0 : atan2f 0 0 = 0.
Proof. unfold atan2f. repeat case_decide; lra. Qed.

Lemma atan2f_0_pos (a : R) : 0 < a -> atan2f 0 a = 0.
Proof.
  intros H. unfold atan2f. case_decide; [|lra].
  replace (0 / a) with 0 by (field; lra). apply atan_0.
Qed.

(** The sine of a small angle from below. *)
Lemma sin_small_lower (a : R) : 0 < a <= 1 / 1000 -> 9 / 10 * a <= sin a.
Proof.
  intros [H0 H1]. pose proof PI2_3_2.
  destruct (SIN a) as [Hlb _]; [lra | lra |].
  unfold sin_lb, sin_approx, sin_term in Hlb. simpl in Hlb.
  assert (Ha2 : 0 < a * a <= 1 / 1000000) by nra.
  assert (Ha3 : 0 < a * a * a <= a / 1000000) by nra.
  assert (Ha6 : 0 < (a * a * a) * (a * a * a) <= 1).
  { split; [nra|]. assert (a * a * a <= 1) by nra. nra. }
  assert (Ha7 : 0 <= a * ((a * a * a) * (a * a * a)) <= a) by nra.
  assert (Ha5 : 0 <= a * a * (a * a * a)) by nra.
  lra.
Qed.

(** At a pole, where the sine of the pitch is 1 or -1, the rotator that
    comes back has the same rotation: yaw and roll are merged into the
    roll. *)
Lemma GetRotator_Quaternion_pole (e : Rotator) :
  Rabs (sin (DEG2RAD (pitch e))) = 1 ->
  let e' := Quat.GetRotator (Rotator.Quaternion e) in
  Quat_scalars (Rotator.Quaternion e') = Quat_scalars (Rotator.Quaternion e)
  \/ Quat_scalars (Rotator.Quaternion e')
     = Quat_scalars (Quat.neg (Rotator.Quaternion e)).
Proof.
  intros Hpole. cbv zeta.
  (* the half angles of [e] *)
  destruct (double_half_angle (DEG2RAD (pitch e))) as (Hp1 & Hp2 & Hp3).
  assert (Hq : Rotator.Quaternion e
               = mkQuat
                   (cos (DEG2RAD (roll e) / 2) * cos (DEG2RAD (pitch e) / 2)
                    * cos (DEG2RAD (yaw e) / 2)
                    + sin (DEG2RAD (roll e) / 2)
                      * sin (DEG2RAD (pitch e) / 2)
                      * sin (DEG2RAD (yaw e) / 2))
                   (cos (DEG2RAD (roll e) / 2) * sin (DEG2RAD (pitch e) / 2)
                    * sin (DEG2RAD (yaw e) / 2)
                    - sin (DEG2RAD (roll e) / 2)
                      * cos (DEG2RAD (pitch e) / 2)
                      * cos (DEG2RAD (yaw e) / 2))
                   (- cos (DEG2RAD (roll e) / 2)
                    * sin (DEG2RAD (pitch e) / 2)
                    * cos (DEG2RAD (yaw e) / 2)
                    - sin (DEG2RAD (roll e) / 2)
                      * cos (DEG2RAD (pitch e) / 2)
                      * sin (DEG2RAD (yaw e) / 2))
                   (cos (DEG2RAD (roll e) / 2) * cos (DEG2RAD (pitch e) / 2)
                    * sin (DEG2RAD (yaw e) / 2)
                    - sin (DEG2RAD (roll e) / 2)
                      * sin (DEG2RAD (pitch e) / 2)
                      * cos (DEG2RAD (yaw e) / 2))
                   None).
  { unfold Rotator.Quaternion, Math.SinCos. cbv zeta.
    rewrite !half_DEG2RAD. reflexivity. }
  destruct (double_half_angle (DEG2RAD (yaw e))) as (_ & _ & Hy3).
  destruct (double_half_angle (DEG2RAD (roll e))) as (_ & _ & Hr3).
  set (sp := sin (DEG2RAD (pitch e) / 2)) in *.
  set (cp := cos (DEG2RAD (pitch e) / 2)) in *.
  set (sy := sin (DEG2RAD (yaw e) / 2)) in *.
  set (cy := cos (DEG2RAD (yaw e) / 2)) in *.
  set (sr := sin (DEG2RAD (roll e) / 2)) in *.
  set (cr := cos (DEG2RAD (roll e) / 2)) in *.
  rewrite Hp1 in Hpole. clear Hp1 Hp2.
  clearbody sp cp sy cy sr cr.
  (* the half angle of a quarter turn *)
  set (h := sin (PI / 4)).
  assert (Hh : 0 < h /\ cos (PI / 4) = h /\ h * h = 1 / 2).
  { unfold h. rewrite sin_PI4, cos_PI4.
    assert (0 < sqrt 2) by (apply sqrt_lt_R0; lra).
    pose proof (sqrt_sqrt 2 ltac:(lra)) as H2.
    split; [apply Rdiv_lt_0_compat; lra|]. split; [reflexivity|].
    replace (1 / sqrt 2 * (1 / sqrt 2)) with (1 / (sqrt 2 * sqrt 2))
      by (field; lra).
    rewrite H2. reflexivity. }
  destruct Hh as (Hh0 & Hch & Hhh).
  assert (Hs4 : sin (PI / 4) = h) by reflexivity. clearbody h.
  assert (Hsn : sin (- (PI / 4)) = - h /\ cos (- (PI / 4)) = h)
    by (rewrite sin_neg, cos_neg, Hch, Hs4; auto).
  rewrite Hq. clear Hq.
  set (W := cr * cp * cy + sr * sp * sy) in *.
  set (X := cr * sp * sy - sr * cp * cy) in *.
  set (Y := - cr * sp * cy - sr * cp * sy) in *.
  set (Z := cr * cp * sy - sr * sp * cy) in *.
  assert (Hcases : (sp = cp /\ cp * cp = 1 / 2)
                   \/ (sp = - cp /\ cp * cp = 1 / 2)).
  { assert (Hsc : 2 * sp * cp = 1 \/ 2 * sp * cp = -1).
    { revert Hpole. unfold Rabs. destruct (Rcase_abs (2 * sp * cp)); lra. }
    destruct Hsc as [Hsc | Hsc].
    - left. assert (Hz : Rsqr (sp - cp) = 0) by (unfold Rsqr; lra).
      apply Rsqr_0_uniq in Hz. assert (Hsp : sp = cp) by lra.
      split; [exact Hsp | rewrite Hsp in Hp3; lra].
    - right. assert (Hz : Rsqr (sp + cp) = 0) by (unfold Rsqr; lra).
      apply Rsqr_0_uniq in Hz. assert (Hsp : sp = - cp) by lra.
      split; [exact Hsp | rewrite Hsp in Hp3; lra]. }
  (* the angle [atan2f X W] and the roll that comes back *)
  assert (HWX : W * W + X * X = h * h).
  { rewrite Hhh. unfold W, X.
    destruct Hcases as [[-> Hc]|[-> Hc]]; nsatz. }
  destruct (cos_sin_atan2f W X h Hh0 HWX) as [Hca Hsa].
  assert (Hroll : forall y0 : R,
             exists s : R, (s = 1 \/ s = -1)
               /\ sin (Rotator.NormalizeAxis (y0 - RAD2DEG (2 * atan2f X W))
                       * (PI / 180 / 2))
                  = s * sin (y0 * (PI / 180 / 2) - atan2f X W)
               /\ cos (Rotator.NormalizeAxis (y0 - RAD2DEG (2 * atan2f X W))
                       * (PI / 180 / 2))
                  = s * cos (y0 * (PI / 180 / 2) - atan2f X W)).
  { intros y0.
    destruct (NormalizeAxis_congruent (y0 - RAD2DEG (2 * atan2f X W)))
      as [j Hj].
    destruct (sin_cos_shift j) as (s & Hs & Hsh).
    exists s. split; [exact Hs|]. rewrite Hj.
    replace ((y0 - RAD2DEG (2 * atan2f X W) + 360 * IZR j) * (PI / 180 / 2))
      with (y0 * (PI / 180 / 2) - atan2f X W + IZR j * PI)
      by (unfold RAD2DEG, OVERPI; field; apply PI_neq0).
    apply Hsh. }
  unfold Quat.GetRotator, Quat.SINGULARITY_THRESHOLD. cbv zeta. simpl.
  assert (HyY : 2 * (W * Z + X * Y) = 0)
    by (unfold W, X, Y, Z; destruct Hcases as [[-> Hc]|[-> Hc]]; nsatz).
  assert (HyX : 1 - 2 * (Y * Y + Z * Z) = 0)
    by (unfold W, X, Y, Z; destruct Hcases as [[-> Hc]|[-> Hc]]; nsatz).
  rewrite HyY, HyX, atan2f_0_0.
  replace (RAD2DEG 0) with 0 by (unfold RAD2DEG; ring).
  replace (- 0) with 0 by ring.
  destruct (Hroll 0) as (s & Hs & Hsr & Hcr).
  replace (0 * (PI / 180 / 2) - atan2f X W) with (- atan2f X W)
    in Hsr, Hcr by ring.
  rewrite sin_neg in Hsr. rewrite cos_neg in Hcr.
  rewrite Hsa in Hsr. rewrite Hca in Hcr.
  destruct Hcases as [[Hsp Hc]|[Hsp Hc]].
  - assert (Ht : Z * X - W * Y = 1 / 2)
      by (unfold W, X, Y, Z; rewrite Hsp; nsatz).
    destruct (decide (Z * X - W * Y < - (4999995 / 10000000))); [lra|].
    destruct (decide (Z * X - W * Y > 4999995 / 10000000)); [|lra].
    unfold Rotator.Quaternion, Math.SinCos, Quat_scalars, Quat.neg.
    cbv zeta. simpl.
    replace (90 * (PI / 180 / 2)) with (PI / 4) by field.
    replace (0 * (PI / 180 / 2)) with 0 by ring.
    rewrite sin_0, cos_0, Hch, Hs4, Hsr, Hcr.
    assert (HY : Y = - W) by (unfold W, Y; rewrite Hsp; ring).
    assert (HZ : Z = X) by (unfold X, Z; rewrite Hsp; ring).
    rewrite HY, HZ.
    destruct Hs as [-> | ->]; [left | right];
      (f_equal; [f_equal; [f_equal|]|]); field; lra.
  - assert (Ht : Z * X - W * Y = - (1 / 2))
      by (unfold W, X, Y, Z; rewrite Hsp; nsatz).
    destruct (decide (Z * X - W * Y < - (4999995 / 10000000))); [|lra].
    unfold Rotator.Quaternion, Math.SinCos, Quat_scalars, Quat.neg.
    cbv zeta. simpl.
    replace (-90 * (PI / 180 / 2)) with (- (PI / 4)) by field.
    replace (0 * (PI / 180 / 2)) with 0 by ring.
    destruct Hsn as [-> ->].
    rewrite sin_0, cos_0, Hsr, Hcr.
    assert (HY : Y = W) by (unfold W, Y; rewrite Hsp; ring).
    assert (HZ : Z = - X) by (unfold X, Z; rewrite Hsp; ring).
    rewrite HY, HZ.
    destruct Hs as [-> | ->]; [left | right];
      (f_equal; [f_equal; [f_equal|]|]); field; lra.
Qed.

(** The rotator (90, 30, 60), at the upper pole, comes back as (90, 0, 30):
    the yaw is gone and the roll is the difference of the two. *)
Lemma GetRotator_Quaternion_90_30_60 :
  Rotator_scalars (Quat.GetRotator (Rotator.Quaternion (Rotator.make 90 30 60)))
  = (90, 0, 30).
Proof.
  set (h := sin (PI / 4)).
  assert (Hh : 0 < h /\ cos (PI / 4) = h /\ h * h = 1 / 2).
  { unfold h. rewrite sin_PI4, cos_PI4.
    assert (0 < sqrt 2) by (apply sqrt_lt_R0; lra).
    pose proof (sqrt_sqrt 2 ltac:(lra)) as H2.
    split; [apply Rdiv_lt_0_compat; lra|]. split; [reflexivity|].
    replace (1 / sqrt 2 * (1 / sqrt 2)) with (1 / (sqrt 2 * sqrt 2))
      by (field; lra).
    rewrite H2. reflexivity. }
  destruct Hh as (Hh0 & Hch & Hhh).
  assert (Hs4 : sin (PI / 4) = h) by reflexivity. clearbody h.
  pose proof PI_RGT_0 as Hpi.
  assert (Hq : Rotator.Quaternion (Rotator.make 90 30 60)
               = Quat.make (h * cos (- (PI / 12))) (h * sin (- (PI / 12)))
                           (- (h * cos (- (PI / 12))))
                           (h * sin (- (PI / 12)))).
  { unfold Rotator.Quaternion, Math.SinCos, Quat.make. simpl.
    replace (90 * (PI / 180 / 2)) with (PI / 4) by field.
    replace (30 * (PI / 180 / 2)) with (PI / 12) by field.
    replace (60 * (PI / 180 / 2)) with (PI / 6) by field.
    replace (- (PI / 12)) with (PI / 12 - PI / 6) by field.
    rewrite sin_minus, cos_minus, Hch, Hs4.
    apply Quat_eq; simpl; try reflexivity; ring. }
  rewrite Hq.
  pose proof (sin2_cos2 (- (PI / 12))) as H1. unfold Rsqr in H1.
  set (c := cos (- (PI / 12))) in *. set (s := sin (- (PI / 12))) in *.
  unfold Quat.GetRotator, Quat.SINGULARITY_THRESHOLD, Quat.make.
  cbv zeta. simpl.
  assert (Ht : h * s * (h * s) - h * c * - (h * c) = 1 / 2).
  { replace (h * s * (h * s) - h * c * - (h * c))
      with (h * h * (s * s + c * c)) by ring.
    rewrite H1, Hhh. ring. }
  destruct (decide (h * s * (h * s) - h * c * - (h * c)
                    < - (4999995 / 10000000))); [lra|].
  destruct (decide (h * s * (h * s) - h * c * - (h * c)
                    > 4999995 / 10000000)); [|lra].
  unfold Rotator_scalars. simpl.
  replace (2 * (h * c * (h * s) + h * s * - (h * c))) with 0 by ring.
  replace (1 - 2 * (- (h * c) * - (h * c) + h * s * (h * s)))
    with (1 - 2 * (h * h * (s * s + c * c))) by ring.
  rewrite H1, Hhh. replace (1 - 2 * (1 / 2 * 1)) with 0 by field.
  rewrite atan2f_0_0.
  unfold s, c. rewrite atan2f_polar by lra.
  replace (RAD2DEG 0 - RAD2DEG (2 * - (PI / 12))) with 30
    by (unfold RAD2DEG, OVERPI; field; lra).
  rewrite NormalizeAxis_small by lra.
  unfold RAD2DEG. replace (0 * OVERPI) with 0 by ring. reflexivity.
Qed.

(** C3, counterexample.  The rotator (180, 0, 0), whose pitch is far from
    the poles, comes back as (0, 180, 180): the same rotation, but not the
    same three values, and not equal under [Rotator::Equals] either.  The
    rotator (89.9375, 0, 0) is inside the singular band and not at a pole:
    it comes back as (90, 0, 0), which is another rotation, since its
    quaternion is equal neither to that of the rotator nor to the opposite
    one under [Quat::Equals] with the tolerance [KINDA_SMALL_NUMBER]. *)
Lemma roundtrip_changes_triple :
  (Rotator_scalars
     (Quat.GetRotator (Rotator.Quaternion (Rotator.make 180 0 0)))
   = (0, 180, 180)
   /\ Rotator.Equals (Rotator.make 180 0 0)
        (Quat.GetRotator (Rotator.Quaternion (Rotator.make 180 0 0)))
        KINDA_SMALL_NUMBER = false)
  /\ (let e := Rotator.make (1439 / 16) 0 0 in
      let e' := Quat.GetRotator (Rotator.Quaternion e) in
      2 * Quat.SINGULARITY_THRESHOLD < sin (DEG2RAD (pitch e)) < 1
      /\ Rotator_scalars e' = (90, 0, 0)
      /\ Rotator.Equals e e' KINDA_SMALL_NUMBER = false
      /\ Quat.Equals (Rotator.Quaternion e') (Rotator.Quaternion e)
           KINDA_SMALL_NUMBER = false
      /\ Quat.Equals (Rotator.Quaternion e')
           (Quat.neg (Rotator.Quaternion e)) KINDA_SMALL_NUMBER = false).
Proof.
  split.
  { assert (Hq : Rotator.Quaternion (Rotator.make 180 0 0)
                 = Quat.make 0 0 (-1) 0).
    { unfold Rotator.Quaternion, Math.SinCos, Quat.make. simpl.
      replace (180 * (PI / 180 / 2)) with (PI / 2) by field.
      replace (0 * (PI / 180 / 2)) with 0 by field.
      rewrite sin_PI2, cos_PI2, sin_0, cos_0.
      apply Quat_eq; simpl; try reflexivity; ring. }
    assert (Hr : Rotator_scalars (Quat.GetRotator (Quat.make 0 0 (-1) 0))
                 = (0, 180, 180)).
    { unfold Quat.GetRotator, Quat.SINGULARITY_THRESHOLD. cbv zeta. simpl.
      repeat case_decide; try lra.
      unfold Rotator_scalars. simpl.
      replace (2 * (0 * 0 - 0 * -1)) with 0 by ring.
      replace (2 * (0 * 0 + 0 * -1)) with 0 by ring.
      replace (1 - 2 * (-1 * -1 + 0 * 0)) with (-1) by ring.
      replace (-2 * (0 * 0 + -1 * 0)) with 0 by ring.
      replace (1 - 2 * (0 * 0 + -1 * -1)) with (-1) by ring.
      rewrite asin_0, atan2f_0_neg1.
      unfold RAD2DEG, OVERPI.
      replace (0 * (180 / PI)) with 0 by ring.
      replace (PI * (180 / PI)) with 180 by (field; apply PI_neq0).
      reflexivity. }
    rewrite Hq. split; [exact Hr|].
    unfold Rotator_scalars in Hr. 
    injection Hr as Hp Hy Hro.
    unfold Rotator.Equals. rewrite Hp. simpl.
    replace (180 - 0) with 180 by ring.
    rewrite NormalizeAxis_small by lra.
    rewrite bool_decide_eq_false_2; [reflexivity|].
    unfold KINDA_SMALL_NUMBER. rewrite Rabs_right; lra. }
  cbv zeta.
  pose proof PI2_3_2 as Hpi3. pose proof PI_4 as Hpi4.
  set (d := PI / 5760).
  assert (Hd : 3 / 5760 < d <= 4 / 5760) by (unfold d; lra).
  set (a := PI / 4 - d).
  assert (Ha : 0 < a < PI / 4) by (unfold a; lra).
  (* the quaternion of the rotator *)
  assert (Hq : Rotator.Quaternion (Rotator.make (1439 / 16) 0 0)
               = Quat.make (cos a) 0 (- sin a) 0).
  { unfold Rotator.Quaternion, Math.SinCos, Quat.make. simpl.
    replace (1439 / 16 * (PI / 180 / 2)) with a by (unfold a, d; field).
    replace (0 * (PI / 180 / 2)) with 0 by field.
    rewrite sin_0, cos_0.
    apply Quat_eq; simpl; try reflexivity; ring. }
  (* sines and cosines of the half pitch *)
  assert (Hca : 0 < cos a) by (apply cos_gt_0; lra).
  assert (Hsa : 0 < sin a) by (apply sin_gt_0; lra).
  pose proof (sin2_cos2 a) as H1. unfold Rsqr in H1.
  assert (Hc2 : cos (2 * a) = sin (2 * d)).
  { replace (2 * a) with (PI / 2 - 2 * d) by (unfold a; field).
    apply cos_shift. }
  assert (Hs2 : sin (2 * a) = cos (2 * d)).
  { replace (2 * a) with (PI / 2 - 2 * d) by (unfold a; field).
    apply sin_shift. }
  assert (Hsd : 0 < sin d < d).
  { split; [apply sin_gt_0; lra | apply sin_lt_x; lra]. }
  assert (Hcd : 999999 / 1000000 < cos (2 * d) < 1).
  { rewrite cos_2a_sin. split; nra. }
  assert (Hs2d : 0 < sin (2 * d)) by (apply sin_gt_0; lra).
  rewrite cos_2a in Hc2. rewrite sin_2a in Hs2.
  (* the band *)
  split.
  { simpl. unfold Quat.SINGULARITY_THRESHOLD.
    replace (DEG2RAD (1439 / 16)) with (PI / 2 - 2 * d)
      by (unfold DEG2RAD, PIOVER180, d; field).
    rewrite sin_shift. lra. }
  (* the rotator that comes back *)
  assert (Hr : Quat.GetRotator (Quat.make (cos a) 0 (- sin a) 0)
               = Rotator.make 90 0 0).
  { unfold Quat.GetRotator, Quat.SINGULARITY_THRESHOLD. cbv zeta. simpl.
    destruct (decide (0 * 0 - cos a * - sin a < - (4999995 / 10000000)));
      [lra|].
    destruct (decide (0 * 0 - cos a * - sin a > 4999995 / 10000000));
      [|lra].
    replace (2 * (cos a * 0 + 0 * - sin a)) with 0 by ring.
    rewrite !atan2f_0_pos by lra.
    replace (RAD2DEG 0) with 0 by (unfold RAD2DEG; ring).
    replace (RAD2DEG (2 * 0)) with 0 by (unfold RAD2DEG; ring).
    replace (0 - 0) with 0 by ring.
    rewrite NormalizeAxis_small by lra. reflexivity. }
  rewrite Hq, Hr. split; [reflexivity|].
  split.
  { unfold Rotator.Equals. simpl.
    rewrite (NormalizeAxis_small (1439 / 16 - 90)) by lra.
    rewrite bool_decide_eq_false_2; [reflexivity|].
    unfold KINDA_SMALL_NUMBER. rewrite Rabs_left; lra. }
  (* the quaternion of the rotator that comes back *)
  assert (Hq' : Rotator.Quaternion (Rotator.make 90 0 0)
                = Quat.make (cos (PI / 4)) 0 (- sin (PI / 4)) 0).
  { unfold Rotator.Quaternion, Math.SinCos, Quat.make. simpl.
    replace (90 * (PI / 180 / 2)) with (PI / 4) by field.
    replace (0 * (PI / 180 / 2)) with 0 by field.
    rewrite sin_0, cos_0.
    apply Quat_eq; simpl; try reflexivity; ring. }
  rewrite Hq'.
  assert (Hh : 7 / 10 < sin (PI / 4) /\ 7 / 10 < cos (PI / 4)).
  { rewrite sin_PI4, cos_PI4.
    assert (Hs : 0 < sqrt 2) by (apply sqrt_lt_R0; lra).
    pose proof (sqrt_sqrt 2 ltac:(lra)) as H2.
    assert (sqrt 2 < 10 / 7) by nra.
    assert (7 / 10 < 1 / sqrt 2); [|lra].
    apply Rmult_lt_reg_r with (sqrt 2); [exact Hs|].
    replace (1 / sqrt 2 * sqrt 2) with 1 by (field; lra). lra. }
  split.
  - (* third component: the two sines differ by more than the tolerance *)
    assert (Hdiff : 3 / 10000 < sin (PI / 4) - sin a).
    { rewrite form4.
      replace ((PI / 4 + a) / 2) with (PI / 4 - d / 2) by (unfold a; field).
      replace ((PI / 4 - a) / 2) with (d / 2) by (unfold a; field).
      assert (Hc : cos (PI / 4) <= cos (PI / 4 - d / 2))
        by (apply cos_decr_1; lra).
      pose proof (sin_small_lower (d / 2) ltac:(lra)) as Hs.
      assert (0 < sin (d / 2)) by lra.
      assert (7 / 10 * (9 / 10 * (d / 2))
              <= cos (PI / 4 - d / 2) * sin (d / 2)).
      { apply Rmult_le_compat; lra. }
      lra. }
    unfold Quat.Equals, Math.FloatEqual, Quat.make. simpl.
    rewrite (bool_decide_eq_false_2
               (Rabs (- sin (PI / 4) - - sin a) < KINDA_SMALL_NUMBER)).
    + rewrite !andb_false_r. reflexivity.
    + unfold KINDA_SMALL_NUMBER. rewrite Rabs_left; lra.
  - unfold Quat.Equals, Math.FloatEqual, Quat.neg, Quat.make. simpl.
    rewrite (bool_decide_eq_false_2
               (Rabs (cos (PI / 4) - - cos a) < KINDA_SMALL_NUMBER)).
    + reflexivity.
    + unfold KINDA_SMALL_NUMBER. rewrite Rabs_right; lra.
Qed.

(** C3, amended.  Converting a rotator to a quaternion and back:
    - outside the singular band ([|sin pitch| <= 0.999999]) the rotator
      that comes back has the same rotation (its quaternion is that of [e]
      or the opposite one), and the three values themselves come back when
      they are in the principal range, pitch in (-90, 90), yaw and roll in
      (-180, 180];
    - at a pole ([|sin pitch| = 1]) the rotator that comes back has the
      same rotation;
    - inside the band the pitch that comes back is 90 or -90, whatever the
      pitch was. *)
Theorem GetRotator_Quaternion_roundtrip (e : Rotator) :
  let e' := Quat.GetRotator (Rotator.Quaternion e) in
  let same_rotation :=
    Quat_scalars (Rotator.Quaternion e')
    = Quat_scalars (Rotator.Quaternion e)
    \/ Quat_scalars (Rotator.Quaternion e')
       = Quat_scalars (Quat.neg (Rotator.Quaternion e)) in
  (Rabs (sin (DEG2RAD (pitch e))) <= 2 * Quat.SINGULARITY_THRESHOLD ->
   same_rotation
   /\ (-90 < pitch e < 90 -> -180 < yaw e <= 180 -> -180 < roll e <= 180 ->
       Rotator_scalars e' = Rotator_scalars e))
  /\ (Rabs (sin (DEG2RAD (pitch e))) = 1 -> same_rotation)
  /\ (2 * Quat.SINGULARITY_THRESHOLD < sin (DEG2RAD (pitch e)) ->
      pitch e' = 90)
  /\ (sin (DEG2RAD (pitch e)) < - (2 * Quat.SINGULARITY_THRESHOLD) ->
      pitch e' = -90).
Proof.
  cbv zeta. split; [|split].
  - intros Hband. split.
    + apply GetRotator_Quaternion_same_rotation. exact Hband.
    + intros. apply GetRotator_Quaternion_principal; assumption.
  - apply GetRotator_Quaternion_pole.
  - destruct (Quaternion_forms e) as (_ & Hs & _). cbv zeta in Hs.
    set (q := Rotator.Quaternion e) in *. clearbody q.
    unfold Quat.GetRotator, Quat.SINGULARITY_THRESHOLD. cbv zeta.
    split; intros H; repeat case_decide; simpl; try reflexivity; lra.
Qed.

Lemma GetRotator_Quaternion_roundtrip_witness :
  Rotator_scalars
    (Quat.GetRotator (Rotator.Quaternion (Rotator.make 30 180 (-90))))
  = (30, 180, -90)
  /\ (let e := Rotator.make 90 30 60 in
      let e' := Quat.GetRotator (Rotator.Quaternion e) in
      Rotator_scalars e' = (90, 0, 30)
      /\ pitch e' = 90
      /\ (Quat_scalars (Rotator.Quaternion e')
          = Quat_scalars (Rotator.Quaternion e)
          \/ Quat_scalars (Rotator.Quaternion e')
             = Quat_scalars (Quat.neg (Rotator.Quaternion e)))).
Proof.
  assert (H90 : sin (DEG2RAD 90) = 1).
  { unfold DEG2RAD, PIOVER180.
    replace (90 * (PI / 180)) with (PI / 2) by field. apply sin_PI2. }
  split; [|cbv zeta; split; [|split]].
  - apply (GetRotator_Quaternion_roundtrip (Rotator.make 30 180 (-90))).
    + simpl. unfold DEG2RAD, PIOVER180, Quat.SINGULARITY_THRESHOLD.
      replace (30 * (PI / 180)) with (PI / 6) by field.
      rewrite sin_PI6. rewrite Rabs_right; lra.
    + simpl. lra.
    + simpl. lra.
    + simpl. lra.
  - apply GetRotator_Quaternion_90_30_60.
  - apply (GetRotator_Quaternion_roundtrip (Rotator.make 90 30 60)).
    simpl. rewrite H90. unfold Quat.SINGULARITY_THRESHOLD. lra.
  - apply (GetRotator_Quaternion_roundtrip (Rotator.make 90 30 60)).
    simpl. rewrite H90. apply Rabs_R1.
Defined.

End RoundTripClaims.

(** ** Rotator: the quaternion, the direction and the matrix *)

Lemma sin_cos_unit (a : R) : sin a * sin a + cos a * cos a = 1.
Proof. pose proof (sin2_cos2 a) as H. unfold Rsqr in H. exact H. Qed.

Lemma Quaternion_SizeSquared (r : Rotator) :
  Quat.SizeSquared (Rotator.Quaternion r) = 1.
Proof.
  unfold Quat.SizeSquared, Rotator.Quaternion, Math.SinCos. cbv zeta.
  simpl.
  pose proof (sin_cos_unit (pitch r * (PI / 180 / 2))) as Hp.
  pose proof (sin_cos_unit (yaw r * (PI / 180 / 2))) as Hy.
  pose proof (sin_cos_unit (roll r * (PI / 180 / 2))) as Hr.
  nsatz.
Qed.

Lemma Quaternion_Inverse_scalars (r : Rotator) :
  Quat.IsNormalized (Rotator.Quaternion r) = true
  /\ Quat_scalars (Quat.Inverse (Rotator.Quaternion r))
     = (w (Rotator.Quaternion r), - x (Rotator.Quaternion r),
        - y (Rotator.Quaternion r), - z (Rotator.Quaternion r)).
Proof.
  assert (Hn : Quat.IsNormalized (Rotator.Quaternion r) = true).
  { apply IsNormalized_true. rewrite Quaternion_SizeSquared.
    replace (1 - 1) with 0 by ring. rewrite Rabs_R0.
    unfold Quat.THRESH_QUAT_NORMALIZED. lra. }
  split; [exact Hn|].
  unfold Quat.Inverse. rewrite Hn. reflexivity.
Qed.

Lemma Vector_unit (r : Rotator) :
  Vector3D.MagnitudeSq (Rotator.Vector r) = 1.
Proof.
  unfold Vector3D.MagnitudeSq, Rotator.Vector, Math.SinCos. simpl.
  pose proof (sin_cos_unit (DEG2RAD (pitch r))) as Hp.
  pose proof (sin_cos_unit (DEG2RAD (yaw r))) as Hy.
  nsatz.
Qed.

(** What [Rotator::Quaternion] and [Rotator::Vector] return has length 1,
    whatever the angles; so [IsNormalized] holds for the quaternion and
    [Inverse] gives its conjugate, never the fallback. *)
Theorem Quaternion_unit (r : Rotator) :
  Quat.SizeSquared (Rotator.Quaternion r) = 1
  /\ Quat.IsNormalized (Rotator.Quaternion r) = true
  /\ Quat_scalars (Quat.Inverse (Rotator.Quaternion r))
     = (w (Rotator.Quaternion r), - x (Rotator.Quaternion r),
        - y (Rotator.Quaternion r), - z (Rotator.Quaternion r))
  /\ Vector3D.MagnitudeSq (Rotator.Vector r) = 1.
Proof.
  split; [apply Quaternion_SizeSquared|].
  destruct (Quaternion_Inverse_scalars r) as [Hn Hi].
  split; [exact Hn|]. split; [exact Hi | apply Vector_unit].
Qed.

(** The sines and cosines in [Rotator::Matrix], as six numbers with their
    three equations. *)
Ltac Matrix_sin_cos r :=
  pose proof (sin_cos_unit (DEG2RAD (yaw r))) as Hp;
  pose proof (sin_cos_unit (DEG2RAD (- roll r))) as Hy;
  pose proof (sin_cos_unit (DEG2RAD (pitch r))) as Hr;
  set (SP := sin (DEG2RAD (yaw r))) in *;
  set (CP := cos (DEG2RAD (yaw r))) in *;
  set (SY := sin (DEG2RAD (- roll r))) in *;
  set (CY := cos (DEG2RAD (- roll r))) in *;
  set (SR := sin (DEG2RAD (pitch r))) in *;
  set (CR := cos (DEG2RAD (pitch r))) in *;
  clearbody SP CP SY CY SR CR.

Lemma Matrix_mul_transpose (r : Rotator) :
  let M := Rotator.Matrix r in
  Matrix3x3.mul M (Matrix3x3.GetTranspose M) = Matrix3x3.Identity
  /\ Matrix3x3.mul (Matrix3x3.GetTranspose M) M = Matrix3x3.Identity.
Proof.
  cbv zeta.
  unfold Rotator.Matrix, Math.SinCos, Matrix3x3.mul, Matrix3x3.GetTranspose,
    Matrix3x3.Mtx33Transpose, Matrix3x3.Identity.
  cbv zeta. simpl. Matrix_sin_cos r.
  split; f_equal; nsatz.
Qed.
(** The matrix of a rotator is a rotation matrix: its product with its
    transpose is the identity, in both orders, and its determinant is 1. *)
Theorem Matrix_orthonormal (r : Rotator) :
  Matrix3x3.mul (Rotator.Matrix r)
                (Matrix3x3.GetTranspose (Rotator.Matrix r))
  = Matrix3x3.Identity
  /\ Matrix3x3.mul (Matrix3x3.GetTranspose (Rotator.Matrix r))
                   (Rotator.Matrix r)
     = Matrix3x3.Identity
  /\ Matrix3x3.Determinant (Rotator.Matrix r) = 1.
Proof.
  destruct (Matrix_mul_transpose r) as [H1 H2].
  split; [exact H1|]. split; [exact H2|].
  unfold Rotator.Matrix, Math.SinCos, Matrix3x3.Determinant.
  cbv zeta. simpl. Matrix_sin_cos r. nsatz.
Qed.

(** ** Matrix3x3.cpp *)

Lemma Mtx33_eq (a b : Matrix3x3.t) :
  Matrix3x3.m00 a = Matrix3x3.m00 b -> Matrix3x3.m01 a = Matrix3x3.m01 b ->
  Matrix3x3.m02 a = Matrix3x3.m02 b -> Matrix3x3.m10 a = Matrix3x3.m10 b ->
  Matrix3x3.m11 a = Matrix3x3.m11 b -> Matrix3x3.m12 a = Matrix3x3.m12 b ->
  Matrix3x3.m20 a = Matrix3x3.m20 b -> Matrix3x3.m21 a = Matrix3x3.m21 b ->
  Matrix3x3.m22 a = Matrix3x3.m22 b -> a = b.
Proof. destruct a, b; simpl; intros; subst; reflexivity. Qed.

(** The algebra of [Matrix3x3]: [operator*] is associative with the
    identity neutral on both sides, transposing reverses a product and is
    its own inverse, the determinant is multiplicative and does not change
    under transposition; the planar builders compose as the maps they stand
    for, [Mtx33RotDeg] is [Mtx33RotRad] of the angle in radians, and a
    rotation has determinant 1. *)
Theorem Matrix3x3_algebra (A B C : Matrix3x3.t) (a b x y x' y' : R) :
  Matrix3x3.mul (Matrix3x3.mul A B) C = Matrix3x3.mul A (Matrix3x3.mul B C)
  /\ Matrix3x3.mul Matrix3x3.Identity A = A
  /\ Matrix3x3.mul A Matrix3x3.Identity = A
  /\ Matrix3x3.GetTranspose (Matrix3x3.mul A B)
     = Matrix3x3.mul (Matrix3x3.GetTranspose B) (Matrix3x3.GetTranspose A)
  /\ Matrix3x3.GetTranspose (Matrix3x3.GetTranspose A) = A
  /\ Matrix3x3.Determinant (Matrix3x3.mul A B)
     = Matrix3x3.Determinant A * Matrix3x3.Determinant B
  /\ Matrix3x3.Determinant (Matrix3x3.GetTranspose A)
     = Matrix3x3.Determinant A
  /\ Matrix3x3.mul (Matrix3x3.Mtx33RotRad a) (Matrix3x3.Mtx33RotRad b)
     = Matrix3x3.Mtx33RotRad (a + b)
  /\ Matrix3x3.mul (Matrix3x3.Mtx33Translate x y)
                   (Matrix3x3.Mtx33Translate x' y')
     = Matrix3x3.Mtx33Translate (x + x') (y + y')
  /\ Matrix3x3.mul (Matrix3x3.Mtx33Scale x y) (Matrix3x3.Mtx33Scale x' y')
     = Matrix3x3.Mtx33Scale (x * x') (y * y')
  /\ Matrix3x3.Mtx33RotDeg a = Matrix3x3.Mtx33RotRad (DegToRad a)
  /\ Matrix3x3.Determinant (Matrix3x3.Mtx33RotRad a) = 1.
Proof.
  repeat (split; [apply Mtx33_eq; simpl; ring|]).
  split; [unfold Matrix3x3.Determinant; simpl; ring|].
  split; [unfold Matrix3x3.Determinant; simpl; ring|].
  split; [apply Mtx33_eq; simpl; rewrite ?sin_plus, ?cos_plus; ring|].
  split; [apply Mtx33_eq; simpl; ring|].
  split; [apply Mtx33_eq; simpl; ring|].
  split.
  - unfold Matrix3x3.Mtx33RotDeg, Matrix3x3.Mtx33RotRad, DegToRad.
    cbv zeta. replace (a * PI / 180) with (a * (PI / 180)) by field.
    reflexivity.
  - unfold Matrix3x3.Determinant. simpl.
    pose proof (sin2_cos2 a) as H. unfold Rsqr in H. nsatz.
Qed.

(** [Mtx33Inverse]: for a determinant other than 0 the result is the
    inverse on both sides; a matrix of determinant 0 comes back unchanged. *)
Theorem Mtx33Inverse_spec (M : Matrix3x3.t) :
  (Matrix3x3.Determinant M <> 0 ->
   Matrix3x3.mul M (Matrix3x3.Mtx33Inverse M) = Matrix3x3.Identity
   /\ Matrix3x3.mul (Matrix3x3.Mtx33Inverse M) M = Matrix3x3.Identity)
  /\ (Matrix3x3.Determinant M = 0 -> Matrix3x3.Mtx33Inverse M = M).
Proof.
  split; intros Hd.
  - unfold Matrix3x3.Mtx33Inverse. cbv zeta.
    rewrite decide_False by exact Hd.
    unfold Matrix3x3.Determinant in *.
    split; apply Mtx33_eq; simpl; field; exact Hd.
  - unfold Matrix3x3.Mtx33Inverse. cbv zeta.
    rewrite decide_True by exact Hd. reflexivity.
Qed.

Lemma mulVec_compose (A B : Matrix3x3.t) (v : Vec3) :
  Matrix3x3.mulVec (Matrix3x3.mul A B) v
  = Matrix3x3.mulVec B (Matrix3x3.mulVec A v).
Proof. apply Vec3_eq; simpl; ring. Qed.

Lemma mulVec_Identity (v : Vec3) :
  Matrix3x3.mulVec Matrix3x3.Identity v = v.
Proof. apply Vec3_eq; simpl; ring. Qed.

(** [operator*(Matrix3x3, Vec3)] combines the vector with the columns of
    the array: it is the row-times-column product (the version that is
    commented out in the source) of the transposed matrix.  So the product
    of two matrices applies its left factor first. *)
Theorem mulVec_mul (A B : Matrix3x3.t) (v : Vec3) :
  Matrix3x3.mulVec (Matrix3x3.mul A B) v
  = Matrix3x3.mulVec B (Matrix3x3.mulVec A v)
  /\ Matrix3x3.mulVec Matrix3x3.Identity v = v
  /\ Matrix3x3.mulVec (Matrix3x3.GetTranspose A) v
     = Vector3D.mk
         (Matrix3x3.m00 A * Vector3D.x v + Matrix3x3.m01 A * Vector3D.y v
          + Matrix3x3.m02 A * Vector3D.z v)
         (Matrix3x3.m10 A * Vector3D.x v + Matrix3x3.m11 A * Vector3D.y v
          + Matrix3x3.m12 A * Vector3D.z v)
         (Matrix3x3.m20 A * Vector3D.x v + Matrix3x3.m21 A * Vector3D.y v
          + Matrix3x3.m22 A * Vector3D.z v).
Proof.
  split; [apply Vec3_eq; simpl; ring|].
  split; [apply Vec3_eq; simpl; ring|]. reflexivity.
Qed.

(** ** Rotator: rotating vectors *)

Lemma mulVec_orthonormal (M : Matrix3x3.t) (u v : Vec3) :
  Matrix3x3.mul M (Matrix3x3.GetTranspose M) = Matrix3x3.Identity ->
  Vector3D.dot (Matrix3x3.mulVec M u) (Matrix3x3.mulVec M v)
  = Vector3D.dot u v.
Proof.
  destruct M as [a00 a01 a02 a10 a11 a12 a20 a21 a22].
  destruct u as [u1 u2 u3], v as [v1 v2 v3].
  unfold Matrix3x3.mul, Matrix3x3.GetTranspose, Matrix3x3.Mtx33Transpose,
    Matrix3x3.Identity, Vector3D.dot. simpl.
  intros H. injection H as H00 H01 H02 H10 H11 H12 H20 H21 H22.
  nsatz.
Qed.

(** [Rotator::RotateVector] keeps inner products, and with them lengths
    and angles, and [UnrotateVector] undoes it, in both orders. *)
Theorem Rotator_RotateVector_isometry (r : Rotator) (u v : Vec3) :
  Vector3D.dot (Rotator.RotateVector r u) (Rotator.RotateVector r v)
  = Vector3D.dot u v
  /\ Rotator.UnrotateVector r (Rotator.RotateVector r v) = v
  /\ Rotator.RotateVector r (Rotator.UnrotateVector r v) = v.
Proof.
  destruct (Matrix_mul_transpose r) as (H1 & H2). cbv zeta in H1, H2.
  unfold Rotator.RotateVector, Rotator.UnrotateVector.
  split; [apply mulVec_orthonormal; exact H1|].
  split.
  - rewrite <- mulVec_compose, H1. apply mulVec_Identity.
  - rewrite <- mulVec_compose, H2. apply mulVec_Identity.
Qed.

(** ** Rotator: reducing the angles keeps the rotation *)

Lemma sin_cos_full_turns (k : Z) (x : R) :
  sin (x + IZR k * (2 * PI)) = sin x /\ cos (x + IZR k * (2 * PI)) = cos x.
Proof.
  destruct (sin_cos_shift k) as (s & Hs & H).
  destruct (H x) as [H1 H2]. destruct (H (x + IZR k * PI)) as [H3 H4].
  replace (x + IZR k * PI + IZR k * PI) with (x + IZR k * (2 * PI))
    in H3, H4 by ring.
  rewrite H3, H4, H1, H2. destruct Hs as [-> | ->]; lra.
Qed.

(** Adding whole turns to the angles of a rotator changes neither its
    matrix nor its direction vector, and its quaternion at most by the
    sign. *)
Lemma full_turns_same_rotation (r r' : Rotator) (kp ky kr : Z) :
  pitch r' = pitch r + 360 * IZR kp ->
  yaw r' = yaw r + 360 * IZR ky ->
  roll r' = roll r + 360 * IZR kr ->
  Rotator.Matrix r' = Rotator.Matrix r
  /\ Rotator.Vector r' = Rotator.Vector r
  /\ (Quat_scalars (Rotator.Quaternion r')
      = Quat_scalars (Rotator.Quaternion r)
      \/ Quat_scalars (Rotator.Quaternion r')
         = Quat_scalars (Quat.neg (Rotator.Quaternion r))).
Proof.
  intros Hp Hy Hr.
  assert (Hfull : forall (a : R) (k : Z),
             sin (DEG2RAD (a + 360 * IZR k)) = sin (DEG2RAD a)
             /\ cos (DEG2RAD (a + 360 * IZR k)) = cos (DEG2RAD a)).
  { intros a k. unfold DEG2RAD, PIOVER180.
    replace ((a + 360 * IZR k) * (PI / 180))
      with (a * (PI / 180) + IZR k * (2 * PI)) by field.
    apply sin_cos_full_turns. }
  assert (Hneg : forall a : R, - (a) = -a + 360 * IZR 0) by (intros; lra).
  split; [|split].
  - unfold Rotator.Matrix, Math.SinCos. cbv zeta. rewrite Hp, Hy, Hr.
    replace (- (roll r + 360 * IZR kr))
      with (- roll r + 360 * IZR (- kr)) by (rewrite opp_IZR; ring).
    destruct (Hfull (yaw r) ky) as [-> ->].
    destruct (Hfull (- roll r) (- kr)%Z) as [-> ->].
    destruct (Hfull (pitch r) kp) as [-> ->]. reflexivity.
  - unfold Rotator.Vector, Math.SinCos. rewrite Hp, Hy.
    destruct (Hfull (yaw r) ky) as [-> ->].
    destruct (Hfull (pitch r) kp) as [-> ->]. reflexivity.
  - destruct (sin_cos_shift kp) as (sp & Hsp & HP).
    destruct (sin_cos_shift ky) as (sy & Hsy & HY).
    destruct (sin_cos_shift kr) as (sr & Hsr & HR).
    assert (Hhalf : forall (a : R) (k : Z),
               (a + 360 * IZR k) * (PI / 180 / 2)
               = a * (PI / 180 / 2) + IZR k * PI) by (intros; field).
    unfold Rotator.Quaternion, Math.SinCos, Quat_scalars, Quat.neg.
    cbv zeta. simpl. rewrite Hp, Hy, Hr, !Hhalf.
    destruct (HP (pitch r * (PI / 180 / 2))) as [-> ->].
    destruct (HY (yaw r * (PI / 180 / 2))) as [-> ->].
    destruct (HR (roll r * (PI / 180 / 2))) as [-> ->].
    assert (Hs : sr * sp * sy = 1 \/ sr * sp * sy = -1).
    { destruct Hsp as [-> | ->], Hsy as [-> | ->], Hsr as [-> | ->];
        lra. }
    destruct Hs as [Hs | Hs]; [left | right];
      (f_equal; [f_equal; [f_equal|]|]);
      match goal with
      | |- ?l = ?r' =>
          first [ transitivity (sr * sp * sy * r'); [ring | rewrite Hs; ring]
                | transitivity (sr * sp * sy * - r');
                  [ring | rewrite Hs; ring] ]
      end.
Qed.

Lemma reduced_same_rotation (r : Rotator) :
  forall r' : Rotator,
    r' = Rotator.Normalize_fields r \/ r' = Rotator.Clamp_fields r ->
    Rotator.Matrix r' = Rotator.Matrix r
    /\ Rotator.Vector r' = Rotator.Vector r
    /\ (Quat_scalars (Rotator.Quaternion r')
        = Quat_scalars (Rotator.Quaternion r)
        \/ Quat_scalars (Rotator.Quaternion r')
           = Quat_scalars (Quat.neg (Rotator.Quaternion r))).
Proof.
  intros r' Hr'.
  destruct (NormalizeAxis_congruent (pitch r)) as [np Hnp].
  destruct (NormalizeAxis_congruent (yaw r)) as [ny Hny].
  destruct (NormalizeAxis_congruent (roll r)) as [nr Hnr].
  destruct (ClampAxis_congruent (pitch r)) as [cp Hcp].
  destruct (ClampAxis_congruent (yaw r)) as [cy Hcy].
  destruct (ClampAxis_congruent (roll r)) as [cr Hcr].
  destruct Hr' as [-> | ->].
  - apply (full_turns_same_rotation r _ np ny nr); assumption.
  - apply (full_turns_same_rotation r _ cp cy cr); assumption.
Qed.

(** [Normalize], [Clamp], [GetNormalized] and [GetClamped] keep the
    rotation: the matrix and the direction vector are the same, the
    quaternion is the same or the opposite one. *)
Theorem Normalize_keeps_rotation (r : Rotator) :
  let same (r' : Rotator) :=
    Rotator.Matrix r' = Rotator.Matrix r
    /\ Rotator.Vector r' = Rotator.Vector r
    /\ (Quat_scalars (Rotator.Quaternion r')
        = Quat_scalars (Rotator.Quaternion r)
        \/ Quat_scalars (Rotator.Quaternion r')
           = Quat_scalars (Quat.neg (Rotator.Quaternion r))) in
  same (Rotator.Normalize_fields r) /\ same (Rotator.Clamp_fields r)
  /\ same (Rotator.GetNormalized r) /\ same (Rotator.GetClamped r).
Proof.
  cbv zeta.
  pose proof (reduced_same_rotation r (Rotator.Normalize_fields r)
                (or_introl eq_refl)) as Hn.
  pose proof (reduced_same_rotation r (Rotator.Clamp_fields r)
                (or_intror eq_refl)) as Hc.
  split; [exact Hn|]. split; [exact Hc|]. split; [exact Hn | exact Hc].
Qed.

(** ** Rotator: [Combine] and [GetInverse] *)

(** [GetRotator] of the identity and of its opposite is the zero
    rotator. *)
Lemma GetRotator_Identity (q : Quat) :
  Quat_scalars q = Quat_scalars Quat.Identity
  \/ Quat_scalars q = Quat_scalars (Quat.neg Quat.Identity) ->
  Rotator_scalars (Quat.GetRotator q) = (0, 0, 0).
Proof.
  intros H.
  assert (Hq : (w q = 1 \/ w q = -1) /\ x q = 0 /\ y q = 0 /\ z q = 0).
  { unfold Quat_scalars in H. simpl in H.
    destruct H as [H | H]; injection H as -> -> -> ->; lra. }
  destruct Hq as (Hw & Hx & Hy & Hz).
  unfold Quat.GetRotator, Quat.SINGULARITY_THRESHOLD. cbv zeta.
  rewrite Hx, Hy, Hz.
  replace (0 * 0 - w q * 0) with 0 by ring.
  rewrite decide_False by lra. rewrite decide_False by lra.
  unfold Rotator_scalars. simpl.
  replace (2 * (w q * 0 + 0 * 0)) with 0 by ring.
  replace (1 - 2 * (0 * 0 + 0 * 0)) with 1 by ring.
  replace (-2 * (w q * 0 + 0 * 0)) with 0 by ring.
  replace (2 * 0) with 0 by ring.
  rewrite atan2f_0_pos by lra. rewrite asin_0.
  unfold RAD2DEG. f_equal; [f_equal|]; ring.
Qed.

(** [Rotator::Combine(A, B)] composes: the rotator it returns turns every
    vector (through its quaternion) as [B] followed by [A] does, provided
    the product quaternion is outside the band where [GetRotator] clamps
    the pitch. *)
Theorem Combine_composes (A B : Rotator) (v : Vec3) :
  let q := Quat.mul (Rotator.Quaternion A) (Rotator.Quaternion B) in
  Rabs (z q * x q - w q * y q) <= Quat.SINGULARITY_THRESHOLD ->
  Quat.RotateVector (Rotator.Quaternion (Rotator_Combine A B)) v
  = Quat.RotateVector (Rotator.Quaternion A)
      (Quat.RotateVector (Rotator.Quaternion B) v).
Proof.
  intros q Hband.
  pose proof (Quaternion_SizeSquared A) as HA.
  pose proof (Quaternion_SizeSquared B) as HB.
  assert (Hq : Quat.SizeSquared q = 1).
  { unfold q. rewrite SizeSquared_mul, HA, HB. ring. }
  unfold Rotator_Combine. fold q.
  rewrite (RotateVector_respects_sign _ q v)
    by (apply Quaternion_GetRotator; assumption).
  unfold q. apply RotateVector_mul_gen; assumption.
Qed.

(** [Rotator::GetInverse]: outside the band where [GetRotator] clamps the
    pitch, the result undoes the rotation, and combining a rotator with its
    inverse gives the zero rotator. *)
Theorem GetInverse_undoes (r : Rotator) (v : Vec3) :
  let q := Rotator.Quaternion r in
  Rabs (z q * x q + w q * y q) <= Quat.SINGULARITY_THRESHOLD ->
  Quat.RotateVector (Rotator.Quaternion (Rotator_GetInverse r))
                    (Quat.RotateVector q v) = v
  /\ Rotator_scalars (Rotator_Combine r (Rotator_GetInverse r)) = (0, 0, 0).
Proof.
  intros q Hband.
  pose proof (Quaternion_SizeSquared r) as Hu.
  destruct (Quaternion_Inverse_scalars r) as (Hn & Hinv).
  fold q in Hu, Hn, Hinv.
  set (c := Quat.Inverse q) in *.
  assert (Hc : w c = w q /\ x c = - x q /\ y c = - y q /\ z c = - z q).
  { unfold Quat_scalars in Hinv. injection Hinv as -> -> -> ->. auto. }
  destruct Hc as (Hcw & Hcx & Hcy & Hcz).
  assert (Hcu : Quat.SizeSquared c = 1).
  { unfold Quat.SizeSquared in *. rewrite Hcw, Hcx, Hcy, Hcz.
    rewrite <- Hu. ring. }
  assert (Hcb : Rabs (z c * x c - w c * y c) <= Quat.SINGULARITY_THRESHOLD).
  { rewrite Hcw, Hcx, Hcy, Hcz.
    replace (- z q * - x q - w q * - y q) with (z q * x q + w q * y q)
      by ring. exact Hband. }
  pose proof (Quaternion_GetRotator c Hcu Hcb) as Hsign.
  unfold Rotator_GetInverse. fold q. fold c.
  split.
  - rewrite (RotateVector_respects_sign _ c _ Hsign).
    unfold Quat.RotateVector. cbv zeta. rewrite Hcw, Hcx, Hcy, Hcz.
    destruct (UnrotateVector_RotateVector_gen q v Hu) as [Hun _].
    exact Hun.
  - unfold Rotator_Combine. fold q.
    apply GetRotator_Identity.
    set (c' := Rotator.Quaternion (Quat.GetRotator c)) in *.
    unfold Quat.SizeSquared in Hu. clearbody c' c q.
    unfold Quat_scalars in *. simpl.
    destruct Hsign as [Hs | Hs]; injection Hs as Hw' Hx' Hy' Hz';
      [left | right]; rewrite Hw', Hx', Hy', Hz';
      simpl; rewrite ?Hcw, ?Hcx, ?Hcy, ?Hcz;
      (f_equal; [f_equal; [f_equal|]|]); try ring; lra.
Qed.

(** ** Vector3D.cpp *)

Lemma Approximate_zero (m : R) :
  0 <= m -> Approximate m 0 = bool_decide (m <= EPSILON).
Proof.
  intros Hm. unfold Approximate, EPSILON, KINDA_SMALL_NUMBER.
  repeat case_decide; try lra;
    [rewrite bool_decide_eq_false_2 by lra
    |rewrite bool_decide_eq_true_2 by lra]; reflexivity.
Qed.

(** [Normalized] (and [Normalize]): a vector whose squared length is above
    [EPSILON] becomes the unit vector of the same direction; any shorter
    one, up to the length 0.01, is returned as it is. *)
Theorem Normalized_spec (v : Vec3) :
  (Vector3D.MagnitudeSq v > EPSILON ->
   Vector3D.MagnitudeSq (Vector3D.Normalized v) = 1
   /\ Vector3D.scale (Vector3D.Magnitude v) (Vector3D.Normalized v) = v)
  /\ (Vector3D.MagnitudeSq v <= EPSILON -> Vector3D.Normalized v = v)
  /\ Vector3D.Normalize v = Vector3D.Normalized v.
Proof.
  pose proof (MagnitudeSq_nonneg v) as Hm.
  pose proof (Magnitude_square v) as [Ha0 Ha].
  unfold Vector3D.Normalized, Vector3D.Normalize, Vector3D.NormalizeVector3D.
  cbv zeta.
  change (Vector3D.Vector3DLengthSquared v) with (Vector3D.MagnitudeSq v).
  rewrite (Approximate_zero _ Hm).
  split; [|split; [|reflexivity]]; intros Hs.
  - rewrite bool_decide_eq_false_2 by lra.
    assert (Hpos : 0 < Vector3D.MagnitudeSq v)
      by (unfold EPSILON, KINDA_SMALL_NUMBER in Hs; lra).
    unfold FastInverseSqrt.
    change (Vector3D.Magnitude v) with (sqrt (Vector3D.MagnitudeSq v)) in *.
    set (a := sqrt (Vector3D.MagnitudeSq v)) in *.
    assert (Hne : a <> 0) by (apply Rgt_not_eq, sqrt_lt_R0; exact Hpos).
    destruct v as [v1 v2 v3].
    unfold Vector3D.MagnitudeSq, Vector3D.scale in *. simpl in *.
    split.
    + transitivity ((v1 * v1 + v2 * v2 + v3 * v3) / (a * a));
        [field; exact Hne|]. rewrite Ha. field. lra.
    + f_equal; field; exact Hne.
  - rewrite bool_decide_eq_true_2 by exact Hs. reflexivity.
Qed.

(** The cross product [operator^] is at right angles to both factors,
    changes sign when they are swapped, and its squared length is
    [|a|^2 |b|^2 - (a.b)^2]. *)
Theorem cross_properties (a b : Vec3) :
  Vector3D.dot (Vector3D.cross a b) a = 0
  /\ Vector3D.dot (Vector3D.cross a b) b = 0
  /\ Vector3D.cross b a = Vector3D.neg (Vector3D.cross a b)
  /\ Vector3D.MagnitudeSq (Vector3D.cross a b)
     = Vector3D.MagnitudeSq a * Vector3D.MagnitudeSq b
       - Vector3D.dot a b * Vector3D.dot a b.
Proof.
  destruct a as [a1 a2 a3], b as [b1 b2 b3].
  unfold Vector3D.dot, Vector3D.cross, Vector3D.neg, Vector3D.MagnitudeSq.
  simpl. repeat split; try ring. f_equal; ring.
Qed.

(** ** Quat: product, rotation and angular distance *)

(** The Hamilton product [operator*]: associative, not commutative (the
    products of (0,1,0,0) and (0,0,1,0) differ in the sign of [z]), with
    [Identity] neutral on both sides, and the squared length of a product is
    the product of the squared lengths, so that unit quaternions stay unit
    quaternions. *)
Theorem mul_algebra (a b c : Quat) :
  Quat.mul (Quat.mul a b) c = Quat.mul a (Quat.mul b c)
  /\ Quat.mul (Quat.make 0 1 0 0) (Quat.make 0 0 1 0)
     <> Quat.mul (Quat.make 0 0 1 0) (Quat.make 0 1 0 0)
  /\ Quat_scalars (Quat.mul Quat.Identity a) = Quat_scalars a
  /\ Quat_scalars (Quat.mul a Quat.Identity) = Quat_scalars a
  /\ Quat.SizeSquared (Quat.mul a b)
     = Quat.SizeSquared a * Quat.SizeSquared b.
Proof.
  split; [apply Quat_eq; simpl; try ring; reflexivity|].
  split; [intros H; apply (f_equal z) in H; simpl in H; lra|].
  split; [unfold Quat_scalars; simpl;
          f_equal; [f_equal; [f_equal|]|]; ring|].
  split; [unfold Quat_scalars; simpl;
          f_equal; [f_equal; [f_equal|]|]; ring|].
  apply SizeSquared_mul.
Qed.

(** [Quat::RotateVector] with a unit quaternion keeps inner products, and
    with them lengths and angles; [UnrotateVector] undoes it, in both
    orders; so [GetAxisX], [GetAxisY] and [GetAxisZ] are three unit vectors
    at right angles to each other. *)
Theorem Quat_RotateVector_isometry (q : Quat) (u v : Vec3) :
  Quat.SizeSquared q = 1 ->
  Vector3D.dot (Quat.RotateVector q u) (Quat.RotateVector q v)
  = Vector3D.dot u v
  /\ Quat.UnrotateVector q (Quat.RotateVector q v) = v
  /\ Quat.RotateVector q (Quat.UnrotateVector q v) = v
  /\ Vector3D.MagnitudeSq (Quat.GetAxisX q) = 1
  /\ Vector3D.MagnitudeSq (Quat.GetAxisY q) = 1
  /\ Vector3D.MagnitudeSq (Quat.GetAxisZ q) = 1
  /\ Vector3D.dot (Quat.GetAxisX q) (Quat.GetAxisY q) = 0
  /\ Vector3D.dot (Quat.GetAxisY q) (Quat.GetAxisZ q) = 0
  /\ Vector3D.dot (Quat.GetAxisZ q) (Quat.GetAxisX q) = 0.
Proof.
  intros Hu.
  assert (Hsq : forall a : Vec3,
             Vector3D.MagnitudeSq a = Vector3D.dot a a) by reflexivity.
  destruct (UnrotateVector_RotateVector_gen q v Hu) as [H1 H2].
  split; [apply RotateVector_dot; exact Hu|].
  split; [exact H1|]. split; [exact H2|].
  unfold Quat.GetAxisX, Quat.GetAxisY, Quat.GetAxisZ.
  rewrite !Hsq, !(RotateVector_dot q _ _ Hu).
  unfold Vector3D.dot. simpl. repeat split; ring.
Qed.

(** The order of composition: [(a * b).RotateVector(v)] rotates by [b]
    first and by [a] second, for unit quaternions. *)
Theorem RotateVector_mul (a b : Quat) (v : Vec3) :
  Quat.SizeSquared a = 1 -> Quat.SizeSquared b = 1 ->
  Quat.RotateVector (Quat.mul a b) v
  = Quat.RotateVector a (Quat.RotateVector b v)
  /\ Quat.SizeSquared (Quat.mul a b) = 1.
Proof.
  intros Ha Hb. split; [apply RotateVector_mul_gen; assumption|].
  rewrite SizeSquared_mul, Ha, Hb. ring.
Qed.

Lemma acos_double (d : R) :
  0 <= d <= 1 -> acos (2 * d * d - 1) = 2 * acos d.
Proof.
  intros Hd.
  assert (Hb : 0 <= acos d <= PI / 2).
  { pose proof (acos_bound d) as [Hb0 _]. split; [exact Hb0|].
    destruct (Rle_dec (acos d) (PI / 2)) as [H | H]; [exact H|].
    exfalso. apply Rnot_le_lt in H.
    assert (Hc : cos (acos d) < 0).
    { apply cos_lt_0; [exact H|]. pose proof (acos_bound d). 
      pose proof PI_RGT_0. lra. }
    rewrite cos_acos in Hc by lra. lra. }
  pose proof (cos_2a_cos (acos d)) as Hc.
  rewrite cos_acos in Hc by lra.
  replace (2 * d * d - 1) with (cos (2 * acos d)) by (rewrite Hc; ring).
  apply acos_cos. lra.
Qed.

(** [AngularDistance] is symmetric and does not see the sign of either
    quaternion; for a normalized [a] and an inner product in [[0, 1]] it is
    the angle of the rotation [a.Inverse() * b] that leads from one to the
    other. *)
Theorem AngularDistance_spec (a b : Quat) :
  Quat.AngularDistance a b = Quat.AngularDistance b a
  /\ Quat.AngularDistance a (Quat.neg b) = Quat.AngularDistance a b
  /\ Quat.AngularDistance (Quat.neg a) b = Quat.AngularDistance a b
  /\ (Quat.IsNormalized a = true -> 0 <= Quat.dot a b <= 1 ->
      Quat.AngularDistance a b
      = Quat.GetAngle (Quat.mul (Quat.Inverse a) b)).
Proof.
  unfold Quat.AngularDistance. cbv zeta.
  split; [f_equal; unfold Quat.dot; ring|].
  split; [f_equal; unfold Quat.dot, Quat.neg; simpl; ring|].
  split; [f_equal; unfold Quat.dot, Quat.neg; simpl; ring|].
  intros Hn Hd. unfold Quat.Inverse. rewrite Hn.
  unfold Quat.GetAngle. simpl.
  replace (w a * w b - - x a * x b - - y a * y b - - z a * z b)
    with (Quat.dot a b) by (unfold Quat.dot; ring).
  apply acos_double. exact Hd.
Qed.

(** ** Transform.cpp: the tag system *)

Lemma append_nil_l (s : string) : EmptyString +:+ s = s.
Proof. reflexivity. Qed.

Lemma append_cons (c : ascii) (a s : string) :
  String c a +:+ s = String c (a +:+ s).
Proof. reflexivity. Qed.

Lemma append_nil_r (s : string) : s +:+ EmptyString = s.
Proof.
  induction s as [|c s IH]; [reflexivity|].
  rewrite append_cons, IH. reflexivity.
Qed.

Lemma append_assoc (a b c : string) : (a +:+ b) +:+ c = a +:+ (b +:+ c).
Proof.
  induction a as [|x a IH]; [reflexivity|].
  rewrite !append_cons, IH. reflexivity.
Qed.

Lemma prefix_empty (s : string) : String.prefix EmptyString s = true.
Proof. destruct s; reflexivity. Qed.

Lemma prefix_cons (c d : ascii) (t s : string) :
  String.prefix (String c t) (String d s)
  = if ascii_dec c d then String.prefix t s else false.
Proof. reflexivity. Qed.

Lemma prefix_append (t b : string) : String.prefix t (t +:+ b) = true.
Proof.
  induction t as [|c t IH]; [apply prefix_empty|].
  rewrite append_cons, prefix_cons.
  destruct (ascii_dec c c); [exact IH | congruence].
Qed.

Lemma prefix_refl (t : string) : String.prefix t t = true.
Proof.
  pose proof (prefix_append t EmptyString) as H.
  rewrite append_nil_r in H. exact H.
Qed.

Lemma string_find_cons (t : string) (c : ascii) (s : string) :
  string_find t (String c s)
  = if String.prefix t (String c s) then Some 0%nat
    else S <$> string_find t s.
Proof.
  unfold string_find. cbn [index].
  destruct (String.prefix t (String c s)); [reflexivity|].
  destruct (index 0 t s); reflexivity.
Qed.

Lemma string_find_prefix (t s : string) :
  String.prefix t s = true -> string_find t s = Some 0%nat.
Proof.
  destruct s as [|c s].
  - destruct t; [reflexivity | discriminate].
  - intros H. rewrite string_find_cons, H. reflexivity.
Qed.

(** A string that occurs anywhere is found. *)
Lemma string_find_occurs (a t b : string) :
  string_find t (a +:+ t +:+ b) <> None.
Proof.
  induction a as [|c a IH].
  - rewrite append_nil_l.
    rewrite (string_find_prefix t (t +:+ b)) by apply prefix_append.
    discriminate.
  - rewrite append_cons, string_find_cons.
    destruct (String.prefix t (String c (a +:+ t +:+ b))); [discriminate|].
    destruct (string_find t (a +:+ t +:+ b)); [discriminate | contradiction].
Qed.

Lemma HasTag_true (Tag t : string) :
  HasTag Tag t = true <-> string_find t Tag <> None.
Proof. unfold HasTag. apply bool_decide_eq_true. Qed.

Lemma HasTag_false (Tag t : string) :
  HasTag Tag t = false <-> string_find t Tag = None.
Proof.
  unfold HasTag. rewrite bool_decide_eq_false.
  destruct (string_find t Tag); split; intros H; try congruence.
  exfalso. apply H. discriminate.
Qed.

Lemma string_find_None_cons (t : string) (c : ascii) (s : string) :
  string_find t (String c s) = None ->
  String.prefix t (String c s) = false /\ string_find t s = None.
Proof.
  rewrite string_find_cons.
  destruct (String.prefix t (String c s)); [discriminate|].
  destruct (string_find t s); [discriminate|]. auto.
Qed.

(** A word without a space that starts a text with a space in it starts the
    part before the space. *)
Lemma prefix_before_space (t X Y : string) :
  string_find " " t = None ->
  String.prefix t (X +:+ String " " Y) = true ->
  String.prefix t X = true.
Proof.
  revert X. induction t as [|a t IH]; intros X Hsp Hp.
  - apply prefix_empty.
  - apply string_find_None_cons in Hsp as [Ha Hsp].
    rewrite prefix_cons in Ha.
    destruct X as [|b X].
    + rewrite append_nil_l, prefix_cons in Hp.
      destruct (ascii_dec a " ") as [-> | Hne]; [|discriminate].
      destruct (ascii_dec " " " "); [|congruence].
      rewrite prefix_empty in Ha. discriminate.
    + rewrite append_cons, prefix_cons in Hp. rewrite prefix_cons.
      destruct (ascii_dec a b); [|discriminate].
      apply IH; assumption.
Qed.

(** Where [AddTag] put the tag is where [find] finds it. *)
Lemma string_find_appended (Tag t : string) :
  t <> EmptyString ->
  string_find " " t = None ->
  string_find t Tag = None ->
  string_find t ((Tag +:+ " ") +:+ t) = Some (String.length Tag + 1)%nat.
Proof.
  intros Hne Hsp. rewrite append_assoc.
  change (" " +:+ t) with (String " " t).
  induction Tag as [|c Tag IH]; intros Hno.
  - rewrite append_nil_l, string_find_cons.
    destruct t as [|a t]; [contradiction|].
    pose proof Hsp as Hsp'.
    apply string_find_None_cons in Hsp' as [Ha _].
    rewrite !prefix_cons in *.
    destruct (ascii_dec a " ") as [-> | Hna].
    + destruct (ascii_dec " " " "); [|congruence].
      rewrite prefix_empty in Ha. discriminate.
    + rewrite (string_find_prefix (String a t) (String a t))
        by apply prefix_refl.
      reflexivity.
  - apply string_find_None_cons in Hno as [Hp Hno].
    rewrite append_cons, string_find_cons.
    destruct (String.prefix t (String c (Tag +:+ String " " t))) eqn:Hp'.
    + rewrite <- append_cons in Hp'.
      apply prefix_before_space in Hp'; [congruence | exact Hsp].
    + rewrite (IH Hno). reflexivity.
Qed.

Lemma substring_prefix (a b : string) :
  String.substring 0 (String.length a) (a +:+ b) = a.
Proof.
  induction a as [|c a IH]; [destruct b; reflexivity|].
  rewrite append_cons. simpl. rewrite IH. reflexivity.
Qed.

Lemma string_drop_all (n : nat) (s : string) :
  (String.length s <= n)%nat -> string_drop n s = EmptyString.
Proof.
  revert n. induction s as [|c s IH]; intros n Hn.
  - destruct n; reflexivity.
  - destruct n; simpl in *; [lia|]. apply IH. lia.
Qed.

Lemma length_append (a b : string) :
  String.length (a +:+ b) = (String.length a + String.length b)%nat.
Proof.
  induction a as [|c a IH]; [reflexivity|].
  rewrite append_cons. simpl. rewrite IH. reflexivity.
Qed.

Lemma string_back_space (a : string) :
  string_back (a +:+ " ") = Some " "%char
  /\ string_pop_back (a +:+ " ") = a
  /\ is_empty (a +:+ " ") = false.
Proof.
  induction a as [|c a (IH1 & IH2 & IH3)]; [repeat split|].
  rewrite append_cons. simpl.
  destruct (a +:+ " ") eqn:E; [discriminate|].
  rewrite IH1, IH2. auto.
Qed.

(** The tag system.  [HasTag] looks for a substring: a tag is reported
    wherever its characters occur, also inside another word.  After [AddTag]
    the tag is always reported, adding it again changes nothing, and a list
    that reports the tag already is not changed.  [RemoveTag] leaves a list
    alone that does not report the tag, and takes away again what [AddTag]
    appended, when the tag is a word (not empty, no space in it) that the
    list did not report before. *)
Theorem Tag_add_remove (Tag t a b : string) :
  HasTag (a +:+ t +:+ b) t = true
  /\ HasTag (AddTag Tag t) t = true
  /\ AddTag (AddTag Tag t) t = AddTag Tag t
  /\ (HasTag Tag t = true -> Tag <> EmptyString -> AddTag Tag t = Tag)
  /\ (HasTag Tag t = false -> RemoveTag Tag t = Tag)
  /\ (t <> EmptyString -> HasTag t " " = false -> HasTag Tag t = false ->
      RemoveTag (AddTag Tag t) t = Tag).
Proof.
  assert (Hocc : forall x y : string, HasTag (x +:+ t +:+ y) t = true).
  { intros x y. apply HasTag_true, string_find_occurs. }
  assert (Hself : HasTag t t = true).
  { pose proof (Hocc EmptyString EmptyString) as H.
    rewrite append_nil_l, append_nil_r in H. exact H. }
  assert (Happ : forall x : string, HasTag ((x +:+ " ") +:+ t) t = true).
  { intros x. pose proof (Hocc (x +:+ " ") EmptyString) as H.
    rewrite append_nil_r in H. exact H. }
  assert (Hadd : HasTag (AddTag Tag t) t = true).
  { unfold AddTag. cbv zeta. case_decide as He.
    - rewrite Hself. simpl. exact Hself.
    - destruct (HasTag Tag t) eqn:Hh; simpl; [exact Hh | apply Happ]. }
  split; [apply Hocc|]. split; [exact Hadd|].
  split; [|split; [|split]].
  - unfold AddTag at 1. cbv zeta.
    case_decide as He; [|rewrite Hadd; reflexivity].
    rewrite Hself. simpl. rewrite He.
    revert He. unfold AddTag. cbv zeta. case_decide as He'.
    + rewrite Hself. simpl. auto.
    + destruct (HasTag Tag t); simpl; [intros; contradiction|].
      destruct Tag; [contradiction | discriminate].
  - intros Hh Hne. unfold AddTag. cbv zeta.
    rewrite decide_False by exact Hne. rewrite Hh. reflexivity.
  - intros H. apply HasTag_false in H. unfold RemoveTag. cbv zeta.
    rewrite H. reflexivity.
  - intros Hne Hsp Hno.
    apply HasTag_false in Hsp. pose proof Hno as Hno'.
    apply HasTag_false in Hno'.
    unfold AddTag. cbv zeta. case_decide as He.
    + subst Tag. rewrite Hself. simpl. unfold RemoveTag. cbv zeta.
      rewrite (string_find_prefix t t) by apply prefix_refl.
      unfold string_erase.
      rewrite string_drop_all by (simpl; lia).
      destruct t; reflexivity.
    + rewrite Hno. simpl. unfold RemoveTag. cbv zeta.
      rewrite (string_find_appended Tag t Hne Hsp Hno').
      unfold string_erase.
      rewrite string_drop_all
        by (rewrite !length_append; simpl; lia).
      rewrite append_nil_r.
      replace (String.length Tag + 1)%nat
        with (String.length (Tag +:+ " "))
        by (rewrite length_append; reflexivity).
      rewrite substring_prefix.
      destruct (string_back_space Tag) as (-> & -> & ->).
      simpl. reflexivity.
Qed.

(** ** Text streams: lines, words and numbers *)

Lemma string_drop_append (a b : string) :
  string_drop (String.length a) (a +:+ b) = b.
Proof.
  induction a as [|c a IH]; [reflexivity|].
  rewrite append_cons. simpl. exact IH.
Qed.

Lemma string_drop_plus (p n : nat) (s : string) :
  string_drop (p + n) s = string_drop n (string_drop p s).
Proof.
  revert s. induction p as [|p IH]; intros s; [reflexivity|].
  destruct s as [|c s]; simpl.
  - destruct n; reflexivity.
  - apply IH.
Qed.

(** What remains after a further piece of the remaining text. *)
Lemma string_drop_next (p : nat) (s a b : string) :
  string_drop p s = a +:+ b ->
  string_drop (p + String.length a) s = b.
Proof.
  intros H. rewrite string_drop_plus, H. apply string_drop_append.
Qed.

Lemma string_drop_past (p : nat) (s a b : string) (c : ascii) :
  string_drop p s = a +:+ String c b ->
  string_drop (p + String.length a + 1) s = b.
Proof.
  intros H. rewrite string_drop_plus, (string_drop_next p s a _ H).
  reflexivity.
Qed.

Lemma string_until_cons (delim c : ascii) (s : string) :
  string_until delim (String c s)
  = if decide (c = delim) then (EmptyString, true)
    else (String c (fst (string_until delim s)),
          snd (string_until delim s)).
Proof.
  simpl. case_decide; [reflexivity|].
  destruct (string_until delim s); reflexivity.
Qed.

Lemma string_until_absent_cons (delim c : ascii) (s : string) :
  string_until delim (String c s) = (String c s, false) ->
  c <> delim /\ string_until delim s = (s, false).
Proof.
  rewrite string_until_cons. case_decide as Hd; [discriminate|].
  intros H. injection H as H1 H2. split; [exact Hd|].
  destruct (string_until delim s); simpl in *. congruence.
Qed.

Lemma string_until_found (delim : ascii) (line post : string) :
  string_until delim line = (line, false) ->
  string_until delim (line +:+ String delim post) = (line, true).
Proof.
  induction line as [|c line IH]; intros H.
  - rewrite append_nil_l, string_until_cons.
    rewrite decide_True by reflexivity. reflexivity.
  - apply string_until_absent_cons in H as [Hc H].
    rewrite append_cons, string_until_cons, decide_False by exact Hc.
    rewrite (IH H). reflexivity.
Qed.

Lemma string_until_absent_append (delim : ascii) (a b : string) :
  string_until delim a = (a, false) ->
  string_until delim b = (b, false) ->
  string_until delim (a +:+ b) = (a +:+ b, false).
Proof.
  induction a as [|c a IH]; intros Ha Hb; [exact Hb|].
  apply string_until_absent_cons in Ha as [Hc Ha].
  rewrite append_cons, string_until_cons, decide_False by exact Hc.
  rewrite (IH Ha Hb). reflexivity.
Qed.

Lemma take_word_cons (c : ascii) (s : string) :
  take_word (String c s) = String c s ->
  isspace c = false /\ take_word s = s.
Proof.
  simpl. destruct (isspace c); [discriminate|].
  intros H. injection H as H. auto.
Qed.

(** A word holds no white space, so no line end either. *)
Lemma word_no_newline (s : string) :
  take_word s = s -> string_until "010"%char s = (s, false).
Proof.
  induction s as [|c s IH]; intros H; [reflexivity|].
  apply take_word_cons in H as [Hc H].
  rewrite string_until_cons.
  rewrite decide_False by (intros ->; discriminate).
  rewrite (IH H). reflexivity.
Qed.

Lemma word_skip_space (s t : string) :
  s <> EmptyString -> take_word s = s -> skip_space (s +:+ t) = 0%nat.
Proof.
  intros Hne H. destruct s as [|c s]; [contradiction|].
  apply take_word_cons in H as [Hc _].
  rewrite append_cons. simpl. rewrite Hc. reflexivity.
Qed.

Lemma is_empty_append (s t : string) :
  s <> EmptyString -> is_empty (s +:+ t) = false.
Proof. destruct s; [contradiction | reflexivity]. Qed.

(** [getline] on a good stream whose remaining text starts with a line. *)
Lemma getline_at (s : istream) (input line post : string) (delim : ascii) :
  good s = true ->
  string_until delim line = (line, false) ->
  string_drop (pos s) (content s) = line +:+ String delim post ->
  getline s input delim
  = (mkIstream (content s) (pos s + String.length line + 1) false false,
     line).
Proof.
  intros Hg Hl Hr. unfold getline. rewrite Hg, Hr.
  rewrite (string_until_found delim line post Hl). reflexivity.
Qed.

(** [getline] on a good stream whose remaining text has no delimiter. *)
Lemma getline_rest (s : istream) (input line : string) (delim : ascii) :
  good s = true ->
  string_until delim line = (line, false) ->
  string_drop (pos s) (content s) = line ->
  getline s input delim
  = (mkIstream (content s) (pos s + String.length line) true
               (is_empty line), line).
Proof.
  intros Hg Hl Hr. unfold getline. rewrite Hg, Hr, Hl. reflexivity.
Qed.

(** ** Transform.cpp: what [Serialize] writes, [Deserialize] reads *)

Section RoundTrip.

Context {M44 : Matrix4x4} {FT : FloatText} {CB : ComponentBase}.

(** [stream >> float] on a good stream whose remaining text is a space and
    a number that reads back, followed by the end or by another space. *)
Lemma extract_float_at (s : istream) (v0 v : R) (tail : string) :
  good s = true ->
  FloatText_exact v ->
  tail = EmptyString \/ (exists t : string, tail = String " "%char t) ->
  string_drop (pos s) (content s)
  = String " "%char (show_float v +:+ tail) ->
  extract_float s v0
  = (mkIstream (content s) (pos s + 1 + String.length (show_float v))
               (is_empty tail) false, v).
Proof.
  intros Hg (Hne & Hw & _ & _ & Hn & Hns) Ht Hr.
  unfold extract_float. rewrite Hg, Hr. cbv zeta.
  assert (Hsk : skip_space (String " " (show_float v +:+ tail)) = 1%nat).
  { simpl. rewrite (word_skip_space _ tail Hne Hw). reflexivity. }
  rewrite Hsk. simpl string_drop.
  rewrite (is_empty_append _ tail Hne).
  assert (Hnum : num_get (show_float v +:+ tail)
                 = Some (v, String.length (show_float v))).
  { destruct Ht as [-> | [t ->]]; [rewrite append_nil_r; exact Hn|].
    apply Hns. }
  rewrite Hnum, string_drop_append. reflexivity.
Qed.

(** Three numbers separated by commas, as [Deserialize] takes them from the
    position and the scale line. *)
Lemma comma_triple (x y z : R) (input0 : string) :
  FloatText_exact x -> FloatText_exact y -> FloatText_exact z ->
  let input :=
    show_float x +:+ String ","%char
      (show_float y +:+ String ","%char (show_float z)) in
  exists (i1 i2 i3 : istream),
    getline (istringstream input) input0 ","%char = (i1, show_float x)
    /\ getline i1 (show_float x) ","%char = (i2, show_float y)
    /\ getline i2 (show_float y) ","%char = (i3, show_float z)
    /\ stof (show_float x) = Some x /\ stof (show_float y) = Some y
    /\ stof (show_float z) = Some z.
Proof.
  intros (_ & _ & Hcx & Hsx & _) (_ & _ & Hcy & Hsy & _)
    (_ & _ & Hcz & Hsz & _). cbv zeta.
  set (X := show_float x) in *. set (Y := show_float y) in *.
  set (Z := show_float z) in *.
  eexists _, _, _.
  split; [apply (getline_at _ _ X (Y +:+ String "," Z));
          [reflexivity | exact Hcx | reflexivity]|].
  split; [apply (getline_at _ _ Y Z);
          [reflexivity | exact Hcy |
           apply (string_drop_past 0 _ X _ ","%char); reflexivity]|].
  split; [apply (getline_rest _ _ Z);
          [reflexivity | exact Hcz |
           apply (string_drop_past _ _ Y _ ","%char);
           apply (string_drop_past 0 _ X _ ","%char); reflexivity]|].
  auto.
Qed.

(** The label-present path of [Deserialize], with the state it leaves. *)
Lemma Deserialize_rotation_present_state (a : addr) (file : istream)
  (input : string) (T : Transform) (W : World) :
  transforms W !! a = Some T ->
  Transform_bound a T ->
  rotation_label file input = "ROTATION:"%string ->
  let vals := rotation_values file input (rotator T) in
  let r' :=
    mkRotator (fst (fst vals)) (snd (fst vals)) (snd vals)
              (Rotator_mp_BoundTransform (rotator T)) in
  Deserialize_rotation a file input W
  = Some (set_transform a
            (UpdateMtx_fields (after_Rotator_update (with_rotator T r'))) W,
          Component_Deserialize (fst (rotation_line file input))
                                (snd (rotation_line file input))).
Proof.
  intros HT [Hbq Hbr] Hl. cbv zeta.
  unfold Deserialize_rotation, rotation_label, rotation_values,
    rotation_line in *.
  destruct (tellg file) as [file1 t]. simpl in *.
  destruct (getline file1 input "010") as [file2 line]. simpl in *.
  destruct (extract_word (istringstream line) "") as [iss tmp]. simpl in *.
  rewrite decide_False by (intros Hn; apply Hn; exact Hl).
  rewrite HT. cbn [mbind option_bind].
  destruct (extract_float iss (pitch (rotator T))) as [iss1 r_pitch].
  destruct (extract_float iss1 (yaw (rotator T))) as [iss2 r_yaw].
  destruct (extract_float iss2 (roll (rotator T))) as [iss3 r_roll].
  simpl.
  set (r' := mkRotator r_pitch r_yaw r_roll
               (Rotator_mp_BoundTransform (rotator T))).
  change (mkTransform (rotation T) r' (position T) (scale T) (Tag T)
            (mtx T) (notified T)) with (with_rotator T r').
  rewrite (Rotator_UpdateBoundTransform_member a (with_rotator T r'));
    [|apply set_transform_lookup|exact Hbr].
  cbn [mbind option_bind]. rewrite set_transform_twice.
  unfold UpdateMtx. rewrite set_transform_lookup. cbn [mbind option_bind].
  rewrite set_transform_twice. reflexivity.
Qed.

(** A good stream that stands at a rotation line: the line that is read,
    its first word, and the three numbers after it. *)
Lemma rotation_line_at (file : istream) (input rest : string) (p y r : R) :
  good file = true ->
  FloatText_exact p -> FloatText_exact y -> FloatText_exact r ->
  let line :=
    "ROTATION: " +:+ show_float p +:+ " " +:+ show_float y +:+ " "
    +:+ show_float r in
  string_drop (pos file) (content file) = line +:+ newline +:+ rest ->
  rotation_line file input
  = (mkIstream (content file) (pos file + String.length line + 1)
               false false, line)
  /\ rotation_label file input = "ROTATION:"%string
  /\ forall r0 : Rotator, rotation_values file input r0 = (p, y, r).
Proof.
  intros Hg Hp Hy Hr. cbv zeta.
  set (RP := show_float p). set (RY := show_float y).
  set (RR := show_float r).
  change ("ROTATION: " +:+ RP +:+ " " +:+ RY +:+ " " +:+ RR)
    with ("ROTATION: " +:+ RP +:+ String " " (RY +:+ String " " RR)).
  set (L4 := "ROTATION: " +:+ RP +:+ String " " (RY +:+ String " " RR)).
  change (L4 +:+ newline +:+ rest) with (L4 +:+ String "010" rest).
  intros Hd.
  assert (Hw : forall v : R, FloatText_exact v ->
               string_until "010"%char (show_float v) = (show_float v, false)).
  { intros v (_ & Hv & _). apply word_no_newline. exact Hv. }
  assert (Hsp : forall s : string,
             string_until "010"%char s = (s, false) ->
             string_until "010"%char (String " " s) = (String " " s, false)).
  { intros s Hs. rewrite string_until_cons, decide_False by discriminate.
    rewrite Hs. reflexivity. }
  assert (Hn4 : string_until "010"%char L4 = (L4, false)).
  { apply string_until_absent_append; [reflexivity|].
    apply string_until_absent_append; [apply Hw; exact Hp|].
    apply Hsp. apply string_until_absent_append; [apply Hw; exact Hy|].
    apply Hsp. apply Hw. exact Hr. }
  assert (Hline : rotation_line file input
                  = (mkIstream (content file)
                       (pos file + String.length L4 + 1) false false, L4)).
  { unfold rotation_line, tellg. rewrite Hg. cbn [fst].
    apply (getline_at file input L4 rest "010"%char);
      [exact Hg | exact Hn4 | exact Hd]. }
  assert (Hword : extract_word (istringstream L4) EmptyString
                  = (mkIstream L4 9 false false, "ROTATION:"%string))
    by reflexivity.
  split; [exact Hline|]. split.
  { unfold rotation_label. rewrite Hline. cbn [snd]. rewrite Hword.
    reflexivity. }
  intros r0. unfold rotation_values. cbv zeta. rewrite Hline. cbn [snd].
  rewrite Hword. cbn [fst].
  assert (He0 : string_drop 9 L4
                = String " " (RP +:+ String " " (RY +:+ String " " RR)))
    by reflexivity.
  rewrite (extract_float_at (mkIstream L4 9 false false) (pitch r0)
             p (String " " (RY +:+ String " " RR)));
    [|reflexivity | exact Hp | right; eexists; reflexivity | exact He0].
  cbv beta iota. cbn [content pos is_empty]. fold RP.
  assert (He1 : string_drop (9 + 1 + String.length RP) L4
                = String " " (RY +:+ String " " RR)).
  { rewrite (string_drop_plus (9 + 1)).
    replace (string_drop (9 + 1) L4)
      with (RP +:+ String " " (RY +:+ String " " RR)) by reflexivity.
    apply string_drop_append. }
  rewrite (extract_float_at _ (yaw r0) y (String " " RR));
    [|reflexivity | exact Hy | right; eexists; reflexivity | exact He1].
  cbv beta iota. cbn [content pos is_empty]. fold RY.
  assert (He2 : string_drop
                  (9 + 1 + String.length RP + 1 + String.length RY) L4
                = String " " (RR +:+ EmptyString)).
  { rewrite append_nil_r.
    rewrite (string_drop_plus (9 + 1 + String.length RP + 1)).
    rewrite (string_drop_plus (9 + 1 + String.length RP)), He1.
    simpl string_drop. apply string_drop_append. }
  rewrite (extract_float_at _ (roll r0) r EmptyString);
    [|reflexivity | exact Hr | left; reflexivity | exact He2].
  reflexivity.
Qed.

(** C8.  After the tag, the position and the scale, which leave quaternion
    and rotator alone, [Deserialize] reads one line for the rotation.
    - When the first word of that line is the label [ROTATION:], the three
      numbers after it go into the rotator of the (bound) [Transform],
      quaternion and matrix are recomputed from the rotator, and
      [Component::Deserialize] goes on behind the line.
    - In particular, on a line [ROTATION: <pitch> <yaw> <roll>] the rotator
      gets these three values.
    - When the first word is not the label, the call returns normally, the
      stream is back at the position it had before the line was read, and
      quaternion and rotator are what they were before the call (for a
      freshly constructed [Transform], the defaults). *)
Theorem Deserialize_rotation_or_rewind (a : addr) (file file1 : istream)
  (input input1 : string) (W W1 : World) :
  Deserialize_fields a file input W = Some (W1, file1, input1) ->
  exists T T1 : Transform,
    transforms W !! a = Some T
    /\ transforms W1 !! a = Some T1
    /\ rotation T1 = rotation T
    /\ rotator T1 = rotator T
    /\ (Transform_bound a T ->
        rotation_label file1 input1 = "ROTATION:"%string ->
        exists T' : Transform,
          Deserialize a file input W
          = Some (set_transform a T' W1,
                  Component_Deserialize (fst (rotation_line file1 input1))
                                        (snd (rotation_line file1 input1)))
          /\ Rotator_scalars (rotator T')
             = rotation_values file1 input1 (rotator T)
          /\ synced_from_rotator T'
          /\ Transform_bound a T'
          /\ Tag T' = Tag T1 /\ position T' = position T1
          /\ scale T' = scale T1)
    /\ (forall (p y r : R) (rest : string),
          Transform_bound a T ->
          good file1 = true ->
          FloatText_exact p -> FloatText_exact y -> FloatText_exact r ->
          let line :=
            "ROTATION: " +:+ show_float p +:+ " " +:+ show_float y +:+ " "
            +:+ show_float r in
          string_drop (pos file1) (content file1)
          = line +:+ newline +:+ rest ->
          exists T' : Transform,
            Deserialize a file input W
            = Some (set_transform a T' W1,
                    Component_Deserialize
                      (mkIstream (content file1)
                         (pos file1 + String.length line + 1) false false)
                      line)
            /\ Rotator_scalars (rotator T') = (p, y, r)
            /\ synced_from_rotator T'
            /\ Transform_bound a T')
    /\ (rotation_label file1 input1 <> "ROTATION:"%string ->
        exists file' : istream,
          Deserialize a file input W = Some (W1, file')
          /\ pos file' = pos file1
          /\ content file' = content file1).
Proof.
  intros Hf.
  destruct (Deserialize_fields_keeps_rotation a file file1 input input1 W W1
              Hf) as (T & T1 & HT & HT1 & Hq & Hr & _).
  exists T, T1. do 4 (split; [assumption|]).
  assert (Hpresent :
            Transform_bound a T ->
            rotation_label file1 input1 = "ROTATION:"%string ->
            Deserialize a file input W
            = Some (set_transform a
                      (UpdateMtx_fields
                         (after_Rotator_update
                            (with_rotator T1
                               (mkRotator
                                  (fst (fst (rotation_values file1 input1
                                               (rotator T1))))
                                  (snd (fst (rotation_values file1 input1
                                               (rotator T1))))
                                  (snd (rotation_values file1 input1
                                          (rotator T1)))
                                  (Rotator_mp_BoundTransform (rotator T1))))))
                      W1,
                    Component_Deserialize (fst (rotation_line file1 input1))
                                          (snd (rotation_line file1 input1)))
            /\ Rotator_mp_BoundTransform (rotator T1) = Some a
            /\ Quat_mp_BoundTransform (rotation T1) = Some a).
  { intros [Hbq Hbr] Hl.
    assert (Hb1 : Transform_bound a T1)
      by (split; [rewrite Hq; exact Hbq | rewrite Hr; exact Hbr]).
    pose proof (Deserialize_rotation_present_state a file1 input1 T1 W1
                  HT1 Hb1 Hl) as Hrot.
    cbv zeta in Hrot. unfold Deserialize. rewrite Hf.
    cbn [mbind option_bind]. destruct Hb1. auto. }
  split; [|split].
  - intros Hb Hl. destruct (Hpresent Hb Hl) as (Hrun & Hbr & Hbq).
    eexists. split; [exact Hrun|].
    split.
    { rewrite <- Hr. unfold Rotator_scalars. simpl.
      destruct (rotation_values file1 input1 (rotator T1)) as [[? ?] ?].
      reflexivity. }
    split; [split; reflexivity|].
    split; [split; simpl; assumption|].
    simpl. auto.
  - intros p y r rest Hb Hg Hp Hy Hrr line Hd.
    destruct (rotation_line_at file1 input1 rest p y r Hg Hp Hy Hrr Hd)
      as (Hline & Hl & Hv).
    destruct (Hpresent Hb Hl) as (Hrun & Hbr & Hbq).
    rewrite Hline, (Hv (rotator T1)) in Hrun. cbn [fst snd] in Hrun.
    eexists. split; [exact Hrun|].
    split; [reflexivity|].
    split; [split; reflexivity|]. split; simpl; assumption.
  - intros Hl.
    destruct (Deserialize_rotation_legacy a file1 input1 W1 Hl)
      as (file' & Hrot & Hpos & Hcont).
    exists file'. unfold Deserialize. rewrite Hf.
    cbn [mbind option_bind]. rewrite Hrot. auto.
Qed.

(** What [Serialize] writes, [Deserialize] reads back.  The text that
    [Serialize] appends after the header line, whatever follows it in the
    file, is read into the [Transform] at [a] up to its last line end and
    gives that object the tag, the position, the scale and the three angles
    of the one that was written, with quaternion and matrix recomputed from
    the angles; provided the tag has no line end in it and the nine numbers
    are written in a form that reads back. *)
Theorem Serialize_Deserialize_roundtrip (a : addr) (T Ta : Transform)
  (W : World) (file0 rest input : string) :
  transforms W !! a = Some Ta ->
  Transform_bound a Ta ->
  string_until "010"%char (Tag T) = (Tag T, false) ->
  (forall v : R,
      v ∈ [Vector3D.x (position T); Vector3D.y (position T);
           Vector3D.z (position T); Vector3D.x (scale T);
           Vector3D.y (scale T); Vector3D.z (scale T);
           pitch (rotator T); yaw (rotator T); roll (rotator T)] ->
      FloatText_exact v) ->
  exists (body : string) (T' : Transform) (file' : istream)
         (input' : string),
    Serialize T file0
    = Component_Serialize
        (((file0 +:+ "[TRANSFORM]") +:+ newline) +:+ body)
    /\ Deserialize a (mkIstream (body +:+ rest) 0 false false) input W
       = Some (set_transform a T' W, Component_Deserialize file' input')
    /\ content file' = body +:+ rest
    /\ pos file' = String.length body
    /\ Tag T' = Tag T
    /\ position T' = position T
    /\ scale T' = scale T
    /\ Rotator_scalars (rotator T') = Rotator_scalars (rotator T)
    /\ synced_from_rotator T'
    /\ Transform_bound a T'.
Proof.
  intros HTa Hbound Htag Hnum.
  assert (Hpx : FloatText_exact (Vector3D.x (position T)))
    by (apply Hnum; set_solver).
  assert (Hpy : FloatText_exact (Vector3D.y (position T)))
    by (apply Hnum; set_solver).
  assert (Hpz : FloatText_exact (Vector3D.z (position T)))
    by (apply Hnum; set_solver).
  assert (Hsx : FloatText_exact (Vector3D.x (scale T)))
    by (apply Hnum; set_solver).
  assert (Hsy : FloatText_exact (Vector3D.y (scale T)))
    by (apply Hnum; set_solver).
  assert (Hsz : FloatText_exact (Vector3D.z (scale T)))
    by (apply Hnum; set_solver).
  assert (Hrp : FloatText_exact (pitch (rotator T)))
    by (apply Hnum; set_solver).
  assert (Hry : FloatText_exact (yaw (rotator T)))
    by (apply Hnum; set_solver).
  assert (Hrr : FloatText_exact (roll (rotator T)))
    by (apply Hnum; set_solver).
  clear Hnum.
  destruct T as [rotT rrT [px py pz] [sx sy sz] TagT mtxT nT].
  simpl in *.
  set (PX := show_float px) in *. set (PY := show_float py) in *.
  set (PZ := show_float pz) in *. set (SX := show_float sx) in *.
  set (SY := show_float sy) in *. set (SZ := show_float sz) in *.
  set (RP := show_float (pitch rrT)) in *.
  set (RY := show_float (yaw rrT)) in *.
  set (RR := show_float (roll rrT)) in *.
  set (L1 := "TAG:" +:+ TagT).
  set (V2 := PX +:+ String "," (PY +:+ String "," PZ)).
  set (V3 := SX +:+ String "," (SY +:+ String "," SZ)).
  set (L2 := "POSITION:" +:+ V2).
  set (L3 := "SCALE:" +:+ V3).
  set (L4 := "ROTATION: " +:+ RP +:+ String " " (RY +:+ String " " RR)).
  set (R3 := L4 +:+ String "010" rest).
  set (R2 := L3 +:+ String "010" R3).
  set (R1 := L2 +:+ String "010" R2).
  set (body := L1 +:+ newline +:+ L2 +:+ newline +:+ L3 +:+ newline
               +:+ L4 +:+ newline).
  assert (Hbody : body +:+ rest = L1 +:+ String "010" R1).
  { unfold body, R1, R2, R3. rewrite !append_assoc. reflexivity. }
  (* no line end in any of the four lines *)
  assert (Hw : forall v : R, FloatText_exact v ->
               string_until "010"%char (show_float v) = (show_float v, false)).
  { intros v (_ & Hv & _). apply word_no_newline. exact Hv. }
  assert (Hn1 : string_until "010"%char L1 = (L1, false)).
  { apply string_until_absent_append; [reflexivity | exact Htag]. }
  assert (Htriple : forall A B C : R,
             FloatText_exact A -> FloatText_exact B -> FloatText_exact C ->
             forall sep : ascii, sep <> "010"%char ->
             string_until "010"%char
               (show_float A
                +:+ String sep (show_float B +:+ String sep (show_float C)))
             = (show_float A
                +:+ String sep (show_float B +:+ String sep (show_float C)),
                false)).
  { intros A B C HA HB HC sep Hsep.
    assert (Hsepn : forall s : string,
               string_until "010"%char s = (s, false) ->
               string_until "010"%char (String sep s) = (String sep s, false)).
    { intros s Hs. rewrite string_until_cons, decide_False by exact Hsep.
      rewrite Hs. reflexivity. }
    apply string_until_absent_append; [apply Hw; exact HA|].
    apply Hsepn. apply string_until_absent_append; [apply Hw; exact HB|].
    apply Hsepn. apply Hw. exact HC. }
  assert (Hn2 : string_until "010"%char L2 = (L2, false)).
  { apply string_until_absent_append; [reflexivity|].
    apply Htriple; try assumption. discriminate. }
  assert (Hn3 : string_until "010"%char L3 = (L3, false)).
  { apply string_until_absent_append; [reflexivity|].
    apply Htriple; try assumption. discriminate. }
  assert (Hn4 : string_until "010"%char L4 = (L4, false)).
  { apply string_until_absent_append; [reflexivity|].
    apply Htriple; try assumption. discriminate. }
  (* the stream after each of the four lines *)
  set (C := body +:+ rest) in *.
  set (p1 := (0 + String.length L1 + 1)%nat).
  set (p2 := (p1 + String.length L2 + 1)%nat).
  set (p3 := (p2 + String.length L3 + 1)%nat).
  set (p4 := (p3 + String.length L4 + 1)%nat).
  assert (Hd1 : string_drop p1 C = R1)
    by (apply (string_drop_past 0 C L1 R1 "010"%char); exact Hbody).
  assert (Hd2 : string_drop p2 C = R2)
    by (apply (string_drop_past p1 C L2 R2 "010"%char); exact Hd1).
  assert (Hd3 : string_drop p3 C = R3)
    by (apply (string_drop_past p2 C L3 R3 "010"%char); exact Hd2).
  assert (Hg1 : getline (mkIstream C 0 false false) input "010"%char
                = (mkIstream C p1 false false, L1))
    by (apply (getline_at (mkIstream C 0 false false) input L1 R1
                 "010"%char); [reflexivity | exact Hn1 | exact Hbody]).
  assert (Hg2 : getline (mkIstream C p1 false false) L1 "010"%char
                = (mkIstream C p2 false false, L2))
    by (apply (getline_at (mkIstream C p1 false false) L1 L2 R2
                 "010"%char); [reflexivity | exact Hn2 | exact Hd1]).
  destruct (comma_triple px py pz V2 Hpx Hpy Hpz)
    as (i1 & i2 & i3 & Hc1 & Hc2 & Hc3 & Hs1 & Hs2 & Hs3).
  cbv zeta in Hc1. fold PX PY PZ in Hc1, Hc2, Hc3, Hs1, Hs2, Hs3.
  fold V2 in Hc1.
  assert (Hg3 : getline (mkIstream C p2 false false) PZ "010"%char
                = (mkIstream C p3 false false, L3))
    by (apply (getline_at (mkIstream C p2 false false) PZ L3 R3
                 "010"%char); [reflexivity | exact Hn3 | exact Hd2]).
  destruct (comma_triple sx sy sz V3 Hsx Hsy Hsz)
    as (j1 & j2 & j3 & Hk1 & Hk2 & Hk3 & Ht1 & Ht2 & Ht3).
  cbv zeta in Hk1. fold SX SY SZ in Hk1, Hk2, Hk3, Ht1, Ht2, Ht3.
  fold V3 in Hk1.
  assert (Ha1 : after_colon L1 = TagT) by reflexivity.
  assert (Ha2 : after_colon L2 = V2) by reflexivity.
  assert (Ha3 : after_colon L3 = V3) by reflexivity.
  set (T1 := mkTransform (rotation Ta) (rotator Ta) (Vector3D.mk px py pz)
               (Vector3D.mk sx sy sz) TagT (mtx Ta) (notified Ta)).
  assert (Hfields : Deserialize_fields a (mkIstream C 0 false false) input W
                    = Some (set_transform a T1 W,
                            mkIstream C p3 false false, SZ)).
  { unfold Deserialize_fields. rewrite HTa. cbn [mbind option_bind].
    rewrite Hg1. cbv beta iota. rewrite Ha1, Hg2. cbv beta iota zeta.
    rewrite Ha2, Hc1. cbv beta iota. rewrite Hs1. cbn [mbind option_bind].
    rewrite Hc2. cbv beta iota. rewrite Hs2. cbn [mbind option_bind].
    rewrite Hc3. cbv beta iota. rewrite Hs3. cbn [mbind option_bind].
    rewrite Hg3. cbv beta iota zeta.
    rewrite Ha3, Hk1. cbv beta iota. rewrite Ht1. cbn [mbind option_bind].
    rewrite Hk2. cbv beta iota. rewrite Ht2. cbn [mbind option_bind].
    rewrite Hk3. cbv beta iota. rewrite Ht3. cbn [mbind option_bind].
    reflexivity. }
  (* the rotation line *)
  set (f3 := mkIstream C p3 false false) in *.
  assert (Hread : rotation_line f3 SZ = (mkIstream C p4 false false, L4)
                  /\ rotation_label f3 SZ = "ROTATION:"%string
                  /\ forall r0 : Rotator,
                       rotation_values f3 SZ r0
                       = (pitch rrT, yaw rrT, roll rrT)).
  { apply (rotation_line_at f3 SZ rest (pitch rrT) (yaw rrT) (roll rrT));
      [reflexivity | exact Hrp | exact Hry | exact Hrr | exact Hd3]. }
  destruct Hread as (Hline & Hlabel & Hvals).
  assert (HT1 : transforms (set_transform a T1 W) !! a = Some T1)
    by apply set_transform_lookup.
  assert (Hb1 : Transform_bound a T1) by exact Hbound.
  pose proof (Deserialize_rotation_present_state a f3 SZ T1 _ HT1 Hb1 Hlabel)
    as Hrot.
  cbv zeta in Hrot. rewrite (Hvals (rotator T1)), Hline in Hrot.
  cbn [fst snd] in Hrot. rewrite set_transform_twice in Hrot.
  eexists body, _, _, _.
  split.
  { unfold Serialize. cbv zeta. simpl. f_equal.
    fold PX PY PZ SX SY SZ RP RY RR.
    unfold body, L1, L2, L3, L4, V2, V3, newline.
    repeat first [rewrite append_assoc | rewrite append_cons
                 | rewrite append_nil_l].
    reflexivity. }
  split.
  { unfold Deserialize. fold C. rewrite Hfields. cbn [mbind option_bind].
    exact Hrot. }
  split; [reflexivity|]. split.
  { cbn [pos]. unfold p4, p3, p2, p1, body. rewrite !length_append.
    change (String.length newline) with 1%nat. lia. }
  split; [reflexivity|]. split; [reflexivity|]. split; [reflexivity|].
  split; [reflexivity|].
  destruct Hbound as [Hbq Hbr].
  split; [split; reflexivity|]. split; [exact Hbq | exact Hbr].
Qed.

End RoundTrip.

(** ** Transform.cpp: copies and assignment *)

Section TransformCopies.

Context {M44 : Matrix4x4}.

(** The copy constructor of [Transform] binds the two members of the copy
    to the copy, takes the quaternion, the position and the scale of the
    source, computes the rotator from the quaternion (the rotator of the
    source is not read), leaves the tag empty, composes the matrix and
    notifies once; the source is not touched. *)
Theorem Transform_copy_construct_spec (a b : addr) (rhs : Transform)
  (W : World) :
  a <> b ->
  transforms W !! b = Some rhs ->
  exists T' : Transform,
    Transform_copy_construct a b W = Some (set_transform a T' W)
    /\ Transform_bound a T'
    /\ Quat_scalars (rotation T') = Quat_scalars (rotation rhs)
    /\ synced_from_quat T'
    /\ position T' = position rhs /\ scale T' = scale rhs
    /\ Tag T' = EmptyString
    /\ notified T' = 1%nat
    /\ transforms (set_transform a T' W) !! b = Some rhs.
Proof.
  intros Hab Hb. unfold Transform_copy_construct. rewrite Hb.
  cbn [mbind option_bind]. cbv zeta.
  unfold UpdateMtx. rewrite set_transform_lookup. cbn [mbind option_bind].
  rewrite set_transform_twice.
  eexists. split; [reflexivity|].
  split; [split; reflexivity|]. split; [reflexivity|].
  split; [split; reflexivity|].
  repeat (split; [reflexivity|]).
  rewrite set_transform_lookup_ne by exact Hab. exact Hb.
Qed.

Lemma Transform_SetPosition_result (a : addr) (pos : Vec3) (T : Transform)
  (W : World) :
  transforms W !! a = Some T ->
  Transform_SetPosition a pos W
  = Some (set_transform a
            (UpdateMtx_fields
               (mkTransform (rotation T) (rotator T) pos (scale T) (Tag T)
                            (mtx T) (notified T))) W).
Proof.
  intros H. unfold Transform_SetPosition. rewrite H.
  cbn [mbind option_bind]. unfold UpdateMtx.
  rewrite set_transform_lookup. cbn [mbind option_bind].
  rewrite set_transform_twice. reflexivity.
Qed.

Lemma Transform_SetScale_result (a : addr) (s : Vec3) (T : Transform)
  (W : World) :
  transforms W !! a = Some T ->
  Transform_SetScale a s W
  = Some (set_transform a
            (UpdateMtx_fields
               (mkTransform (rotation T) (rotator T) (position T) s (Tag T)
                            (mtx T) (notified T))) W).
Proof.
  intros H. unfold Transform_SetScale. rewrite H.
  cbn [mbind option_bind]. unfold UpdateMtx.
  rewrite set_transform_lookup. cbn [mbind option_bind].
  rewrite set_transform_twice. reflexivity.
Qed.

(** [Transform::operator=]: the assigned object takes the position, the
    scale and the rotator of the source; its quaternion is computed from
    that rotator (the quaternion of the source is overwritten again by the
    second member assignment); its tag stays; it remains bound to itself;
    and the observers are notified five times. *)
Theorem Transform_assign_spec (a b : addr) (Ta Tb : Transform) (W : World) :
  a <> b ->
  transforms W !! a = Some Ta ->
  transforms W !! b = Some Tb ->
  Transform_bound a Ta ->
  exists T' : Transform,
    Transform_assign a b W = Some (set_transform a T' W)
    /\ position T' = position Tb /\ scale T' = scale Tb
    /\ Rotator_scalars (rotator T') = Rotator_scalars (rotator Tb)
    /\ synced_from_rotator T'
    /\ Transform_bound a T'
    /\ Tag T' = Tag Ta
    /\ notified T' = (notified Ta + 5)%nat
    /\ transforms (set_transform a T' W) !! b = Some Tb.
Proof.
  intros Hab Ha Hb [Hbq Hbr]. unfold Transform_assign.
  rewrite Hb. cbn [mbind option_bind].
  rewrite (Transform_SetPosition_result a _ Ta W Ha).
  cbn [mbind option_bind].
  rewrite set_transform_lookup_ne, Hb by exact Hab.
  cbn [mbind option_bind].
  set (T1 := UpdateMtx_fields
               (mkTransform (rotation Ta) (rotator Ta) (position Tb)
                  (scale Ta) (Tag Ta) (mtx Ta) (notified Ta))).
  rewrite (Transform_SetScale_result a _ T1) by apply set_transform_lookup.
  cbn [mbind option_bind]. rewrite set_transform_twice.
  rewrite set_transform_lookup_ne, Hb by exact Hab.
  cbn [mbind option_bind].
  set (T2 := UpdateMtx_fields
               (mkTransform (rotation T1) (rotator T1) (position T1)
                  (scale Tb) (Tag T1) (mtx T1) (notified T1))).
  unfold Quat_assign.
  rewrite (read_rotation a T2) by apply set_transform_lookup.
  cbn [mbind option_bind].
  rewrite (write_then_Quat_update a T2)
    by (try apply set_transform_lookup; exact Hbq).
  cbn [mbind option_bind]. rewrite set_transform_twice.
  rewrite set_transform_lookup_ne, Hb by exact Hab.
  cbn [mbind option_bind].
  set (T3 := after_Quat_update
               (with_rotation T2
                  (Quat.assign_fields (rotation T2) (rotation Tb)))).
  unfold Rotator_assign.
  rewrite (read_rotator_member a T3) by apply set_transform_lookup.
  cbn [mbind option_bind].
  rewrite (write_then_Rotator_update a T3)
    by (try apply set_transform_lookup; exact Hbr).
  cbn [mbind option_bind]. rewrite set_transform_twice.
  set (T4 := after_Rotator_update
               (with_rotator T3
                  (Rotator.assign_fields (rotator T3) (rotator Tb)))).
  unfold Transform_bind. rewrite set_transform_lookup.
  cbn [mbind option_bind]. rewrite set_transform_twice.
  unfold UpdateMtx. rewrite set_transform_lookup.
  cbn [mbind option_bind]. rewrite set_transform_twice.
  eexists. split; [reflexivity|].
  split; [reflexivity|]. split; [reflexivity|]. split; [reflexivity|].
  split; [split; reflexivity|]. split; [split; reflexivity|].
  split; [reflexivity|].
  split; [simpl; lia|].
  rewrite set_transform_lookup_ne by exact Hab. exact Hb.
Qed.

(** [Rotator::Normalize] and [Rotator::Clamp] on the [rotator] of a
    [Transform] write the reduced angles and call no update: the quaternion,
    the matrix and the notification count stay.  The owner is consistent all
    the same: its matrix is the one composed from the new angles, and its
    quaternion is the one of the new angles or the opposite one. *)
Theorem Rotator_Normalize_stays_consistent (a : addr) (T : Transform)
  (W : World) :
  transforms W !! a = Some T ->
  synced_from_rotator T ->
  exists Tn Tc : Transform,
    Rotator_Normalize (RotatorOf a) W = Some (set_transform a Tn W)
    /\ Rotator_Clamp (RotatorOf a) W = Some (set_transform a Tc W)
    /\ rotator Tn = Rotator.Normalize_fields (rotator T)
    /\ rotator Tc = Rotator.Clamp_fields (rotator T)
    /\ forall T' : Transform, T' = Tn \/ T' = Tc ->
         rotation T' = rotation T
         /\ mtx T' = mtx T
         /\ notified T' = notified T
         /\ mtx T' = ComposedMtx T'
         /\ (Quat_scalars (rotation T')
             = Quat_scalars (Rotator.Quaternion (rotator T'))
             \/ Quat_scalars (Rotator.Quaternion (rotator T'))
                = Quat_scalars (Quat.neg (rotation T'))).
Proof.
  intros HT [Hq Hm].
  destruct (Rotator_Normalize_no_update a T W HT) as [Hn Hc].
  eexists _, _. split; [exact Hn|]. split; [exact Hc|].
  split; [reflexivity|]. split; [reflexivity|].
  assert (Hall : forall r' : Rotator,
             r' = Rotator.Normalize_fields (rotator T)
             \/ r' = Rotator.Clamp_fields (rotator T) ->
             mtx T = ComposedMtx (with_rotator T r')
             /\ (Quat_scalars (rotation T)
                 = Quat_scalars (Rotator.Quaternion r')
                 \/ Quat_scalars (Rotator.Quaternion r')
                    = Quat_scalars (Quat.neg (rotation T)))).
  { intros r' Hr'.
    destruct (reduced_same_rotation (rotator T) r' Hr') as (HM & _ & HQ).
    split.
    - rewrite Hm. unfold ComposedMtx. cbv zeta. simpl. rewrite HM.
      reflexivity.
    - unfold Quat_scalars, Quat.neg in *. simpl in *.
      injection Hq as Hw Hx Hy Hz. rewrite Hw, Hx, Hy, Hz.
      destruct HQ as [HQ | HQ]; [left | right]; rewrite HQ; reflexivity. }
  intros T' [-> | ->];
    (split; [reflexivity|]); (split; [reflexivity|]);
    (split; [reflexivity|]); apply Hall; auto.
Qed.

End TransformCopies.

(** ** The properties on concrete values *)

Lemma sqrt_4 : sqrt 4 = 2.
Proof. replace 4 with (2 * 2) by ring. apply sqrt_square. lra. Qed.

(** A quarter of a turn about the y axis, and the quaternion (0, 0, 1, 0). *)
Lemma AxisAngle_roundtrip_witness :
  Quat.GetAngle (Quat.FromAxisAngle (Vector3D.mk 0 1 0) (PI / 2)) = PI / 2
  /\ Quat.GetRotationAxis (Quat.FromAxisAngle (Vector3D.mk 0 1 0) (PI / 2))
     = Vector3D.mk 0 1 0
  /\ Quat_scalars
       (Quat.FromAxisAngle
          (fst (Quat.ToAxisAndAngle (Quat.make 0 0 1 0)))
          (snd (Quat.ToAxisAndAngle (Quat.make 0 0 1 0))))
     = Quat_scalars (Quat.make 0 0 1 0).
Proof.
  destruct (AxisAngle_roundtrip (Vector3D.mk 0 1 0) (PI / 2)
              (Quat.make 0 0 1 0)) as [H1 H2].
  pose proof PI_RGT_0 as Hpi.
  destruct H1 as (Ha & Hb & _); [lra|].
  split; [exact Ha|]. split.
  - apply Hb.
    assert (Hs : 0 < sin (PI / 2 / 2)) by (apply sin_gt_0; lra).
    assert (Hc : sin (PI / 2 / 2) = cos (PI / 2 / 2)).
    { replace (PI / 2 / 2) with (PI / 4) by field.
      rewrite sin_PI4, cos_PI4. reflexivity. }
    pose proof (sin2_cos2 (PI / 2 / 2)) as H. unfold Rsqr in H.
    rewrite <- Hc in H. unfold KINDA_SMALL_NUMBER. nra.
  - apply H2; simpl; [lra|].
    replace (1 - 0 * 0) with 1 by ring. rewrite sqrt_1.
    unfold KINDA_SMALL_NUMBER. lra.
Defined.

(** From (1, 0, 0) to (0, 2, 0). *)
Lemma FindBetweenVectors_rotates_witness :
  996498 / 1000000
  <= Quat.SizeSquared
       (Quat.FindBetweenVectors Math.InvSqrt (Vector3D.mk 1 0 0)
                                (Vector3D.mk 0 2 0))
  <= 1
  /\ Vector3D.scale (Vector3D.Magnitude (Vector3D.mk 0 2 0))
       (Quat.RotateVector
          (Quat.FindBetweenVectors Math.InvSqrt (Vector3D.mk 1 0 0)
                                   (Vector3D.mk 0 2 0))
          (Vector3D.mk 1 0 0))
     = Vector3D.add
         (Vector3D.scale
            ((1 - Quat.SizeSquared
                    (Quat.FindBetweenVectors Math.InvSqrt
                       (Vector3D.mk 1 0 0) (Vector3D.mk 0 2 0)))
             * Vector3D.Magnitude (Vector3D.mk 0 2 0))
            (Vector3D.mk 1 0 0))
         (Vector3D.scale
            (Quat.SizeSquared
               (Quat.FindBetweenVectors Math.InvSqrt (Vector3D.mk 1 0 0)
                                        (Vector3D.mk 0 2 0))
             * Vector3D.Magnitude (Vector3D.mk 1 0 0))
            (Vector3D.mk 0 2 0)).
Proof.
  assert (Hn : sqrt (Vector3D.MagnitudeSq (Vector3D.mk 1 0 0)
                     * Vector3D.MagnitudeSq (Vector3D.mk 0 2 0)) = 2).
  { unfold Vector3D.MagnitudeSq, Vector3D.Vector3DLengthSquared. simpl.
    replace ((1 * 1 + 0 * 0 + 0 * 0) * (0 * 0 + 2 * 2 + 0 * 0)) with 4
      by ring.
    apply sqrt_4. }
  pose proof (FindBetweenVectors_rotates (Vector3D.mk 1 0 0)
                (Vector3D.mk 0 2 0)) as H.
  cbv zeta in H. rewrite Hn in H.
  destruct H as [H _].
  - unfold Vector3D.dot, KINDA_SMALL_NUMBER. simpl. lra.
  - apply H. unfold Vector3D.dot, SMALL_NUMBER. simpl. lra.
Defined.

(** From the x axis to the y axis. *)
Lemma FindBetweenNormals_rotates_witness :
  996498 / 1000000
  <= Quat.SizeSquared
       (Quat.FindBetweenNormals Math.InvSqrt (Vector3D.mk 1 0 0)
                                (Vector3D.mk 0 1 0))
  <= 1
  /\ Quat.RotateVector
       (Quat.FindBetweenNormals Math.InvSqrt (Vector3D.mk 1 0 0)
                                (Vector3D.mk 0 1 0))
       (Vector3D.mk 1 0 0)
     = Vector3D.add
         (Vector3D.scale
            (1 - Quat.SizeSquared
                   (Quat.FindBetweenNormals Math.InvSqrt
                      (Vector3D.mk 1 0 0) (Vector3D.mk 0 1 0)))
            (Vector3D.mk 1 0 0))
         (Vector3D.scale
            (Quat.SizeSquared
               (Quat.FindBetweenNormals Math.InvSqrt (Vector3D.mk 1 0 0)
                                        (Vector3D.mk 0 1 0)))
            (Vector3D.mk 0 1 0)).
Proof.
  apply (FindBetweenNormals_rotates (Vector3D.mk 1 0 0) (Vector3D.mk 0 1 0)).
  - unfold Vector3D.MagnitudeSq, Vector3D.Vector3DLengthSquared. simpl. ring.
  - unfold Vector3D.MagnitudeSq, Vector3D.Vector3DLengthSquared. simpl. ring.
  - unfold Vector3D.dot, KINDA_SMALL_NUMBER. simpl. lra.
Defined.

(** Opposite vectors along the y axis are turned about the z axis; opposite
    vectors along the x axis get the identity: there the second alternative
    is taken, with an axis of length 0. *)
Lemma FindBetween_Helper_opposite_witness :
  Quat.RotateVector
    (Quat.FindBetween_Helper Math.InvSqrt (Vector3D.mk 0 1 0)
                             (Vector3D.mk 0 (-1) 0) 1)
    (Vector3D.mk 0 1 0)
  = Vector3D.scale
      (1 - 2 * Quat.SizeSquared
                 (Quat.FindBetween_Helper Math.InvSqrt (Vector3D.mk 0 1 0)
                                          (Vector3D.mk 0 (-1) 0) 1))
      (Vector3D.mk 0 1 0)
  /\ Quat_scalars
       (Quat.FindBetween_Helper Math.InvSqrt (Vector3D.mk 1 0 0)
                                (Vector3D.mk (-1) 0 0) 1)
     = Quat_scalars Quat.Identity.
Proof.
  split.
  - pose proof (FindBetween_Helper_opposite (Vector3D.mk 0 1 0)
                  (Vector3D.mk 0 (-1) 0) 1) as H.
    cbv zeta in H. simpl in H.
    rewrite decide_False in H by (rewrite Rabs_R0; lra).
    destruct H as [H _].
    + unfold Vector3D.dot, KINDA_SMALL_NUMBER. simpl. lra.
    + apply H. unfold SMALL_NUMBER. lra.
  - pose proof (FindBetween_Helper_opposite (Vector3D.mk 1 0 0)
                  (Vector3D.mk (-1) 0 0) 1) as H.
    cbv zeta in H. simpl in H.
    rewrite decide_False in H
      by (replace (-1) with (- (1)) by lra; rewrite Rabs_Ropp; lra).
    destruct H as [_ H].
    + unfold Vector3D.dot, KINDA_SMALL_NUMBER. simpl. lra.
    + apply H. unfold SMALL_NUMBER. lra.
Defined.

(** The matrix that doubles the first coordinate, and the matrix of zeros. *)
Lemma Mtx33Inverse_spec_witness :
  Matrix3x3.mul (Matrix3x3.mk 2 0 0 0 1 0 0 0 1)
    (Matrix3x3.Mtx33Inverse (Matrix3x3.mk 2 0 0 0 1 0 0 0 1))
  = Matrix3x3.Identity
  /\ Matrix3x3.Mtx33Inverse (Matrix3x3.mk 0 0 0 0 0 0 0 0 0)
     = Matrix3x3.mk 0 0 0 0 0 0 0 0 0.
Proof.
  split.
  - destruct (Mtx33Inverse_spec (Matrix3x3.mk 2 0 0 0 1 0 0 0 1))
      as [H _].
    apply H. unfold Matrix3x3.Determinant. simpl. lra.
  - destruct (Mtx33Inverse_spec (Matrix3x3.mk 0 0 0 0 0 0 0 0 0))
      as [_ H].
    apply H. unfold Matrix3x3.Determinant. simpl. lra.
Defined.

(** (0, 2, 0) is scaled to length 1; (0, 1/100, 0), whose squared length
    is [EPSILON], is returned as it is. *)
Lemma Normalized_spec_witness :
  Vector3D.MagnitudeSq (Vector3D.Normalized (Vector3D.mk 0 2 0)) = 1
  /\ Vector3D.Normalized (Vector3D.mk 0 (1 / 100) 0)
     = Vector3D.mk 0 (1 / 100) 0.
Proof.
  split.
  - destruct (Normalized_spec (Vector3D.mk 0 2 0)) as [H _].
    apply H.
    unfold Vector3D.MagnitudeSq, Vector3D.Vector3DLengthSquared, EPSILON,
      KINDA_SMALL_NUMBER. simpl. lra.
  - destruct (Normalized_spec (Vector3D.mk 0 (1 / 100) 0)) as (_ & H & _).
    apply H.
    unfold Vector3D.MagnitudeSq, Vector3D.Vector3DLengthSquared, EPSILON,
      KINDA_SMALL_NUMBER. simpl. lra.
Defined.

(** The half turn about the x axis. *)
Lemma Quat_RotateVector_isometry_witness :
  Quat.UnrotateVector (Quat.make 0 1 0 0)
    (Quat.RotateVector (Quat.make 0 1 0 0) (Vector3D.mk 1 2 3))
  = Vector3D.mk 1 2 3.
Proof.
  destruct (Quat_RotateVector_isometry (Quat.make 0 1 0 0)
              (Vector3D.mk 1 2 3) (Vector3D.mk 1 2 3)) as (_ & H & _).
  - unfold Quat.SizeSquared. simpl. ring.
  - exact H.
Defined.

(** The half turns about the x axis and about the y axis. *)
Lemma RotateVector_mul_witness :
  Quat.RotateVector (Quat.mul (Quat.make 0 1 0 0) (Quat.make 0 0 1 0))
                    (Vector3D.mk 1 2 3)
  = Quat.RotateVector (Quat.make 0 1 0 0)
      (Quat.RotateVector (Quat.make 0 0 1 0) (Vector3D.mk 1 2 3)).
Proof.
  destruct (RotateVector_mul (Quat.make 0 1 0 0) (Quat.make 0 0 1 0)
              (Vector3D.mk 1 2 3)) as [H _].
  - unfold Quat.SizeSquared. simpl. ring.
  - unfold Quat.SizeSquared. simpl. ring.
  - exact H.
Defined.

(** The half turn (0, 1, 0, 0) and the third of a turn
    (1/2, 1/2, 1/2, 1/2): their inner product is 1/2 and their distance a
    third of a turn. *)
Lemma AngularDistance_spec_witness :
  Quat.AngularDistance (Quat.make 0 1 0 0)
                       (Quat.make (1 / 2) (1 / 2) (1 / 2) (1 / 2))
  = Quat.GetAngle
      (Quat.mul (Quat.Inverse (Quat.make 0 1 0 0))
                (Quat.make (1 / 2) (1 / 2) (1 / 2) (1 / 2)))
  /\ Quat.GetAngle
       (Quat.mul (Quat.Inverse (Quat.make 0 1 0 0))
                 (Quat.make (1 / 2) (1 / 2) (1 / 2) (1 / 2)))
     = 2 * (PI / 3).
Proof.
  assert (Hn : Quat.IsNormalized (Quat.make 0 1 0 0) = true).
  { apply IsNormalized_true. unfold Quat.SizeSquared. simpl.
    match goal with |- Rabs ?e < _ => replace e with 0 by ring end.
    rewrite Rabs_R0. lra. }
  split.
  - destruct (AngularDistance_spec (Quat.make 0 1 0 0)
                (Quat.make (1 / 2) (1 / 2) (1 / 2) (1 / 2)))
      as (_ & _ & _ & H).
    apply H; [exact Hn|]. unfold Quat.dot. simpl. lra.
  - unfold Quat.Inverse. rewrite Hn. unfold Quat.GetAngle. simpl.
    match goal with
    | |- 2 * acos ?e = _ => replace e with (cos (PI / 3))
                               by (rewrite cos_PI3; ring)
    end.
    rewrite acos_cos; [reflexivity|].
    pose proof PI_RGT_0. lra.
Defined.

(** The tag "ab" in "cab", and appended to "player". *)
Lemma Tag_add_remove_witness :
  AddTag "cab" "ab" = "cab"%string
  /\ RemoveTag "player" "ab" = "player"%string
  /\ RemoveTag (AddTag "player" "ab") "ab" = "player"%string.
Proof.
  destruct (Tag_add_remove "player" "ab" "" "") as (_ & _ & _ & _ & H5 & H6).
  destruct (Tag_add_remove "cab" "ab" "" "") as (_ & _ & _ & H4 & _).
  split; [apply H4; [reflexivity | discriminate]|].
  split; [apply H5; reflexivity|].
  apply H6; [discriminate | reflexivity | reflexivity].
Defined.

(** The quaternions of the rotators (0, 180, 0) and (0, 0, 180). *)
Lemma Quaternion_yaw_180 :
  Quat_scalars (Rotator.Quaternion (Rotator.make 0 180 0)) = (0, 0, 0, 1).
Proof.
  unfold Quat_scalars, Rotator.Quaternion, Math.SinCos. cbv zeta. simpl.
  replace (0 * (PI / 180 / 2)) with 0 by ring.
  replace (180 * (PI / 180 / 2)) with (PI / 2) by field.
  rewrite sin_0, cos_0, sin_PI2, cos_PI2.
  f_equal; [f_equal; [f_equal|]|]; ring.
Qed.

Lemma Quaternion_roll_180 :
  Quat_scalars (Rotator.Quaternion (Rotator.make 0 0 180)) = (0, -1, 0, 0).
Proof.
  unfold Quat_scalars, Rotator.Quaternion, Math.SinCos. cbv zeta. simpl.
  replace (0 * (PI / 180 / 2)) with 0 by ring.
  replace (180 * (PI / 180 / 2)) with (PI / 2) by field.
  rewrite sin_0, cos_0, sin_PI2, cos_PI2.
  f_equal; [f_equal; [f_equal|]|]; ring.
Qed.

(** Half a turn of yaw combined with half a turn of roll. *)
Lemma Combine_composes_witness :
  Quat.RotateVector
    (Rotator.Quaternion
       (Rotator_Combine (Rotator.make 0 180 0) (Rotator.make 0 0 180)))
    (Vector3D.mk 1 2 3)
  = Quat.RotateVector (Rotator.Quaternion (Rotator.make 0 180 0))
      (Quat.RotateVector (Rotator.Quaternion (Rotator.make 0 0 180))
                         (Vector3D.mk 1 2 3)).
Proof.
  apply (Combine_composes (Rotator.make 0 180 0) (Rotator.make 0 0 180)
           (Vector3D.mk 1 2 3)).
  pose proof Quaternion_yaw_180 as Hy. pose proof Quaternion_roll_180 as Hr.
  unfold Quat_scalars in Hy, Hr.
  injection Hy as Hy1 Hy2 Hy3 Hy4. injection Hr as Hr1 Hr2 Hr3 Hr4.
  unfold Quat.mul. simpl. rewrite Hy1, Hy2, Hy3, Hy4, Hr1, Hr2, Hr3, Hr4.
  match goal with |- Rabs ?e <= _ => replace e with 0 by ring end.
  rewrite Rabs_R0. unfold Quat.SINGULARITY_THRESHOLD. lra.
Defined.

(** Half a turn of yaw. *)
Lemma GetInverse_undoes_witness :
  Quat.RotateVector
    (Rotator.Quaternion (Rotator_GetInverse (Rotator.make 0 180 0)))
    (Quat.RotateVector (Rotator.Quaternion (Rotator.make 0 180 0))
                       (Vector3D.mk 1 2 3))
  = Vector3D.mk 1 2 3
  /\ Rotator_scalars
       (Rotator_Combine (Rotator.make 0 180 0)
                        (Rotator_GetInverse (Rotator.make 0 180 0)))
     = (0, 0, 0).
Proof.
  apply (GetInverse_undoes (Rotator.make 0 180 0) (Vector3D.mk 1 2 3)).
  pose proof Quaternion_yaw_180 as Hy. unfold Quat_scalars in Hy.
  injection Hy as Hy1 Hy2 Hy3 Hy4.
  cbv zeta. simpl. rewrite Hy1, Hy2, Hy3, Hy4.
  match goal with |- Rabs ?e <= _ => replace e with 0 by ring end.
  rewrite Rabs_R0. unfold Quat.SINGULARITY_THRESHOLD. lra.
Defined.

(** ** The model on concrete states *)

#[local] Existing Instance Matrix4x4_fun.
#[local] Existing Instance FloatText_digits.
#[local] Existing Instance ComponentBase_empty.

(** The failing input of [Normalize] with [Math::InvSqrt], whose value at
    0.5 has a square between 1.99 and 2. *)
Lemma Normalize_leaves_rotator_stale_witness :
  exists (W2 W3 : World) (T2 T3 : Transform),
    (W1 ← Transform_construct 0%nat World_empty;
     Quat_assign (RotationOf 0%nat) (Quat.make (1 / 2) 0 (- (1 / 2)) 0) W1)
    = Some W2
    /\ transforms W2 !! 0%nat = Some T2
    /\ Quat_Normalize Math.InvSqrt (RotationOf 0%nat) SMALL_NUMBER W2
       = Some W3
    /\ transforms W3 !! 0%nat = Some T3
    /\ ~ synced_from_quat T3.
Proof.
  assert (Hk : Math.InvSqrt (1 / 2) * Math.InvSqrt (1 / 2) <> 1).
  { destruct (InvSqrt_square_bounds (1 / 2)) as [_ Hb]; lra. }
  destruct (Normalize_leaves_rotator_stale Math.InvSqrt Hk)
    as (W2 & W3 & T2 & T3 & H1 & H2 & _ & H4 & H5 & _ & _ & _ & H9 & _).
  exists W2, W3, T2, T3. auto.
Defined.

(** [t.rotation *= 2] on a freshly constructed [Transform]. *)
Lemma QuatMutation_synchronizes_witness :
  exists T' : Transform,
    run_QuatMutation (QScaleAssign 2) (RotationOf 0%nat)
      (set_transform 0%nat (Transform_fresh 0%nat) World_empty)
    = Some (set_transform 0%nat T'
              (set_transform 0%nat (Transform_fresh 0%nat) World_empty))
    /\ synced_from_quat T'.
Proof.
  destruct (QuatMutation_synchronizes (QScaleAssign 2) 0%nat
              (Transform_fresh 0%nat)
              (set_transform 0%nat (Transform_fresh 0%nat) World_empty)
              (set_transform_lookup _ _ _) (Transform_fresh_bound 0%nat))
    as (T' & Hrun & _ & Hs & _).
  exists T'. split; assumption.
Defined.

(** [t.rotator.Add(10, 20, 30)] on a freshly constructed [Transform]. *)
Lemma RotatorMutation_synchronizes_witness :
  exists T' : Transform,
    run_RotatorMutation (RAdd 10 20 30) (RotatorOf 0%nat)
      (set_transform 0%nat (Transform_fresh 0%nat) World_empty)
    = Some (set_transform 0%nat T'
              (set_transform 0%nat (Transform_fresh 0%nat) World_empty))
    /\ synced_from_rotator T'.
Proof.
  destruct (RotatorMutation_synchronizes (RAdd 10 20 30) 0%nat
              (Transform_fresh 0%nat)
              (set_transform 0%nat (Transform_fresh 0%nat) World_empty)
              (set_transform_lookup _ _ _) (Transform_fresh_bound 0%nat))
    as (T' & Hrun & _ & Hs & _).
  exists T'. split; assumption.
Defined.

Lemma Transform_fresh_synced (a : addr) :
  synced_from_rotator (Transform_fresh a).
Proof.
  split; [|reflexivity].
  unfold Quat_scalars, Rotator.Quaternion, Math.SinCos. cbv zeta. simpl.
  replace (0 * (PI / 180 / 2)) with 0 by ring.
  rewrite sin_0, cos_0. f_equal; [f_equal; [f_equal|]|]; ring.
Qed.

Lemma FloatText_small_exact (n : nat) :
  (n <= 9)%nat -> FloatText_exact (FT := FloatText_small) (INR n).
Proof.
  intros Hn.
  do 10 (destruct n as [|n]; [
    unfold FloatText_exact; cbv zeta;
    change (@show_float FloatText_small) with show_small;
    unfold show_small; simpl INR;
    repeat (case_decide; [try lra|]); try lra;
    repeat split; try discriminate; reflexivity |]).
  lia.
Qed.

Lemma show_small_789 :
  show_small 7 = "7"%string /\ show_small 8 = "8"%string
  /\ show_small 9 = "9"%string.
Proof.
  unfold show_small.
  repeat split; repeat (case_decide; [try lra|]); try lra; reflexivity.
Qed.

(** The theorem on [legacy_file] and on [rotation_file], each read into a
    freshly constructed [Transform].  The first three lines take 38
    characters.  In the first file the fourth line is not a rotation line:
    the stream is back at 38 and the rotation is the default one.  In the
    second the fourth line is [ROTATION: 7 8 9]: the rotator is (7, 8, 9),
    quaternion and matrix follow it, and the stream stands at 54, behind
    the line. *)
Lemma Deserialize_rotation_or_rewind_witness :
  (exists (W1 : World) (file' : istream) (T1 : Transform),
      Deserialize 0%nat (mkIstream legacy_file 0 false false) EmptyString
        (set_transform 0%nat (Transform_fresh 0%nat) World_empty)
      = Some (W1, file')
      /\ pos file' = 38%nat
      /\ transforms W1 !! 0%nat = Some T1
      /\ rotation T1 = mkQuat 1 0 0 0 (Some 0%nat)
      /\ rotator T1 = mkRotator 0 0 0 (Some 0%nat))
  /\ (exists (W1 : World) (T' : Transform),
        Deserialize (FT := FloatText_small) 0%nat
          (mkIstream rotation_file 0 false false) EmptyString
          (set_transform 0%nat (Transform_fresh 0%nat) World_empty)
        = Some (set_transform 0%nat T' W1,
                mkIstream rotation_file 54 false false)
        /\ Rotator_scalars (rotator T') = (7, 8, 9)
        /\ synced_from_rotator T'
        /\ Transform_bound 0%nat T').
Proof.
  split.
  - assert (Hf : exists (W1 : World) (file1 : istream) (input1 : string),
               Deserialize_fields 0%nat
                 (mkIstream legacy_file 0 false false) EmptyString
                 (set_transform 0%nat (Transform_fresh 0%nat) World_empty)
               = Some (W1, file1, input1)
               /\ pos file1 = 38%nat
               /\ rotation_label file1 input1 = "[SPRITE]"%string).
    { eexists _, _, _. split; [reflexivity|].
      split; vm_compute; reflexivity. }
    destruct Hf as (W1 & file1 & input1 & Hf & Hpos & Hlab).
    destruct (Deserialize_rotation_or_rewind 0%nat _ file1 _ input1 _ W1 Hf)
      as (T & T1 & HT & HT1 & Hq & Hr & _ & _ & Hlegacy).
    destruct Hlegacy as (file' & Hrun & Hp & _).
    { rewrite Hlab. discriminate. }
    exists W1, file', T1. rewrite set_transform_lookup in HT.
    injection HT as <-. rewrite Hp, Hq, Hr. auto.
  - assert (Hf : exists (W1 : World) (input1 : string),
               Deserialize_fields (FT := FloatText_small) 0%nat
                 (mkIstream rotation_file 0 false false) EmptyString
                 (set_transform 0%nat (Transform_fresh 0%nat) World_empty)
               = Some (W1, mkIstream rotation_file 38 false false, input1)).
    { eexists _, _. reflexivity. }
    destruct Hf as (W1 & input1 & Hf).
    destruct (Deserialize_rotation_or_rewind (FT := FloatText_small)
                0%nat _ _ _ input1 _ W1 Hf)
      as (T & T1 & HT & _ & _ & _ & _ & Hline & _).
    rewrite set_transform_lookup in HT. injection HT as <-.
    destruct (Hline 7 8 9 ("[SPRITE]" +:+ newline)
                (Transform_fresh_bound 0%nat) eq_refl)
      as (T' & Hrun & Hv & Hs & Hb).
    + replace 7 with (INR 7) by (simpl; lra).
      apply FloatText_small_exact. lia.
    + replace 8 with (INR 8) by (simpl; lra).
      apply FloatText_small_exact. lia.
    + replace 9 with (INR 9) by (simpl; lra).
      apply FloatText_small_exact. lia.
    + change (@show_float FloatText_small) with show_small.
      destruct show_small_789 as (-> & -> & ->). reflexivity.
    + exists W1, T'. split; [|auto].
      rewrite Hrun. cbv zeta.
      change (@show_float FloatText_small) with show_small.
      destruct show_small_789 as (-> & -> & ->). reflexivity.
Defined.

(** A [Transform] with the tag "player", the position (1, 2, 3), the scale
    (4, 5, 6) and the rotator (7, 8, 9), written and read back into a
    freshly constructed one. *)
Lemma Serialize_Deserialize_roundtrip_witness :
  exists (body : string) (T' : Transform) (file' : istream)
         (input' : string),
    Serialize (FT := FloatText_small) Transform_sample EmptyString
    = ("[TRANSFORM]" +:+ newline) +:+ body
    /\ Deserialize (FT := FloatText_small) 0%nat
         (mkIstream body 0 false false) EmptyString
         (set_transform 0%nat (Transform_fresh 0%nat) World_empty)
       = Some (set_transform 0%nat T'
                 (set_transform 0%nat (Transform_fresh 0%nat) World_empty),
               file')
    /\ Tag T' = "player"%string
    /\ position T' = Vector3D.mk 1 2 3
    /\ scale T' = Vector3D.mk 4 5 6
    /\ Rotator_scalars (rotator T') = (7, 8, 9)
    /\ synced_from_rotator T'.
Proof.
  destruct (Serialize_Deserialize_roundtrip (FT := FloatText_small)
              0%nat Transform_sample
              (Transform_fresh 0%nat)
              (set_transform 0%nat (Transform_fresh 0%nat) World_empty)
              EmptyString EmptyString EmptyString
              (set_transform_lookup _ _ _) (Transform_fresh_bound 0%nat))
    as (body & T' & file' & input' & Hs & Hd & _ & _ & Ht & Hp & Hc & Hr
        & Hy & _).
  { reflexivity. }
  { intros v Hv. simpl in Hv.
    assert (Hk : exists n : nat, (n <= 9)%nat /\ v = INR n).
    { rewrite !elem_of_cons in Hv. rewrite elem_of_nil in Hv.
      destruct Hv as [->|[->|[->|[->|[->|[->|[->|[->|[->|[]]]]]]]]]];
        [exists 1%nat | exists 2%nat | exists 3%nat | exists 4%nat
         | exists 5%nat | exists 6%nat | exists 7%nat | exists 8%nat
         | exists 9%nat]; (split; [lia | simpl; lra]). }
    destruct Hk as (n & Hn & ->). apply FloatText_small_exact, Hn. }
  exists body, T', file', input'.
  rewrite append_nil_r in Hd. rewrite append_nil_l in Hs.
  split; [exact Hs|]. split; [exact Hd|].
  split; [exact Ht|]. split; [exact Hp|]. split; [exact Hc|].
  split; [exact Hr | exact Hy].
Defined.

(** A copy, at address 1, of [Transform_half_turn] at address 0: the
    quaternion, the position and the scale are those of the source, the
    rotator (0, 0, 180) is the one of the quaternion and not the (7, 8, 9)
    of the source, and the tag is empty. *)
Lemma Transform_copy_construct_spec_witness :
  exists T' : Transform,
    Transform_copy_construct 1%nat 0%nat
      (set_transform 0%nat Transform_half_turn World_empty)
    = Some (set_transform 1%nat T'
              (set_transform 0%nat Transform_half_turn World_empty))
    /\ Transform_bound 1%nat T'
    /\ Quat_scalars (rotation T') = (0, 1, 0, 0)
    /\ Rotator_scalars (rotator T') = (0, 0, 180)
    /\ mtx T' = ComposedMtx T'
    /\ position T' = Vector3D.mk 1 2 3
    /\ scale T' = Vector3D.mk 4 5 6
    /\ Tag T' = EmptyString
    /\ Rotator_scalars (rotator Transform_half_turn) = (7, 8, 9)
    /\ Tag Transform_half_turn = "player"%string.
Proof.
  destruct (Transform_copy_construct_spec 1%nat 0%nat Transform_half_turn
              (set_transform 0%nat Transform_half_turn World_empty))
    as (T' & Hrun & Hb & Hq & [Hr Hm] & Hp & Hc & Ht & _).
  - lia.
  - apply set_transform_lookup.
  - exists T'. split; [exact Hrun|]. split; [exact Hb|].
    split; [exact Hq|]. split.
    + rewrite Hr.
      rewrite (GetRotator_respects_scalars (rotation T')
                 (Quat.make 0 1 0 0) Hq).
      unfold Quat.GetRotator, Quat.SINGULARITY_THRESHOLD, Rotator_scalars.
      cbv zeta. simpl.
      repeat case_decide; try lra. simpl.
      replace (2 * (0 * 1 - 0 * 0)) with 0 by ring.
      replace (2 * (0 * 0 + 1 * 0)) with 0 by ring.
      replace (1 - 2 * (0 * 0 + 0 * 0)) with 1 by ring.
      replace (-2 * (0 * 1 + 0 * 0)) with 0 by ring.
      replace (1 - 2 * (1 * 1 + 0 * 0)) with (-1) by ring.
      rewrite asin_0, atan2f_0_neg1, atan2f_0_pos by lra.
      unfold RAD2DEG, OVERPI.
      replace (0 * (180 / PI)) with 0 by ring.
      replace (PI * (180 / PI)) with 180 by (field; apply PI_neq0).
      reflexivity.
    + split; [exact Hm|]. split; [exact Hp|]. split; [exact Hc|].
      split; [exact Ht|]. split; reflexivity.
Defined.

(** [t1 = t0] for the sample [Transform] at address 0 and a freshly
    constructed one at address 1. *)
Lemma Transform_assign_spec_witness :
  exists T' : Transform,
    Transform_assign 1%nat 0%nat
      (set_transform 1%nat (Transform_fresh 1%nat)
         (set_transform 0%nat Transform_sample World_empty))
    = Some (set_transform 1%nat T'
              (set_transform 1%nat (Transform_fresh 1%nat)
                 (set_transform 0%nat Transform_sample World_empty)))
    /\ position T' = Vector3D.mk 1 2 3
    /\ scale T' = Vector3D.mk 4 5 6
    /\ Rotator_scalars (rotator T') = (7, 8, 9)
    /\ synced_from_rotator T'
    /\ Transform_bound 1%nat T'.
Proof.
  destruct (Transform_assign_spec 1%nat 0%nat (Transform_fresh 1%nat)
              Transform_sample
              (set_transform 1%nat (Transform_fresh 1%nat)
                 (set_transform 0%nat Transform_sample World_empty)))
    as (T' & Hrun & Hp & Hc & Hr & Hs & Hb & _).
  - lia.
  - apply set_transform_lookup.
  - rewrite set_transform_lookup_ne by lia. apply set_transform_lookup.
  - apply Transform_fresh_bound.
  - exists T'. auto 10.
Defined.

(** [t.rotator.Normalize()] and [t.rotator.Clamp()] on
    [Transform_turned], whose rotator is (540, -190, 720): both leave the
    rotator (180, 170, 0), the quaternion as it was, and the matrix the
    one composed from the new rotator. *)
Lemma Rotator_Normalize_stays_consistent_witness :
  let W := set_transform 0%nat (Transform_turned 0%nat) World_empty in
  exists Tn Tc : Transform,
    Rotator_scalars (rotator (Transform_turned 0%nat)) = (540, -190, 720)
    /\ Rotator_Normalize (RotatorOf 0%nat) W = Some (set_transform 0%nat Tn W)
    /\ Rotator_Clamp (RotatorOf 0%nat) W = Some (set_transform 0%nat Tc W)
    /\ Rotator_scalars (rotator Tn) = (180, 170, 0)
    /\ Rotator_scalars (rotator Tc) = (180, 170, 0)
    /\ rotation Tn = rotation (Transform_turned 0%nat)
    /\ rotation Tc = rotation (Transform_turned 0%nat)
    /\ mtx Tn = ComposedMtx Tn /\ mtx Tc = ComposedMtx Tc.
Proof.
  cbv zeta.
  assert (Hs : synced_from_rotator (Transform_turned 0%nat))
    by (split; reflexivity).
  destruct (Rotator_Normalize_stays_consistent 0%nat (Transform_turned 0%nat)
              (set_transform 0%nat (Transform_turned 0%nat) World_empty)
              (set_transform_lookup _ _ _) Hs)
    as (Tn & Tc & Hn & Hc & Hrn & Hrc & H).
  assert (H540 : fmodf 540 360 = 180).
  { replace 540 with (180 + 360 * IZR 1) by (simpl; lra).
    apply fmodf_360_turns. left. split; [lra | lia]. }
  assert (H720 : fmodf 720 360 = 0).
  { replace 720 with (0 + 360 * IZR 2) by (simpl; lra).
    apply fmodf_360_turns. left. split; [lra | lia]. }
  assert (H190 : fmodf (-190) 360 = -190) by (apply fmodf_360_small; lra).
  assert (Hnorm : Rotator.NormalizeAxis 540 = 180
                  /\ Rotator.NormalizeAxis (-190) = 170
                  /\ Rotator.NormalizeAxis 720 = 0).
  { rewrite !NormalizeAxis_unfold, H540, H720, H190.
    repeat split; repeat case_decide; lra. }
  assert (Hclamp : Rotator.ClampAxis 540 = 180
                   /\ Rotator.ClampAxis (-190) = 170
                   /\ Rotator.ClampAxis 720 = 0).
  { rewrite !ClampAxis_unfold, H540, H720, H190.
    repeat split; repeat case_decide; lra. }
  destruct Hnorm as (N1 & N2 & N3). destruct Hclamp as (C1 & C2 & C3).
  exists Tn, Tc. split; [reflexivity|].
  split; [exact Hn|]. split; [exact Hc|].
  split.
  { rewrite Hrn. unfold Rotator_scalars, Rotator.Normalize_fields. simpl.
    rewrite N1, N2, N3. reflexivity. }
  split.
  { rewrite Hrc. unfold Rotator_scalars, Rotator.Clamp_fields. simpl.
    rewrite C1, C2, C3. reflexivity. }
  destruct (H Tn) as (Hqn & _ & _ & Hmn & _); [left; reflexivity|].
  destruct (H Tc) as (Hqc & _ & _ & Hmc & _); [right; reflexivity|].
  auto.
Defined.
